(** * Multi-scale autoregressive decoding engine of [models/var.py]

    A shallow embedding of the class [VAR]: the scale schedule built by
    [__init__], the generation calls ([autoregressive_infer_cfg] and
    its inpaint / draft / refine / mid / beam-search variants),
    [compute_nll], the training pass [forward] and the view of
    [SharedAdaLin], followed by the properties of the decoding engine.

    Python integers are [Z], floating-point scalars are idealised as
    canonical rationals [Qc], tensors are nested lists indexed
    batch-first, and the mutable parts of the model (the two random
    generators and the attention caches of the backbone blocks) are
    threaded through a state-and-exception monad. *)

From Stdlib Require Import ZArith List Lia Bool QArith Qcanon Lqa.
Import ListNotations.

Set Implicit Arguments.
Open Scope Z_scope.

(** ** Python sequences *)

Module Py.

  (** Exceptions the modelled code can raise. *)
Inductive Err : Set :=
  | TypeError
  | IndexError
  | KeyError
  | ZeroDivisionError
  | UnboundLocalError
  | RuntimeError.

Inductive Res (A : Type) : Type :=
  | Ok (a : A)
  | Raise (e : Err).
Arguments Ok {A} a.
Arguments Raise {A} e.

Definition len {A} (l : list A) : Z := Z.of_nat (length l).

  (** [l[i]]: negative indices count from the end. *)
Definition index {A} (l : list A) (i : Z) : option A :=
    if (0 <=? i) && (i <? len l) then nth_error l (Z.to_nat i)
    else if (- len l <=? i) && (i <? 0) then nth_error l (Z.to_nat (len l + i))
    else None.

  (** Bound of a slice, clamped as Python does. *)
Definition clamp (n i : Z) : Z :=
    if i <? 0 then Z.max 0 (n + i) else Z.min i n.

  (** [l[b:e]] *)
Definition slice {A} (l : list A) (b e : Z) : list A :=
    let b' := clamp (len l) b in
    let e' := clamp (len l) e in
    firstn (Z.to_nat (e' - b')) (skipn (Z.to_nat b') l).

  (** [l[:e]] and [l[b:]] *)
Definition slice_to {A} (l : list A) (e : Z) : list A := slice l 0 e.
Definition slice_from {A} (l : list A) (b : Z) : list A := slice l b (len l).

  (** [sum(l)] *)
Definition sum (l : list Z) : Z := fold_left Z.add l 0.

  (** [enumerate(l)] *)
Fixpoint enumerate_from {A} (i : nat) (l : list A) : list (nat * A) :=
    match l with
    | [] => []
    | a :: r => (i, a) :: enumerate_from (S i) r
    end.
Definition enumerate {A} (l : list A) : list (nat * A) := enumerate_from 0 l.

  (** A keyword argument that callers pass as nothing, as one number or
      as a per-scale sequence ([top_k], [temp]). *)
Inductive Arg (A : Type) : Type :=
  | ANone
  | ANum (a : A)
  | ASeq (l : list A).
Arguments ANone {A}.
Arguments ANum {A} a.
Arguments ASeq {A} l.

  (** [a[i]]: only a sequence can be subscripted. *)
Definition subscript {A} (a : Arg A) (i : Z) : Res (Arg A) :=
    match a with
    | ASeq l => match index l i with
                | Some x => Ok (ANum x)
                | None => Raise IndexError
                end
    | _ => Raise TypeError
    end.

End Py.

(** ** Scale schedule ([VAR.__init__], lines 40-49) *)

Module Schedule.

  (** [pn ** 2] *)
Definition sq (pn : Z) : Z := pn ^ 2.

  (** [self.L = sum(pn ** 2 for pn in self.patch_nums)] *)
Definition L (patch_nums : list Z) : Z := Py.sum (map sq patch_nums).

  (** [self.first_l = self.patch_nums[0] ** 2] *)
Definition first_l (patch_nums : list Z) : option Z :=
    option_map sq (Py.index patch_nums 0).

  (** The loop that fills [self.begin_ends]: one iteration appends
      [(cur, cur + pn ** 2)] and advances [cur]. *)
Definition begin_ends_step (acc : list (Z * Z) * Z) (pn : Z) : list (Z * Z) * Z :=
    let '(be, cur) := acc in (be ++ [(cur, cur + sq pn)], cur + sq pn).

Definition begin_ends (patch_nums : list Z) : list (Z * Z) :=
    fst (fold_left begin_ends_step patch_nums ([], 0)).

  (** [self.num_stages_minus_1 = len(self.patch_nums) - 1] *)
Definition num_stages_minus_1 (patch_nums : list Z) : Z := Py.len patch_nums - 1.

  (** The cumulative boundary [offset[s]], the sum of [patch_nums[i] ** 2]
      over [i < s]. *)
Definition offset (patch_nums : list Z) (s : nat) : Z :=
    Py.sum (map sq (firstn s patch_nums)).

  (** The level of every position: [torch.cat([torch.full((pn*pn,), i) ...])],
      the buffer [lvl_1L]. *)
Definition lvl_1L (patch_nums : list Z) : list Z :=
    flat_map (fun '(i, pn) => repeat (Z.of_nat i) (Z.to_nat (pn * pn)))
             (Py.enumerate patch_nums).

  (** [attn_bias_for_masking = torch.where(d >= dT, 0., -inf)]: [true]
      stands for [0.] (attention allowed), [false] for [-inf]. *)
Definition attn_bias_for_masking (patch_nums : list Z) : list (list bool) :=
    let d := lvl_1L patch_nums in
    map (fun di => map (fun dj => dj <=? di) d) d.

  (** The default schedule of the constructor. *)
Definition default_patch_nums : list Z := [1; 2; 3; 4; 5; 6; 8; 10; 13; 16].

  (** The table hard-coded in the refine and mid passes
      (lines 619, 811 and 918) and [pindex = exit_points[entry_num]]. *)
Definition exit_points : list Z := [1; 5; 14; 30; 55; 91; 155; 255; 424; 680].

Definition pindex (entry_num : Z) : option Z := Py.index exit_points entry_num.

  (** [offset = sum(self.patch_nums[:scale_idx])**2] of [compute_nll]
      (line 448). *)
Definition nll_offset (patch_nums : list Z) (scale_idx : Z) : Z :=
    (Py.sum (Py.slice_to patch_nums scale_idx)) ^ 2.

End Schedule.

(** ** Tensors as nested lists *)

Module Tensor.

Import Py.

  (** Logits of shape (batch, position, vocabulary). *)
Definition Logits : Set := list (list (list Qc)).

Definition zip_with {A B C} (f : A -> B -> C) (x : list A) (y : list B) : list C :=
    map (fun p => f (fst p) (snd p)) (combine x y).

  (** An elementwise operation along one dimension under torch's
      broadcasting rule: equal sizes, or one of them of size 1. *)
Definition zip_bc {A B C} (f : A -> B -> C) (x : list A) (y : list B) : Res (list C) :=
    if Nat.eqb (length x) (length y) then Ok (zip_with f x y)
    else match x, y with
         | [a], _ => Ok (map (f a) y)
         | _, [b] => Ok (map (fun a => f a b) x)
         | _, _ => Raise RuntimeError
         end.

  (** [t[:, lo:hi]] *)
Definition slice_pos {A} (t : list (list A)) (lo hi : Z) : list (list A) :=
    map (fun row => slice row lo hi) t.

  (** [t.repeat(n, 1, ...)]: the whole batch tiled [n] times. *)
Definition tile {A} (n : nat) (t : list A) : list A :=
    concat (repeat t n).

  (** [t.repeat_interleave(repeats=n, dim=0)] *)
Definition repeat_interleave {A} (n : nat) (t : list A) : list A :=
    flat_map (fun a => repeat a n) t.

  (** [t[indices]] along the batch axis. *)
Fixpoint index_select {A} (t : list A) (indices : list Z) : Res (list A) :=
    match indices with
    | [] => Ok []
    | i :: r =>
        match index t i, index_select t r with
        | Some a, Ok l => Ok (a :: l)
        | None, _ => Raise IndexError
        | _, Raise e => Raise e
        end
    end.

  (** [torch.cat([a, b], dim=1)]: the batch sizes must agree. *)
Definition cat1_pair {A} (a b : list (list A)) : Res (list (list A)) :=
    if Nat.eqb (length a) (length b) then Ok (zip_with (@app A) a b)
    else Raise RuntimeError.

  (** [torch.cat(ts, dim=1)] of a Python list of tensors; an empty list
      is refused. *)
Fixpoint cat1_from {A} (acc : list (list A)) (ts : list (list (list A))) : Res (list (list A)) :=
    match ts with
    | [] => Ok acc
    | t :: r => match cat1_pair acc t with
                | Ok acc' => cat1_from acc' r
                | Raise e => Raise e
                end
    end.

Definition cat1 {A} (ts : list (list (list A))) : Res (list (list A)) :=
    match ts with
    | [] => Raise RuntimeError
    | t :: r => cat1_from t r
    end.

  (** [torch.cat(ts, dim=0)]: every tensor has the same number of
      positions. *)
Definition same_width {A} (ts : list (list (list A))) : bool :=
    match concat ts with
    | [] => true
    | r0 :: rows => forallb (fun r => Nat.eqb (length r) (length r0)) rows
    end.

Definition cat0 {A} (ts : list (list (list A))) : Res (list (list A)) :=
    match ts with
    | [] => Raise RuntimeError
    | _ => if same_width ts then Ok (concat ts) else Raise RuntimeError
    end.

  (** [t[:, :, 0]] *)
Fixpoint heads {A} (row : list (list A)) : Res (list A) :=
    match row with
    | [] => Ok []
    | s :: r => match s, heads r with
                | a :: _, Ok l => Ok (a :: l)
                | [], _ => Raise IndexError
                | _, Raise e => Raise e
                end
    end.

Fixpoint select0 {A} (t : list (list (list A))) : Res (list (list A)) :=
    match t with
    | [] => Ok []
    | row :: r => match heads row, select0 r with
                  | Ok h, Ok l => Ok (h :: l)
                  | Raise e, _ => Raise e
                  | _, Raise e => Raise e
                  end
    end.

  (** Classifier-free guidance, one entry:
      [(1+t) * cond - t * uncond]. *)
Definition cfg_mix (t c u : Qc) : Qc := ((1 + t) * c - t * u)%Qc.

  (** [(1+t) * a - t * b] on two logits tensors. *)
Definition cfg_combine (t : Qc) (a b : Logits) : Res Logits :=
    zip_bc (zip_with (zip_with (cfg_mix t))) a b.

  (** [logits.mul(c)] *)
Definition scale (c : Qc) (t : Logits) : Logits :=
    map (map (map (fun x => (x * c)%Qc))) t.

  (** [t[:B, lo:hi] = rhs]: rows below [B], positions [lo:hi]
      overwritten, the rest of the tensor kept. *)
Definition set_row_slice {A} (lo hi : Z) (row rhs : list A) : list A :=
    let lo' := clamp (len row) lo in
    let hi' := clamp (len row) hi in
    firstn (Z.to_nat lo') row ++ rhs ++ skipn (Z.to_nat (Z.max lo' hi')) row.

Definition assign_slice {A} (t : list (list A)) (B : nat) (lo hi : Z)
             (rhs : list (list A)) : Res (list (list A)) :=
    let head := firstn B t in
    if Nat.eqb (length head) (length rhs)
       && forallb (fun p => Nat.eqb (length (slice (fst p) lo hi)) (length (snd p)))
                  (combine head rhs)
    then Ok (zip_with (set_row_slice lo hi) head rhs ++ skipn B t)
    else Raise RuntimeError.

Definition of_Z (z : Z) : Qc := Q2Qc (inject_Z z).

  (** [max(a, b)] of Python: the first argument unless the second is
      larger. *)
Definition qmax (a b : Qc) : Qc :=
    match (a ?= b)%Qc with Lt => b | _ => a end.

  (** [gum_t = max(0.27 * (1 - ratio * 0.95), 0.005)] *)
Definition gum_t (ratio : Qc) : Qc :=
    qmax (Q2Qc (27 # 100) * (1 - ratio * Q2Qc (95 # 100)))%Qc (Q2Qc (5 # 1000)).

  (** [x.max(dim=-1)[0]] of one position and [.sum(dim=1)] of one row. *)
Definition max_logit (v : list Qc) : Qc :=
    match v with
    | [] => 0%Qc
    | x :: r => fold_left qmax r x
    end.

Definition qsum (l : list Qc) : Qc := fold_left Qcplus l 0%Qc.

  (** [x.max(dim=1)[1]] of one row: the index of the first maximal
      value. *)
Fixpoint argmax_from (best : Qc) (bi i : Z) (l : list Qc) : Z :=
    match l with
    | [] => bi
    | x :: r => match (best ?= x)%Qc with
                | Lt => argmax_from x i (i + 1) r
                | _ => argmax_from best bi (i + 1) r
                end
    end.

Definition argmax (l : list Qc) : Z :=
    match l with
    | [] => 0
    | x :: r => argmax_from x 0 1 r
    end.

  (** [scores.view(-1, w)] *)
Fixpoint chunks_fuel {A} (fuel w : nat) (l : list A) : list (list A) :=
    match fuel, l with
    | O, _ => []
    | _, [] => []
    | S f, _ => firstn w l :: chunks_fuel f w (skipn w l)
    end.

Fixpoint map_res {A B} (f : A -> Res B) (l : list A) : Res (list B) :=
    match l with
    | [] => Ok []
    | a :: r => match f a, map_res f r with
                | Ok b, Ok bs => Ok (b :: bs)
                | Raise e, _ => Raise e
                | _, Raise e => Raise e
                end
    end.

  (** [t.unsqueeze(1).expand(n, k, -1)]: the batch size is [n] already
      (or 1), every row is repeated along the new axis. *)
Definition expand_rows {A} (n k : nat) (t : list A) : Res (list (list A)) :=
    if Nat.eqb (length t) n then Ok (map (fun r => repeat r k) t)
    else match t with
         | [r] => Ok (repeat (repeat r k) n)
         | _ => Raise RuntimeError
         end.

  (** [t.shape[1]] *)
Definition width {A} (t : list (list A)) : Z :=
    match t with
    | [] => 0
    | r :: _ => len r
    end.

Definition view_rows {A} (w : nat) (l : list A) : Res (list (list A)) :=
    match w with
    | O => Raise RuntimeError
    | _ => if Nat.eqb (Nat.modulo (length l) w) 0
           then Ok (chunks_fuel (length l) w l)
           else Raise RuntimeError
    end.

  (** [t.view(n, -1)] of a tensor given by its entries in memory
      order. *)
Definition view_n {A} (n : nat) (flat : list A) : Res (list (list A)) :=
    match n with
    | O => Raise RuntimeError
    | _ => if Nat.eqb (Nat.modulo (length flat) n) 0
           then match Nat.div (length flat) n with
                | O => Ok (repeat [] n)
                | w => Ok (chunks_fuel (length flat) w flat)
                end
           else Raise RuntimeError
    end.

End Tensor.

(** ** The model: parameters, mutable state and the monad of a call *)

Module Var.

Import Py Tensor.

  (** The attention module of one backbone block: the caching toggle
      and the keys/values cached so far, one entry per forward call. *)
Record Attn (KV : Type) : Type := mkAttn {
    caching : bool;
    cached : list KV
  }.

  (** Everything [VAR] takes from its collaborators (backbone blocks,
      quantizer, decoder, embedding layers, samplers of
      [models.helpers]) and its hyperparameters.  Tensors are lists
      batch-first; [Vec] is an embedding vector of width [C], [CVec]
      a codebook vector of width [Cvae]. *)
Record Ops : Type := mkOps {
    Rng : Type;
    Vec : Type;
    CVec : Type;
    Gss : Type;
    KV : Type;
    Canvas : Type;
    HMap : Type;
    Resid : Type;
    Img : Type;
    Mask : Type;
    Ref : Type;
    (* hyperparameters *)
    patch_nums : list Z;
    num_classes : Z;
    cond_drop_rate : Qc;
    (* random generators *)
    manual_seed : Z -> Rng;
    multinomial : Rng -> Z -> nat -> list Z * Rng;
    rand : Rng -> nat -> list Qc * Rng;
    sample_with_top_k_top_p_ :
      Rng -> Logits -> Arg Z -> Qc -> nat -> Arg Qc -> option (list (list (list Z)) * Rng);
    gumbel_softmax_with_rng : Rng -> Logits -> Qc -> option (Logits * Rng);
    (* embeddings *)
    class_emb : Z -> Vec;
    pos_start : list Vec;
    pos_1LC : list Vec;
    lvl_embed : Z -> Vec;
    word_embed : CVec -> Vec;
    vadd : Vec -> Vec -> Vec;
    shared_ada_lin : Vec -> Gss;
    (* backbone block [i]: the entry it caches for an input and its
       output given the entries it attends over *)
    kv_of : nat -> list (list Vec) -> list Gss -> KV;
    attend : nat -> list KV -> list (list Vec) -> list Gss ->
             option (list (list bool)) -> option (list (list Vec));
    (* cache surgery of the beam-search variant, per block: the
       method [update_cache_for_beams], the selection of the best
       beams in [k_cache]/[v_cache] (lines 1216-1231) and their
       doubling for CFG (lines 1234-1237) *)
    update_cache_for_beams : nat -> Attn KV -> option (Attn KV);
    select_beam_cache : nat -> nat -> list Z -> Attn KV -> option (Attn KV);
    double_beam_cache : Attn KV -> option (Attn KV);
    (* classifier head: [head(head_nm(h, cond_BD))] *)
    head : list (list Vec) -> list Vec -> Logits;
    log_softmax : list Qc -> list Qc;
    (* quantizer and decoder *)
    vq_embedding : Z -> CVec;
    codebook_matmul : Logits -> list (list CVec);
    embed_target : list (list Z) -> option (list (list Vec));
    reshape_BChw : list (list CVec) -> nat -> Z -> option (list HMap);
    get_next_autoregressive_input :
      nat -> nat -> list Canvas -> list HMap -> option (list Canvas * list Resid);
    get_next_autoregressive_input_inpaint :
      nat -> nat -> list Canvas -> list HMap -> Ref -> Mask -> Mask ->
      option (list Canvas * list Resid);
    view_BlC : list Resid -> nat -> option (list (list CVec));
    view_tokens : list (list Vec) -> nat -> option (list (list CVec));
    new_zeros : Z -> Canvas;
    fhat_to_img : list Canvas -> Img;
    denormalize : Img -> Img;
    interpolate : Mask -> Z -> Mask
  }.

  (** The mutable part of a model instance: [self.rng], torch's default
      generator (used when [rng] is [None]) and the attention state of
      [self.blocks]. *)
Record State (m : Ops) : Type := mkState {
    rng : Rng m;
    default_rng : Rng m;
    blocks : list (Attn (KV m))
  }.

  (** Modelled from the spec: [kv_caching] of the attention module
      (models/basic_var is not part of the sources).  Enabling switches
      the block to append mode; disabling clears all cached state and
      reverts to stateless attention. *)
Definition kv_caching {KV} (enable : bool) (a : Attn KV) : Attn KV :=
    if enable then mkAttn true (cached a) else mkAttn false [].

  (** Modelled from the spec: [reset_cache] of the attention module. *)
Definition reset_cache {KV} (a : Attn KV) : Attn KV := mkAttn (caching a) [].

  (** Modelled from the spec: the forward call of block [i].  With
      caching enabled the block appends this step's keys/values and
      attends over everything cached, ignoring [attn_bias]; otherwise
      it is a function of its arguments. *)
Definition block_forward (m : Ops) (i : nat) (x : list (list (Vec m)))
             (cond : list (Gss m)) (attn_bias : option (list (list bool)))
             (a : Attn (KV m)) : option (list (list (Vec m)) * Attn (KV m)) :=
    if caching a then
      let kvs := cached a ++ [kv_of m i x cond] in
      option_map (fun y => (y, mkAttn true kvs)) (attend m i kvs x cond None)
    else
      option_map (fun y => (y, a)) (attend m i [kv_of m i x cond] x cond attn_bias).

Section Monad.

Variable m : Ops.

    (** A computation on the model: it may raise, and the state
        survives the exception. *)
Definition M (A : Type) : Type := State m -> Res A * State m.

Definition ret {A} (a : A) : M A := fun st => (Ok a, st).

Definition bind {A B} (c : M A) (k : A -> M B) : M B :=
      fun st => match c st with
                | (Ok a, st') => k a st'
                | (Raise e, st') => (Raise e, st')
                end.

Definition lift {A} (r : Res A) : M A := fun st => (r, st).

Definition lift_opt {A} (e : Err) (o : option A) : M A :=
      fun st => (match o with Some a => Ok a | None => Raise e end, st).

    (** [try: c finally: f] *)
Definition try_finally {A} (c : M A) (f : M unit) : M A :=
      fun st => match c st with
                | (r, st') => match f st' with
                              | (Ok _, st'') => (r, st'')
                              | (Raise e, st'') => (Raise e, st'')
                              end
                end.

    (** A [for] loop whose body may [break]. *)
Inductive Ctl (S : Type) : Type :=
    | Next (s : S)
    | Break (s : S).

Fixpoint for_loop {A S} (body : A -> S -> M (Ctl S)) (items : list A) (s : S) : M S :=
      match items with
      | [] => ret s
      | a :: r => bind (body a s)
                       (fun c => match c with
                                 | Next s' => for_loop body r s'
                                 | Break s' => ret s'
                                 end)
      end.

    (** One draw from a generator: [self.rng] when [sel], torch's
        default generator when [rng] is [None]. *)
Definition draw {A} (sel : bool) (f : Rng m -> option (A * Rng m)) : M A :=
      fun st =>
        if sel then
          match f (rng st) with
          | Some (a, r) => (Ok a, mkState m r (default_rng st) (blocks st))
          | None => (Raise RuntimeError, st)
          end
        else
          match f (default_rng st) with
          | Some (a, r) => (Ok a, mkState m (rng st) r (blocks st))
          | None => (Raise RuntimeError, st)
          end.

    (** [if g_seed is None: rng = None]
        [else: self.rng.manual_seed(g_seed); rng = self.rng] *)
Definition seed_rng (g_seed : option Z) : M bool :=
      fun st => match g_seed with
                | None => (Ok false, st)
                | Some g => (Ok true, mkState m (manual_seed m g) (default_rng st) (blocks st))
                end.

    (** [for b in self.blocks: b.attn.kv_caching(enable)] *)
Definition set_kv_caching (enable : bool) : M unit :=
      fun st => (Ok tt, mkState m (rng st) (default_rng st) (map (kv_caching enable) (blocks st))).

    (** [for b in self.blocks: x = b(x=x, cond_BD=cond, attn_bias=bias)] *)
Fixpoint blocks_forward (i : nat) (bs : list (Attn (KV m))) (x : list (list (Vec m)))
             (cond : list (Gss m)) (bias : option (list (list bool)))
      : Res (list (list (Vec m))) * list (Attn (KV m)) :=
      match bs with
      | [] => (Ok x, [])
      | a :: r =>
          match block_forward m i x cond bias a with
          | Some (y, a') =>
              let (res, r') := blocks_forward (S i) r y cond bias in (res, a' :: r')
          | None => (Raise RuntimeError, a :: r)
          end
      end.

Definition backbone (x : list (list (Vec m))) (cond : list (Gss m))
               (bias : option (list (list bool))) : M (list (list (Vec m))) :=
      fun st => let (res, bs) := blocks_forward 0 (blocks st) x cond bias in
                (res, mkState m (rng st) (default_rng st) bs).

    (** A per-block cache operation applied to every block in turn; the
        first failure stops the loop. *)
Fixpoint blocks_update (f : Attn (KV m) -> option (Attn (KV m)))
             (bs : list (Attn (KV m))) : Res unit * list (Attn (KV m)) :=
      match bs with
      | [] => (Ok tt, [])
      | a :: r =>
          match f a with
          | Some a' => let (res, r') := blocks_update f r in (res, a' :: r')
          | None => (Raise RuntimeError, a :: r)
          end
      end.

Definition update_blocks (f : Attn (KV m) -> option (Attn (KV m))) : M unit :=
      fun st => let (res, bs) := blocks_update f (blocks st) in
                (res, mkState m (rng st) (default_rng st) bs).

End Monad.

Arguments seed_rng : clear implicits.
Arguments set_kv_caching : clear implicits.
Arguments backbone : clear implicits.
Arguments update_blocks : clear implicits.
Arguments ret {m A} a.
Arguments bind {m A B} c k.
Arguments lift {m A} r.
Arguments lift_opt {m A} e o.
Arguments try_finally {m A} c f.
Arguments for_loop {m A S} body items s.
Arguments draw {m A} sel f.

  Declare Scope var_scope.
  Delimit Scope var_scope with var.
Notation "x <- c ;; k" := (bind c (fun x => k))
    (at level 61, c at next level, right associativity) : var_scope.
Notation "' p <- c ;; k" := (bind c (fun p => k))
    (at level 61, p pattern, c at next level, right associativity) : var_scope.
Notation "c ;;; k" := (bind c (fun _ => k))
    (at level 61, right associativity) : var_scope.

End Var.

(** ** The generation calls of [VAR] *)

Module Gen.

Import Py Tensor Var.
Local Open Scope var_scope.

  (** [label_B]: [None], an [int] or a tensor of class ids. *)
Inductive Label : Set :=
  | LabelNone
  | LabelInt (z : Z)
  | LabelTensor (l : list Z).

Section Calls.

Variable m : Ops.

Local Abbreviation TokMap := (list (list (Vec m))).

    (** [len(self.patch_nums)] and [self.num_stages_minus_1] *)
Definition stages : nat := length (patch_nums m).
Definition nsm1 : Z := Schedule.num_stages_minus_1 (patch_nums m).

    (** [lvl_pos = self.lvl_embed(self.lvl_1L) + self.pos_1LC] *)
Definition lvl_pos : list (Vec m) :=
      zip_with (vadd m) (map (lvl_embed m) (Schedule.lvl_1L (patch_nums m))) (pos_1LC m).

    (** [x + p] where [p] has shape (1, l, C). *)
Definition add_pos (x : TokMap) (p : list (Vec m)) : Res TokMap :=
      map_res (fun row => zip_bc (vadd m) row p) x.

    (** Lines 151-154: the labels of the batch. *)
Definition resolve_label (sel : bool) (B : nat) (label_B : Label) : M m (list Z) :=
      match label_B with
      | LabelNone => draw sel (fun r => Some (multinomial m r (num_classes m) B))
      | LabelInt z => ret (repeat (if z <? 0 then num_classes m else z) B)
      | LabelTensor l => ret l
      end.

    (** What every generation call computes first (lines 148-159):
        the generator to sample from, [sos = cond_BD] for the
        conditional rows followed by the unconditional ones, and the
        token map of the first scale. *)
Record Start : Type := mkStart {
      sel : bool;
      cond_BD : list (Vec m);
      token_map0 : TokMap
    }.

Definition start_from (sel : bool) (B : nat) (label_B : Label) : M m Start :=
      label <- resolve_label sel B label_B ;;
      let sos := map (class_emb m) (label ++ map (fun _ => num_classes m) label) in
      fl <- lift_opt IndexError (Schedule.first_l (patch_nums m)) ;;
      x0 <- lift (expand_rows (2 * B) (Z.to_nat fl) sos) ;;
      x1 <- lift (add_pos x0 (pos_start m)) ;;
      x2 <- lift (add_pos x1 (slice_to lvl_pos fl)) ;;
      ret (mkStart sel sos x2).

Definition start (B : nat) (label_B : Label) (g_seed : option Z) : M m Start :=
      sel <- seed_rng m g_seed ;;
      start_from sel B label_B.

    (** [f_hat = sos.new_zeros(B, self.Cvae, self.patch_nums[-1], self.patch_nums[-1])] *)
Definition zero_canvas (B : nat) : M m (list (Canvas m)) :=
      pn_last <- lift_opt IndexError (index (patch_nums m) (-1)) ;;
      ret (repeat (new_zeros m pn_last) B).

    (** [ratio = si / self.num_stages_minus_1] *)
Definition ratio_of (si : nat) : Res Qc :=
      if nsm1 =? 0 then Raise ZeroDivisionError
      else Ok (of_Z (Z.of_nat si) / of_Z nsm1)%Qc.

    (** [(1+t) * logits_BlV[:B] - t * logits_BlV[B:]] *)
Definition guided (B : nat) (t : Qc) (logits_BlV : Logits) : Res Logits :=
      cfg_combine t (slice_to logits_BlV (Z.of_nat B)) (slice_from logits_BlV (Z.of_nat B)).

    (** Lines 187-191: hard codebook lookup, or the Gumbel-softmax
        relaxation when [more_smooth]. *)
Definition embed_tokens (sel more_smooth : bool) (idx_Bl : list (list Z))
               (logits_BlV : Logits) (ratio : Qc) : M m (list (list (CVec m))) :=
      if negb more_smooth then ret (map (map (vq_embedding m)) idx_Bl)
      else
        w <- draw sel (fun r => gumbel_softmax_with_rng m r
                                  (scale (1 + ratio)%Qc logits_BlV) (gum_t ratio)) ;;
        ret (codebook_matmul m w).

    (** Lines 198-200: the embedded token map of scale [si+1]. *)
Definition embed_next (cur_L : Z) (si : nat) (tokens : list (list (CVec m))) : M m TokMap :=
      pn1 <- lift_opt IndexError (index (patch_nums m) (Z.of_nat si + 1)) ;;
      x <- lift (add_pos (map (map (word_embed m)) tokens)
                         (slice lvl_pos cur_L (cur_L + Schedule.sq pn1))) ;;
      ret (x ++ x).

Definition Quant : Type :=
      nat -> nat -> list (Canvas m) -> list (HMap m) -> option (list (Canvas m) * list (Resid m)).

    (** The quantizer step of the inpainting calls. *)
Definition quant_inpaint (f_hats : Ref m) (mask_in mask_out : Mask m) : Quant :=
      fun si n f_hat h =>
        get_next_autoregressive_input_inpaint m si n f_hat h f_hats mask_in mask_out.

    (** The variables a decoding loop carries from one scale to the
        next. *)
Record Loop : Type := mkLoop {
      cur_L : Z;
      f_hat : list (Canvas m);
      next_token_map : TokMap;
      token_hub : list (list (list (CVec m)));
      logits_hub : list Logits
    }.

    (** Lines 193-195: the sampled tokens of scale [si] enter the
        canvas. *)
Definition accumulate (quant : Quant) (B : nat) (si : nat) (pn : Z)
               (e : list (list (CVec m))) (f_hat : list (Canvas m))
      : M m (list (Canvas m) * list (Resid m)) :=
      h_BChw <- lift_opt RuntimeError (reshape_BChw m e B pn) ;;
      lift_opt RuntimeError (quant si stages f_hat h_BChw).

    (** Lines 170-185 of one scale: backbone pass with the cache, CFG
        combination and sampling.  [k] and [tmp] are the [top_k] and
        [temp] arguments handed to the sampler, or the exception their
        subscript raises. *)
Definition guided_sample (sel : bool) (B : nat) (cfg top_p : Qc)
               (k : Res (Arg Z)) (tmp : Res (Arg Qc)) (cond_gss : list (Gss m))
               (cond_BD : list (Vec m)) (si : nat) (x : TokMap)
      : M m (Qc * Logits * list (list Z)) :=
      ratio <- lift (ratio_of si) ;;
      h <- backbone m x cond_gss None ;;
      let t := (cfg * ratio)%Qc in
      logits_BlV <- lift (guided B t (head m h cond_BD)) ;;
      k <- lift k ;;
      tmp <- lift tmp ;;
      smp <- draw sel (fun r => sample_with_top_k_top_p_ m r logits_BlV k top_p 1 tmp) ;;
      idx_Bl <- lift (select0 smp) ;;
      ret (ratio, logits_BlV, idx_Bl).

    (** *** [autoregressive_infer_cfg] (lines 131-206) and
        [autoregressive_infer_inpaint] (lines 319-394) *)

Definition infer_body (quant : Quant) (p : Start) (B : nat) (cfg : Qc) (top_k : Arg Z)
               (top_p : Qc) (more_smooth : bool) (cond_gss : list (Gss m))
               (it : nat * Z) (ls : Loop) : M m (Ctl Loop) :=
      let (si, pn) := it in
      let cur_L := cur_L ls + pn * pn in
      '(ratio, logits_BlV, idx_Bl) <-
        guided_sample (sel p) B cfg top_p (Ok top_k) (Ok ANone) cond_gss (cond_BD p) si
                      (next_token_map ls) ;;
      e <- embed_tokens (sel p) more_smooth idx_Bl logits_BlV ratio ;;
      '(f_hat, resid) <- accumulate quant B si pn e (f_hat ls) ;;
      if Z.of_nat si =? nsm1
      then ret (Next (mkLoop cur_L f_hat (next_token_map ls) [] []))
      else
        tokens <- lift_opt RuntimeError (view_BlC m resid B) ;;
        x <- embed_next cur_L si tokens ;;
        ret (Next (mkLoop cur_L f_hat x [] [])).

Definition infer_main (quant : Quant) (p : Start) (B : nat) (cfg : Qc) (top_k : Arg Z)
               (top_p : Qc) (more_smooth : bool) : M m (Img m) :=
      f_hat0 <- zero_canvas B ;;
      let cond_gss := map (shared_ada_lin m) (cond_BD p) in
      set_kv_caching m true ;;;
      ls <- for_loop (infer_body quant p B cfg top_k top_p more_smooth cond_gss)
                     (enumerate (patch_nums m))
                     (mkLoop 0 f_hat0 (token_map0 p) [] []) ;;
      set_kv_caching m false ;;;
      ret (denormalize m (fhat_to_img m (f_hat ls))).

Definition autoregressive_infer_cfg (B : nat) (label_B : Label) (g_seed : option Z)
               (cfg : Qc) (top_k : Arg Z) (top_p : Qc) (more_smooth : bool) : M m (Img m) :=
      p <- start B label_B g_seed ;;
      infer_main (get_next_autoregressive_input m) p B cfg top_k top_p more_smooth.

Definition autoregressive_infer_inpaint (B : nat) (label_B : Label) (g_seed : option Z)
               (cfg : Qc) (top_k : Arg Z) (top_p : Qc) (more_smooth : bool)
               (f_hats : Ref m) (mask_in mask_out : Mask m) : M m (Img m) :=
      p <- start B label_B g_seed ;;
      f_hat0 <- zero_canvas B ;;
      let cond_gss := map (shared_ada_lin m) (cond_BD p) in
      pn_last <- lift_opt IndexError (index (patch_nums m) (-1)) ;;
      let mask_in := interpolate m mask_in pn_last in
      let mask_out := interpolate m mask_out pn_last in
      set_kv_caching m true ;;;
      ls <- for_loop (infer_body (quant_inpaint f_hats mask_in mask_out) p B cfg top_k top_p
                                 more_smooth cond_gss)
                     (enumerate (patch_nums m))
                     (mkLoop 0 f_hat0 (token_map0 p) [] []) ;;
      set_kv_caching m false ;;;
      ret (denormalize m (fhat_to_img m (f_hat ls))).

    (** *** [autoregressive_infer_cfg_draft] (lines 699-777) and
        [autoregressive_inpaint_draft] (lines 499-585) *)

Definition draft_body (quant : Quant) (p : Start) (B : nat) (cfg : Qc) (top_k : Arg Z)
               (top_p : Qc) (more_smooth : bool) (exit_num : Z) (temp : Arg Qc)
               (cond_gss : list (Gss m)) (it : nat * Z) (ls : Loop) : M m (Ctl Loop) :=
      let (si, pn) := it in
      if Z.of_nat si =? exit_num then ret (Break ls)
      else
        let cur_L := cur_L ls + pn * pn in
        '(ratio, logits_BlV, idx_Bl) <-
          guided_sample (sel p) B cfg top_p (subscript top_k (Z.of_nat si))
                        (subscript temp (Z.of_nat si)) cond_gss (cond_BD p) si
                        (next_token_map ls) ;;
        e <- embed_tokens (sel p) more_smooth idx_Bl logits_BlV ratio ;;
        '(f_hat, resid) <- accumulate quant B si pn e (f_hat ls) ;;
        tokens <- lift_opt RuntimeError (view_BlC m resid B) ;;
        x <- embed_next cur_L si tokens ;;
        ret (Next (mkLoop cur_L f_hat x (token_hub ls ++ [tokens])
                          (logits_hub ls ++ [logits_BlV]))).

Definition autoregressive_infer_cfg_draft (B : nat) (label_B : Label) (g_seed : option Z)
               (cfg : Qc) (top_k : Arg Z) (top_p : Qc) (more_smooth : bool) (exit_num : Z)
               (temp : Arg Qc) : M m (list (Canvas m) * list (list (CVec m))) :=
      p <- start B label_B g_seed ;;
      f_hat0 <- zero_canvas B ;;
      let cond_gss := map (shared_ada_lin m) (cond_BD p) in
      set_kv_caching m true ;;;
      ls <- for_loop (draft_body (get_next_autoregressive_input m) p B cfg top_k top_p
                                 more_smooth exit_num temp cond_gss)
                     (enumerate (patch_nums m))
                     (mkLoop 0 f_hat0 (token_map0 p) [] []) ;;
      token_hub <- lift (cat1 (token_hub ls)) ;;
      set_kv_caching m false ;;;
      ret (f_hat ls, token_hub).

Definition autoregressive_inpaint_draft (B : nat) (label_B : Label) (g_seed : option Z)
               (cfg : Qc) (top_k : Arg Z) (top_p : Qc) (more_smooth : bool) (exit_num : Z)
               (f_hats : Ref m) (mask_in mask_out : Mask m) (temp : Arg Qc)
      : M m (list (Canvas m) * list (list (CVec m)) * Logits) :=
      p <- start B label_B g_seed ;;
      f_hat0 <- zero_canvas B ;;
      let cond_gss := map (shared_ada_lin m) (cond_BD p) in
      pn_last <- lift_opt IndexError (index (patch_nums m) (-1)) ;;
      let mask_in := interpolate m mask_in pn_last in
      let mask_out := interpolate m mask_out pn_last in
      set_kv_caching m true ;;;
      ls <- for_loop (draft_body (quant_inpaint f_hats mask_in mask_out) p B cfg top_k top_p
                                 more_smooth exit_num temp cond_gss)
                     (enumerate (patch_nums m))
                     (mkLoop 0 f_hat0 (token_map0 p) [] []) ;;
      token_hub <- lift (cat1 (token_hub ls)) ;;
      logits_hub <- lift (cat1 (logits_hub ls)) ;;
      set_kv_caching m false ;;;
      ret (f_hat ls, token_hub, logits_hub).

    (** *** The refine and mid passes *)

    (** Lines 619-626: the embedded sequence of the scales up to the
        re-entry scale, rebuilt from the draft's tokens, and the
        attention bias restricted to its length. *)
Definition refine_input (p : Start) (draft : list (list (CVec m))) (entry_num : Z)
      : M m (TokMap * list (list bool)) :=
      pindex <- lift_opt IndexError (Schedule.pindex entry_num) ;;
      x <- lift (add_pos (map (map (word_embed m)) draft) (slice lvl_pos 1 pindex)) ;;
      x <- lift (cat1_pair (token_map0 p) (x ++ x)) ;;
      let attn_bias :=
        slice_pos (slice (Schedule.attn_bias_for_masking (patch_nums m)) 0 pindex) 0 pindex in
      ret (x, attn_bias).

    (** The inner loop of the re-entry scale (lines 657-660, 848-851,
        957-960): one sampler call per scale [a], each on the slice
        [logits_BlV[:B, new_L : new_L + patch_nums[a] ** 2]]; [idx_Bl]
        keeps the last result. *)
Fixpoint sample_scales (sel : bool) (B : nat) (top_k : Arg Z) (top_p : Qc)
             (tmp_of : Z -> Res (Arg Qc)) (logits_BlV : Logits) (items : list (nat * Z))
             (new_L : Z) (idx_Bl : option (list (list Z))) : M m (option (list (list Z))) :=
      match items with
      | [] => ret idx_Bl
      | (a, b) :: r =>
          pa <- lift_opt IndexError (index (patch_nums m) (Z.of_nat a)) ;;
          let x := slice_pos (slice_to logits_BlV (Z.of_nat B)) new_L (new_L + Schedule.sq pa) in
          k <- lift (subscript top_k (Z.of_nat a)) ;;
          tmp <- lift (tmp_of (Z.of_nat a)) ;;
          smp <- draw sel (fun r => sample_with_top_k_top_p_ m r x k top_p 1 tmp) ;;
          i <- lift (select0 smp) ;;
          sample_scales sel B top_k top_p tmp_of logits_BlV r (new_L + b * b) (Some i)
      end.

    (** The branch [si > entry_num] (lines 663-667): CFG combination
        and sampling as in the standard loop. *)
Definition later_scale (sel : bool) (B : nat) (cfg top_p : Qc) (k : Res (Arg Z))
               (tmp : Res (Arg Qc)) (si : nat) (logits : Logits)
      : M m (Qc * Logits * list (list Z)) :=
      ratio <- lift (ratio_of si) ;;
      let t := (cfg * ratio)%Qc in
      logits_BlV <- lift (guided B t logits) ;;
      k <- lift k ;;
      tmp <- lift tmp ;;
      smp <- draw sel (fun r => sample_with_top_k_top_p_ m r logits_BlV k top_p 1 tmp) ;;
      idx_Bl <- lift (select0 smp) ;;
      ret (ratio, logits_BlV, idx_Bl).

    (** The CFG combination of the re-entry scale, restricted to the
        positions [lo:hi] of that scale. *)
Definition guided_slice (B : nat) (t : Qc) (logits : Logits) (lo hi : Z) : Res Logits :=
      cfg_combine t (slice_pos (slice_to logits (Z.of_nat B)) lo hi)
                  (slice_pos (slice_from logits (Z.of_nat B)) lo hi).

    (** Lines 652-660 of [autoregressive_inpaint_refine]: the new
        scale's combined logits are appended to [logits_hub]. *)
Definition inpaint_entry_logits (B : nat) (cfg : Qc) (si : nat) (pn cur_L : Z)
               (hub logits : Logits) : Res (Qc * Logits) :=
      match ratio_of si with
      | Raise e => Raise e
      | Ok ratio =>
          match guided_slice B (cfg * ratio)%Qc logits (cur_L - pn * pn) cur_L with
          | Raise e => Raise e
          | Ok new => match cat1_pair hub new with
                      | Raise e => Raise e
                      | Ok l => Ok (ratio, l)
                      end
          end
      end.

    (** Lines 841-845 of [autoregressive_infer_cfg_refine]: the new
        scale's combined logits overwrite, in place, the conditional
        rows of the logits of this backbone pass. *)
Definition cfg_entry_logits (B : nat) (cfg : Qc) (si : nat) (pn cur_L : Z)
               (logits : Logits) : Res (Qc * Logits) :=
      match ratio_of si with
      | Raise e => Raise e
      | Ok ratio =>
          match guided_slice B (cfg * ratio)%Qc logits (cur_L - pn * pn) cur_L with
          | Raise e => Raise e
          | Ok rhs => match assign_slice logits B (cur_L - pn * pn) cur_L rhs with
                      | Raise e => Raise e
                      | Ok l => Ok (ratio, l)
                      end
          end
      end.

    (** The scales sampled at re-entry: [self.patch_nums[0:entry_num+1]]. *)
Definition entry_scales (entry_num : Z) : list (nat * Z) :=
      enumerate (slice (patch_nums m) 0 (entry_num + 1)).

    (** Lines 670-684: the tokens enter the canvas and, unless this is
        the last scale, the next token map is built. *)
Definition finish_scale (quant : Quant) (sel more_smooth : bool) (B : nat) (si : nat)
               (pn cur_L : Z) (ratio : Qc) (logits_BlV : Logits) (idx_Bl : list (list Z))
               (ls : Loop) : M m (Ctl Loop) :=
      e <- embed_tokens sel more_smooth idx_Bl logits_BlV ratio ;;
      '(f_hat, resid) <- accumulate quant B si pn e (f_hat ls) ;;
      if Z.of_nat si =? nsm1
      then ret (Next (mkLoop cur_L f_hat (next_token_map ls) [] []))
      else
        tokens <- lift_opt RuntimeError (view_BlC m resid B) ;;
        x <- embed_next cur_L si tokens ;;
        ret (Next (mkLoop cur_L f_hat x [] [])).

    (** *** [autoregressive_inpaint_refine] (lines 588-688) *)

Definition inpaint_refine_body (quant : Quant) (p : Start) (B : nat) (cfg : Qc)
               (top_k : Arg Z) (top_p : Qc) (more_smooth : bool) (hub : Logits)
               (entry_num : Z) (temp : Arg Qc) (cond_gss : list (Gss m))
               (attn_bias : list (list bool)) (it : nat * Z) (ls : Loop) : M m (Ctl Loop) :=
      let (si, pn) := it in
      let cur_L := cur_L ls + pn * pn in
      if Z.of_nat si <? entry_num
      then ret (Next (mkLoop cur_L (f_hat ls) (next_token_map ls) [] []))
      else
        h <- backbone m (next_token_map ls) cond_gss
                      (if Z.of_nat si =? entry_num then Some attn_bias else None) ;;
        let logits := head m h (cond_BD p) in
        '(ratio, logits_BlV, idx_Bl) <-
          (if Z.of_nat si =? entry_num then
             '(ratio, logits_BlV) <- lift (inpaint_entry_logits B cfg si pn cur_L hub logits) ;;
             idx <- sample_scales (sel p) B top_k top_p (subscript temp) logits_BlV
                                  (entry_scales entry_num) 0 None ;;
             idx_Bl <- lift_opt UnboundLocalError idx ;;
             ret (ratio, logits_BlV, idx_Bl)
           else
             later_scale (sel p) B cfg top_p (subscript top_k (Z.of_nat si))
                         (subscript temp (Z.of_nat si)) si logits) ;;
        finish_scale quant (sel p) more_smooth B si pn cur_L ratio logits_BlV idx_Bl ls.

Definition autoregressive_inpaint_refine (B : nat) (label_B : Label) (g_seed : option Z)
               (cfg : Qc) (top_k : Arg Z) (top_p : Qc) (more_smooth : bool)
               (draft : list (list (CVec m))) (f_hat0 : list (Canvas m)) (logits_hub : Logits)
               (entry_num : Z) (f_hats : Ref m) (mask_in mask_out : Mask m) (temp : Arg Qc)
      : M m (Img m) :=
      p <- start B label_B g_seed ;;
      '(x, attn_bias) <- refine_input p draft entry_num ;;
      let cond_gss := map (shared_ada_lin m) (cond_BD p) in
      pn_last <- lift_opt IndexError (index (patch_nums m) (-1)) ;;
      let mask_in := interpolate m mask_in pn_last in
      let mask_out := interpolate m mask_out pn_last in
      set_kv_caching m true ;;;
      ls <- for_loop (inpaint_refine_body (quant_inpaint f_hats mask_in mask_out) p B cfg top_k
                                          top_p more_smooth logits_hub entry_num temp cond_gss
                                          attn_bias)
                     (enumerate (patch_nums m)) (mkLoop 0 f_hat0 x [] []) ;;
      set_kv_caching m false ;;;
      ret (denormalize m (fhat_to_img m (f_hat ls))).

    (** *** [autoregressive_infer_cfg_refine] (lines 780-881) *)

Definition cfg_refine_body (p : Start) (B : nat) (cfg : Qc) (top_k : Arg Z) (top_p : Qc)
               (more_smooth : bool) (entry_num : Z) (temp : Arg Qc) (cond_gss : list (Gss m))
               (attn_bias : list (list bool)) (it : nat * Z) (ls : Loop) : M m (Ctl Loop) :=
      let (si, pn) := it in
      let cur_L := cur_L ls + pn * pn in
      if Z.of_nat si <? entry_num
      then ret (Next (mkLoop cur_L (f_hat ls) (next_token_map ls) [] []))
      else
        h <- backbone m (next_token_map ls) cond_gss
                      (if Z.of_nat si =? entry_num then Some attn_bias else None) ;;
        let logits := head m h (cond_BD p) in
        '(ratio, logits_BlV, idx_Bl) <-
          (if Z.of_nat si =? entry_num then
             '(ratio, logits1) <- lift (cfg_entry_logits B cfg si pn cur_L logits) ;;
             idx <- sample_scales (sel p) B top_k top_p (subscript temp) logits1
                                  (entry_scales entry_num) 0 None ;;
             idx_Bl <- lift_opt UnboundLocalError idx ;;
             ret (ratio, slice_pos (slice_to logits1 (Z.of_nat B)) (cur_L - pn * pn) cur_L, idx_Bl)
           else
             later_scale (sel p) B cfg top_p (subscript top_k (Z.of_nat si))
                         (subscript temp (Z.of_nat si)) si logits) ;;
        finish_scale (get_next_autoregressive_input m) (sel p) more_smooth B si pn cur_L ratio
                     logits_BlV idx_Bl ls.

Definition autoregressive_infer_cfg_refine (B : nat) (label_B : Label) (g_seed : option Z)
               (cfg : Qc) (top_k : Arg Z) (top_p : Qc) (more_smooth : bool)
               (draft : list (list (CVec m))) (f_hat0 : list (Canvas m)) (entry_num : Z)
               (temp : Arg Qc) : M m (Img m) :=
      p <- start B label_B g_seed ;;
      '(x, attn_bias) <- refine_input p draft entry_num ;;
      let cond_gss := map (shared_ada_lin m) (cond_BD p) in
      set_kv_caching m true ;;;
      ls <- for_loop (cfg_refine_body p B cfg top_k top_p more_smooth entry_num temp cond_gss
                                      attn_bias)
                     (enumerate (patch_nums m)) (mkLoop 0 f_hat0 x [] []) ;;
      set_kv_caching m false ;;;
      ret (denormalize m (fhat_to_img m (f_hat ls))).

    (** *** [autoregressive_infer_cfg_mid] (lines 887-988)

        The loop stops after the re-entry scale, so the branches
        [si > entry_num] of the source are never taken; [token_hub] is
        the draft extended by the tokens of the next scale. *)

Definition mid_body (p : Start) (B : nat) (cfg : Qc) (top_k : Arg Z) (top_p : Qc)
               (more_smooth : bool) (entry_num : Z) (cond_gss : list (Gss m))
               (attn_bias : list (list bool)) (it : nat * Z)
               (st : Loop * list (list (CVec m))) : M m (Ctl (Loop * list (list (CVec m)))) :=
      let (si, pn) := it in
      let (ls, hub) := st in
      let cur_L := cur_L ls + pn * pn in
      let ls' := mkLoop cur_L (f_hat ls) (next_token_map ls) [] [] in
      if entry_num <? Z.of_nat si then ret (Break (ls', hub))
      else if Z.of_nat si <? entry_num then ret (Next (ls', hub))
      else
        h <- backbone m (next_token_map ls) cond_gss (Some attn_bias) ;;
        let logits := head m h (cond_BD p) in
        '(ratio, logits_BlV) <- lift (cfg_entry_logits B cfg si pn cur_L logits) ;;
        idx <- sample_scales (sel p) B top_k top_p (fun _ => Ok ANone) logits_BlV
                             (entry_scales entry_num) 0 None ;;
        idx_Bl <- lift_opt UnboundLocalError idx ;;
        e <- embed_tokens (sel p) more_smooth idx_Bl logits_BlV ratio ;;
        '(f_hat, resid) <- accumulate (get_next_autoregressive_input m) B si pn e (f_hat ls) ;;
        if Z.of_nat si =? nsm1
        then ret (Next (mkLoop cur_L f_hat (next_token_map ls) [] [], hub))
        else
          tokens <- lift_opt RuntimeError (view_BlC m resid B) ;;
          hub' <- lift (cat1_pair hub tokens) ;;
          x <- embed_next cur_L si tokens ;;
          ret (Next (mkLoop cur_L f_hat x [] [], hub')).

Definition autoregressive_infer_cfg_mid (B : nat) (label_B : Label) (g_seed : option Z)
               (cfg : Qc) (top_k : Arg Z) (top_p : Qc) (more_smooth : bool)
               (draft : list (list (CVec m))) (f_hat0 : list (Canvas m)) (entry_num : Z)
      : M m (list (Canvas m) * list (list (CVec m))) :=
      p <- start B label_B g_seed ;;
      '(x, attn_bias) <- refine_input p draft entry_num ;;
      let cond_gss := map (shared_ada_lin m) (cond_BD p) in
      set_kv_caching m true ;;;
      st <- for_loop (mid_body p B cfg top_k top_p more_smooth entry_num cond_gss attn_bias)
                     (enumerate (patch_nums m)) (mkLoop 0 f_hat0 x [] [], draft) ;;
      set_kv_caching m false ;;;
      ret (f_hat (fst st), snd st).

    (** *** [autoregressive_infer_cfg_draft_beamsearch] (lines 1096-1293) *)

    (** [token_storage[i].append(x)] on the dict with keys
        [0 .. B*beamwidth**2 - 1]. *)
Definition storage_append {T} (i : nat) (x : T) (storage : list (list T))
      : Res (list (list T)) :=
      match nth_error storage i with
      | Some l => Ok (firstn i storage ++ [l ++ [x]] ++ skipn (S i) storage)
      | None => Raise KeyError
      end.

    (** [for batch_idx in range(B):]
        [token_storage[batch_idx].append(current_token_map[batch_idx:batch_idx+1])] *)
Fixpoint store_rows {T} (tm : list T) (idxs : list nat) (storage : list (list (list T)))
      : Res (list (list (list T))) :=
      match idxs with
      | [] => Ok storage
      | i :: r =>
          match storage_append i (slice tm (Z.of_nat i) (Z.of_nat i + 1)) storage with
          | Ok s => store_rows tm r s
          | Raise e => Raise e
          end
      end.

    (** Lines 1206-1210: the row of the selected beam of every group. *)
Fixpoint store_selected {T} (tm : list T) (beamwidth : nat) (best : list Z)
             (idxs : list nat) (storage : list (list (list T)))
      : Res (list (list (list T))) :=
      match idxs with
      | [] => Ok storage
      | i :: r =>
          match index best (Z.of_nat i) with
          | None => Raise IndexError
          | Some selected_beam =>
              let j := Z.of_nat i * Z.of_nat beamwidth + selected_beam in
              match storage_append i (slice tm j (j + 1)) storage with
              | Ok s => store_selected tm beamwidth best r s
              | Raise e => Raise e
              end
          end
      end.

    (** [top_k[si] if isinstance(top_k, (list, tuple)) else top_k] *)
Definition beam_top_k (top_k : Arg Z) (si : nat) : Res (Arg Z) :=
      match top_k with
      | ASeq _ => subscript top_k (Z.of_nat si)
      | _ => Ok top_k
      end.

    (** [scores = logits_BlV.max(dim=-1)[0].sum(dim=1)] *)
Definition beam_scores (logits_BlV : Logits) : list Qc :=
      map (fun row => qsum (map max_logit row)) logits_BlV.

    (** Lines 1181-1187: the best beam of every group of [beamwidth]
        rows, [original_B] and the rows selected. *)
Definition beam_select (B active_beams beamwidth : nat) (logits_BlV : Logits)
      : Res (list Z * nat * list Z) :=
      match view_rows beamwidth (beam_scores logits_BlV) with
      | Raise e => Raise e
      | Ok groups =>
          let best_beam_indices := map argmax groups in
          match active_beams with
          | O => Raise ZeroDivisionError
          | _ =>
              let original_B := Nat.div B active_beams in
              let base_indices :=
                map (fun i => Z.of_nat i * Z.of_nat beamwidth) (seq 0 original_B) in
              match zip_bc Z.add base_indices best_beam_indices with
              | Raise e => Raise e
              | Ok selected_indices => Ok (best_beam_indices, original_B, selected_indices)
              end
          end
      end.

    (** The variables of the beam-search loop. *)
Record Beam : Type := mkBeam {
      bm_cur_L : Z;
      bm_f_hat : list (Canvas m);
      bm_next_token_map : TokMap;
      bm_B : nat;
      bm_active_beams : nat;
      bm_cond_BD : list (Vec m);
      bm_cond_gss : list (Gss m);
      bm_token_storage : list (list (list (list (CVec m))))
    }.

    (** Lines 1150-1176: beams are forked, the batch grows by
        [beamwidth]. *)
Definition beam_expand (sel : bool) (top_k : Arg Z) (top_p : Qc) (temp : Arg Qc)
               (beamwidth : nat) (si : nat) (logits_BlV : Logits) (bs : Beam)
      : M m (list (list Z) * Beam) :=
      k <- lift (beam_top_k top_k si) ;;
      smp <- draw sel (fun r => sample_with_top_k_top_p_ m r logits_BlV k top_p beamwidth temp) ;;
      idx_Bl <- lift (view_n (bm_B bs * beamwidth) (concat (concat smp))) ;;
      current_token_map <- lift_opt RuntimeError (view_tokens m (bm_next_token_map bs) (bm_B bs)) ;;
      storage <- lift (store_rows current_token_map (seq 0 (bm_B bs)) (bm_token_storage bs)) ;;
      let bs' := mkBeam (bm_cur_L bs)
                        (tile beamwidth (bm_f_hat bs))
                        (bm_next_token_map bs)
                        (bm_B bs * beamwidth)
                        beamwidth
                        (repeat_interleave beamwidth (bm_cond_BD bs))
                        (repeat_interleave beamwidth (bm_cond_gss bs))
                        storage in
      update_blocks m (update_cache_for_beams m beamwidth) ;;;
      ret (idx_Bl, bs').

    (** Lines 1178-1237: beams are scored and pruned at the transition
        scale. *)
Definition beam_prune (sel : bool) (top_k : Arg Z) (top_p : Qc) (temp : Arg Qc)
               (beamwidth : nat) (si : nat) (logits_BlV : Logits) (bs : Beam)
      : M m (list (list Z) * Beam) :=
      '(best_beam_indices, original_B, selected_indices) <-
        lift (beam_select (bm_B bs) (bm_active_beams bs) beamwidth logits_BlV) ;;
      f_hat <- lift (index_select (bm_f_hat bs) selected_indices) ;;
      cond_gss <- lift (index_select (bm_cond_gss bs) selected_indices) ;;
      cond_BD <- lift (index_select (bm_cond_BD bs) selected_indices) ;;
      selected_logits <- lift (index_select logits_BlV selected_indices) ;;
      k <- lift (beam_top_k top_k si) ;;
      smp <- draw sel (fun r => sample_with_top_k_top_p_ m r selected_logits k top_p 1 temp) ;;
      idx_Bl <- lift (select0 smp) ;;
      current_token_map <- lift_opt RuntimeError (view_tokens m (bm_next_token_map bs) (bm_B bs)) ;;
      storage <- lift (store_selected current_token_map beamwidth best_beam_indices
                                      (seq 0 original_B) (bm_token_storage bs)) ;;
      let bs' := mkBeam (bm_cur_L bs) f_hat (bm_next_token_map bs) original_B 1
                        cond_BD cond_gss storage in
      update_blocks m (select_beam_cache m original_B beamwidth best_beam_indices) ;;;
      update_blocks m (double_beam_cache m) ;;;
      ret (idx_Bl, bs').

    (** Lines 1242-1254: one beam per item, as in the standard loop. *)
Definition beam_single (sel : bool) (top_k : Arg Z) (top_p : Qc) (temp : Arg Qc)
               (si : nat) (logits_BlV : Logits) (bs : Beam) : M m (list (list Z) * Beam) :=
      k <- lift (beam_top_k top_k si) ;;
      smp <- draw sel (fun r => sample_with_top_k_top_p_ m r logits_BlV k top_p 1 temp) ;;
      idx_Bl <- lift (select0 smp) ;;
      current_token_map <- lift_opt RuntimeError (view_tokens m (bm_next_token_map bs) (bm_B bs)) ;;
      storage <- lift (store_rows current_token_map (seq 0 (bm_B bs)) (bm_token_storage bs)) ;;
      ret (idx_Bl, mkBeam (bm_cur_L bs) (bm_f_hat bs) (bm_next_token_map bs) (bm_B bs)
                          (bm_active_beams bs) (bm_cond_BD bs) (bm_cond_gss bs) storage).

Definition beam_body (sel : bool) (cfg : Qc) (top_k : Arg Z) (top_p : Qc)
               (more_smooth : bool) (exit_num : Z) (temp : Arg Qc) (beamwidth : nat)
               (it : nat * Z) (bs : Beam) : M m (Ctl Beam) :=
      let (si, pn) := it in
      if Z.of_nat si =? exit_num then ret (Break bs)
      else
        ratio <- lift (ratio_of si) ;;
        let cur_L := bm_cur_L bs + pn * pn in
        h <- backbone m (bm_next_token_map bs) (bm_cond_gss bs) None ;;
        let t := (cfg * ratio)%Qc in
        logits_BlV <- lift (guided (bm_B bs) t (head m h (bm_cond_BD bs))) ;;
        '(idx_Bl, bs) <-
          (if (si <? 3)%nat then beam_expand sel top_k top_p temp beamwidth si logits_BlV bs
           else if (si =? 3)%nat then beam_prune sel top_k top_p temp beamwidth si logits_BlV bs
           else beam_single sel top_k top_p temp si logits_BlV bs) ;;
        e <- embed_tokens sel more_smooth idx_Bl logits_BlV ratio ;;
        '(f_hat, resid) <- accumulate (get_next_autoregressive_input m) (bm_B bs) si pn e
                                      (bm_f_hat bs) ;;
        tokens <- lift_opt RuntimeError (view_BlC m resid (bm_B bs)) ;;
        x <- embed_next cur_L si tokens ;;
        ret (Next (mkBeam cur_L f_hat x (bm_B bs) (bm_active_beams bs) (bm_cond_BD bs)
                          (bm_cond_gss bs) (bm_token_storage bs))).

    (** The [finally] clause (lines 1280-1284). *)
Definition disable_and_reset : M m unit :=
      fun st => (Ok tt, mkState m (rng st) (default_rng st)
                                (map (fun a => reset_cache (kv_caching false a)) (blocks st))).

    (** Lines 1286-1291: the token history of every remaining batch
        item. *)
Definition final_tokens (B : nat) (storage : list (list (list (list (CVec m)))))
      : Res (list (list (CVec m))) :=
      match map_res (fun i => match nth_error storage i with
                              | Some l => cat1 l
                              | None => Raise KeyError
                              end) (seq 0 B) with
      | Ok l => cat0 l
      | Raise e => Raise e
      end.

    (** The loop variables on entry (lines 1113-1130). *)
Definition beam_init (p : Start) (B beamwidth : nat) (f_hat0 : list (Canvas m)) : Beam :=
      mkBeam 0 f_hat0 (token_map0 p) B 1 (cond_BD p) (map (shared_ada_lin m) (cond_BD p))
             (repeat [] (B * beamwidth ^ 2)).

    (** The body of the [try] statement (lines 1133-1278). *)
Definition beam_try (sel : bool) (cfg : Qc) (top_k : Arg Z) (top_p : Qc)
               (more_smooth : bool) (exit_num : Z) (temp : Arg Qc) (beamwidth : nat)
               (init : Beam) : M m Beam :=
      for_loop (beam_body sel cfg top_k top_p more_smooth exit_num temp beamwidth)
               (enumerate (patch_nums m)) init.

Definition autoregressive_infer_cfg_draft_beamsearch (B : nat) (label_B : Label)
               (g_seed : option Z) (cfg : Qc) (top_k : Arg Z) (top_p : Qc) (more_smooth : bool)
               (exit_num : Z) (temp : Arg Qc) (beamwidth : nat)
      : M m (list (Canvas m) * list (list (CVec m))) :=
      p <- start B label_B g_seed ;;
      f_hat0 <- zero_canvas B ;;
      set_kv_caching m true ;;;
      bs <- try_finally
              (beam_try (sel p) cfg top_k top_p more_smooth exit_num temp beamwidth
                        (beam_init p B beamwidth f_hat0))
              disable_and_reset ;;
      token_hub <- lift (final_tokens (bm_B bs) (bm_token_storage bs)) ;;
      ret (bm_f_hat bs, token_hub).

    (** *** [compute_nll] (lines 398-496) *)

Definition qlt (a b : Qc) : bool :=
      match (a ?= b)%Qc with Lt => true | _ => false end.

    (** Lines 425-429:
        [torch.where(torch.rand(B) < self.cond_drop_rate, num_classes, label_B)];
        [u] are the numbers drawn by [torch.rand]. *)
Definition mask_labels (u : list Qc) (label_B : list Z) : Res (list Z) :=
      zip_bc (fun x l => if qlt x (cond_drop_rate m) then num_classes m else l) u label_B.

    (** [log_probs[batch_idxs, pos_idxs, target_tokens]] *)
Definition gather_row (B_idx : Z) (log_probs : Logits) (pos_idxs : list Z)
               (targets : list Z) : Res (list Qc) :=
      match zip_bc (fun j t => (j, t)) pos_idxs targets with
      | Raise e => Raise e
      | Ok l => map_res (fun jt =>
                           match index log_probs B_idx with
                           | None => Raise IndexError
                           | Some row =>
                               match index row (fst jt) with
                               | None => Raise IndexError
                               | Some v => match index v (snd jt) with
                                           | None => Raise IndexError
                                           | Some x => Ok x
                                           end
                               end
                           end) l
      end.

Definition gather (B : nat) (target_len : Z) (log_probs : Logits)
               (target_tokens : list (list Z)) : Res (list (list Qc)) :=
      let pos_idxs := map Z.of_nat (seq 0 (Z.to_nat target_len)) in
      match zip_bc (fun i t => (i, t)) (map Z.of_nat (seq 0 B)) target_tokens with
      | Raise e => Raise e
      | Ok l => map_res (fun it => gather_row (fst it) log_probs pos_idxs (snd it)) l
      end.

    (** [x.mean()]; the mean of no value is NaN in torch and is left
        as [0] here. *)
Definition mean (l : list Qc) : Qc := (qsum l / of_Z (len l))%Qc.

    (** The position and level slices added to an embedded block of
        tokens that starts at absolute position [b]. *)
Definition place (x : TokMap) (lo hi : Z) : Res TokMap :=
      match add_pos x (map (lvl_embed m) (slice (Schedule.lvl_1L (patch_nums m)) lo hi)) with
      | Raise e => Raise e
      | Ok y => add_pos y (slice (pos_1LC m) lo hi)
      end.

    (** Lines 430-495: the negative log-likelihood once the labels
        that condition the pass are fixed. *)
Definition nll_conditioned (label_B_masked : list Z)
               (prefix_tokens : list (list (CVec m))) (target_tokens : list (list Z))
               (scale_idx : Z) : M m Qc :=
      let B := length prefix_tokens in
      let cond_BD := map (class_emb m) label_B_masked in
      let prefix_embeddings := map (map (word_embed m)) prefix_tokens in
      let offset := Schedule.nll_offset (patch_nums m) scale_idx in
      let prefix_len := width prefix_embeddings in
      prefix_embeddings <- lift (place prefix_embeddings offset (offset + prefix_len)) ;;
      target_embeddings <- lift_opt RuntimeError (embed_target m target_tokens) ;;
      let prefix_len := width prefix_embeddings in
      let target_len := width target_embeddings in
      target_embeddings <-
        lift (place target_embeddings (offset + prefix_len) (offset + prefix_len + target_len)) ;;
      full_input <- lift (cat1_pair prefix_embeddings target_embeddings) ;;
      let n := width full_input in
      let attn_bias :=
        slice_pos (slice (Schedule.attn_bias_for_masking (patch_nums m)) 0 n) 0 n in
      let cond_gss := map (shared_ada_lin m) cond_BD in
      x <- backbone m full_input cond_gss (Some attn_bias) ;;
      let logits := head m x cond_BD in
      let target_len := width target_embeddings in
      let prefix_len := width prefix_embeddings in
      let relevant_logits := slice_pos logits prefix_len (prefix_len + target_len) in
      let log_probs := map (map (log_softmax m)) relevant_logits in
      chosen_log_probs <- lift (gather B target_len log_probs target_tokens) ;;
      ret (- mean (concat chosen_log_probs))%Qc.

    (** Lines 417-429 draw the numbers that decide which labels are
        dropped from torch's default generator; no argument seeds
        them. *)
Definition compute_nll (prefix_tokens : list (list (CVec m)))
               (target_tokens : list (list Z)) (label_B : list Z) (scale_idx : Z) : M m Qc :=
      let B := length prefix_tokens in
      u <- draw false (fun r => Some (rand m r B)) ;;
      label_B_masked <- lift (mask_labels u label_B) ;;
      nll_conditioned label_B_masked prefix_tokens target_tokens scale_idx.

End Calls.

Arguments resolve_label : clear implicits.
Arguments start_from : clear implicits.
Arguments start : clear implicits.
Arguments zero_canvas : clear implicits.
Arguments embed_tokens : clear implicits.
Arguments embed_next : clear implicits.
Arguments accumulate : clear implicits.
Arguments guided_sample : clear implicits.
Arguments infer_body : clear implicits.
Arguments infer_main : clear implicits.
Arguments autoregressive_infer_cfg : clear implicits.
Arguments autoregressive_infer_inpaint : clear implicits.
Arguments draft_body : clear implicits.
Arguments autoregressive_infer_cfg_draft : clear implicits.
Arguments autoregressive_inpaint_draft : clear implicits.
Arguments refine_input : clear implicits.
Arguments sample_scales : clear implicits.
Arguments later_scale : clear implicits.
Arguments finish_scale : clear implicits.
Arguments inpaint_refine_body : clear implicits.
Arguments autoregressive_inpaint_refine : clear implicits.
Arguments cfg_refine_body : clear implicits.
Arguments autoregressive_infer_cfg_refine : clear implicits.
Arguments mid_body : clear implicits.
Arguments autoregressive_infer_cfg_mid : clear implicits.
Arguments beam_expand : clear implicits.
Arguments beam_prune : clear implicits.
Arguments beam_single : clear implicits.
Arguments beam_body : clear implicits.
Arguments beam_init : clear implicits.
Arguments beam_try : clear implicits.
Arguments disable_and_reset : clear implicits.
Arguments autoregressive_infer_cfg_draft_beamsearch : clear implicits.
Arguments nll_conditioned : clear implicits.
Arguments compute_nll : clear implicits.

End Gen.

(** ** A small model instance

    Vectors are integers, the backbone blocks return their input and
    cache one entry per call, the head reads the conditioning of each
    row into its logits, and the generators are counters.  It serves to
    run the calls on concrete inputs. *)

Module Toy.

Import Py Tensor Var.

Definition toy_quant (pns : list Z) (si n : nat) (f_hat h : list Z)
    : option (list Z * list (list Z)) :=
    if Nat.eqb (length f_hat) (length h) then
      let f := zip_with Z.add f_hat h in
      let pn := if Nat.eqb (S si) n then nth si pns 0 else nth (S si) pns 0 in
      Some (f, map (fun c => repeat c (Z.to_nat (pn * pn))) f)
    else None.

Definition toy_reshape (e : list (list Z)) (B : nat) (pn : Z) : option (list Z) :=
    if Nat.eqb (length e) B && forallb (fun r => len r =? pn * pn) e
    then Some (map Py.sum e) else None.

Definition toy_head (x : list (list Z)) (cond : list Z) : Logits :=
    zip_with (fun row c => map (fun v => [of_Z c; of_Z v]) row) x cond.

Definition toy_sample (r : Z) (logits : Logits) (k : Arg Z) (top_p : Qc) (n : nat)
             (tmp : Arg Qc) : option (list (list (list Z)) * Z) :=
    Some (map (map (fun v => repeat (argmax v) n)) logits, r + 1).

Definition toy_rand (r : Z) (n : nat) : list Qc * Z :=
    (repeat (if Z.even r then 0%Qc else Q2Qc (3 # 4)) n, r + 1).

  (** The model over a generator type [R] and its five operations. *)
Definition make (R : Type) (seed : Z -> R)
             (multi : R -> Z -> nat -> list Z * R)
             (rnd : R -> nat -> list Qc * R)
             (smp : R -> Logits -> Arg Z -> Qc -> nat -> Arg Qc
                    -> option (list (list (list Z)) * R))
             (gum : R -> Logits -> Qc -> option (Logits * R))
             (pns : list Z) (rate : Qc) : Ops :=
    {| Rng := R; Vec := Z; CVec := Z; Gss := Z; KV := unit; Canvas := Z; HMap := Z;
       Resid := list Z; Img := list Z; Mask := unit; Ref := unit;
       patch_nums := pns;
       num_classes := 10;
       cond_drop_rate := rate;
       manual_seed := seed;
       multinomial := multi;
       rand := rnd;
       sample_with_top_k_top_p_ := smp;
       gumbel_softmax_with_rng := gum;
       class_emb := fun z => z;
       pos_start := repeat 0 (Z.to_nat (Schedule.sq (hd 0 pns)));
       pos_1LC := repeat 0 (Z.to_nat (Schedule.L pns));
       lvl_embed := fun z => z;
       word_embed := fun c => c;
       vadd := Z.add;
       shared_ada_lin := fun v => v;
       kv_of := fun _ _ _ => tt;
       attend := fun _ _ x _ _ => Some x;
       update_cache_for_beams := fun _ a => Some a;
       select_beam_cache := fun _ _ _ a => Some a;
       double_beam_cache := fun a => Some a;
       head := toy_head;
       log_softmax := fun v => v;
       vq_embedding := fun z => z;
       codebook_matmul := fun w => map (map (fun _ => 0)) w;
       embed_target := fun t => Some t;
       reshape_BChw := toy_reshape;
       get_next_autoregressive_input := toy_quant pns;
       get_next_autoregressive_input_inpaint := fun si n f h _ _ _ => toy_quant pns si n f h;
       view_BlC := fun resid B => if Nat.eqb (length resid) B then Some resid else None;
       view_tokens := fun x B => if (B <=? length x)%nat then Some (firstn B x) else None;
       new_zeros := fun _ => 0;
       fhat_to_img := fun f => f;
       denormalize := fun i => i;
       interpolate := fun k _ => k |}.

  (** Generators that are counters. *)
Definition model (pns : list Z) (rate : Qc) : Ops :=
    make (fun g => g)
         (fun r nc B => (repeat (r mod nc) B, r + 1))
         toy_rand toy_sample
         (fun r logits tau => Some (logits, r + 1))
         pns rate.

  (** Generators that record, in order, every logits tensor handed to
      the sampler: after a run the generator in use holds the list of
      the logits that tokens were sampled from. *)
Definition tracing (pns : list Z) : Ops :=
    make (fun _ => [])
         (fun (r : list Logits) nc B => (repeat 0 B, r))
         (fun r n => (repeat 0%Qc n, r))
         (fun r logits k top_p n tmp =>
            Some (map (map (fun v => repeat (argmax v) n)) logits, r ++ [logits]))
         (fun r logits tau => Some (logits, r))
         pns 0%Qc.

  (** The schedule [(1, 2, 3)] of the spec's concrete scenario and a
      five-scale one that reaches the transition scale of the beam
      search. *)
Definition m3 : Ops := model [1; 2; 3] (Q2Qc (1 # 2)).
Definition m5 : Ops := model [1; 2; 3; 4; 5] (Q2Qc (1 # 2)).

Definition t3 : Ops := tracing [1; 2; 3].

  (** The same with every label dropped: [cond_drop_rate = 1]. *)
Definition m5_drop_all : Ops := model [1; 2; 3; 4; 5] 1%Qc.

  (** Arguments of [compute_nll]: the four tokens of scale 1 as prefix,
      nine target tokens, one sample of class 3, [scale_idx = 2]. *)
Definition nll_prefix : list (list Z) := [[0; 0; 0; 0]].
Definition nll_target : list (list Z) := [[0; 1; 0; 1; 0; 1; 0; 1; 0]].

  (** Two blocks, caching disabled, nothing cached. *)
Definition fresh (m : Ops) (r d : Rng m) : State m :=
    mkState m r d [mkAttn false []; mkAttn false []].

  (** The arguments of the concrete runs: guidance 1.5, the per-scale
      [top_k] and [temp] of a three-scale schedule. *)
Definition cfg15 : Qc := Q2Qc (3 # 2).
Definition top_k3 : Arg Z := ASeq [0; 0; 0].
Definition temp3 : Arg Qc := ASeq [1%Qc; 1%Qc; 1%Qc].

End Toy.

(** ** Predicates on runs *)

Module Props.

Import Py Tensor Var.

  (** Every block reports caching disabled and an empty cache. *)
Definition clean {KV} (bs : list (Attn KV)) : Prop :=
    Forall (fun a => caching a = false /\ cached a = []) bs.

  (** Every block has caching enabled. *)
Definition all_caching {KV} (bs : list (Attn KV)) : Prop :=
    Forall (fun a => caching a = true) bs.

Section Runs.

Variable m : Ops.

    (** Whenever [c] returns normally, the blocks are left clean. *)
Definition returns_clean {A} (c : M m A) : Prop :=
      forall st a st', c st = (Ok a, st') -> clean (blocks st').

    (** Whatever [c] does, the blocks are left clean. *)
Definition leaves_clean {A} (c : M m A) : Prop :=
      forall st, clean (blocks (snd (c st))).

    (** Clean blocks stay clean through [c], whatever its outcome. *)
Definition preserves_clean {A} (c : M m A) : Prop :=
      forall st, clean (blocks st) -> clean (blocks (snd (c st))).

    (** [c] does not touch the blocks. *)
Definition keeps_blocks {A} (c : M m A) : Prop :=
      forall st, blocks (snd (c st)) = blocks st.

    (** The values [c] can return satisfy [R]. *)
Definition yields {A} (c : M m A) (R : A -> Prop) : Prop :=
      forall st a st', c st = (Ok a, st') -> R a.

    (** Two states that agree on [self.rng] and on the blocks; torch's
        default generator is free. *)
Definition low_eq (st st' : State m) : Prop :=
      rng st = rng st' /\ blocks st = blocks st'.

    (** [c] neither reads nor writes the default generator. *)
Definition seeded {A} (c : M m A) : Prop :=
      forall st st', low_eq st st' ->
                     fst (c st) = fst (c st') /\ low_eq (snd (c st)) (snd (c st')).

    (** The refine pass as the spec words it: "sample tokens for every
        scale up to and including [entry_num] from the corrected
        logits".  One sampler call per pair of a scale [a] and the
        logits of that scale, with [top_k[a]] and the temperature of
        scale [a]; the result of the last call is kept. *)
Fixpoint sample_each (sel : bool) (top_k : Arg Z) (top_p : Qc)
             (tmp_of : Z -> Res (Arg Qc)) (xs : list (nat * Logits))
             (idx_Bl : option (list (list Z))) : M m (option (list (list Z))) :=
      match xs with
      | [] => ret idx_Bl
      | (a, x) :: r =>
          bind (lift (subscript top_k (Z.of_nat a))) (fun k =>
          bind (lift (tmp_of (Z.of_nat a))) (fun tmp =>
          bind (draw sel (fun g => sample_with_top_k_top_p_ m g x k top_p 1 tmp)) (fun smp =>
          bind (lift (select0 smp)) (fun i =>
          sample_each sel top_k top_p tmp_of r (Some i)))))
      end.

    (** The logits of scale [a] in a tensor laid out along the
        schedule: rows [:B], positions [offset[a] : offset[a+1]]. *)
Definition scale_logits (B : nat) (logits : Logits) (a : nat) : Logits :=
      slice_pos (slice_to logits (Z.of_nat B))
                (Schedule.offset (patch_nums m) a) (Schedule.offset (patch_nums m) (S a)).

    (** A call whose outcome, once a seed is given, depends on the
        state of the model only through the blocks: neither generator's
        earlier state matters. *)
Definition seed_determined {A} (f : option Z -> M m A) : Prop :=
      forall (g : Z) (st st' : State m),
        blocks st = blocks st' -> fst (f (Some g) st) = fst (f (Some g) st').

End Runs.

Arguments sample_each : clear implicits.

  (** [torch.rand] returns as many numbers as asked, each in [0, 1). *)
Definition rand_ok (m : Ops) : Prop :=
    forall (r : Rng m) (n : nat),
      length (fst (rand m r n)) = n
      /\ Forall (fun u => (0 <= u)%Qc /\ (u < 1)%Qc) (fst (rand m r n)).

  (** Two logits tensors of the same shape. *)
Definition same_shape (a b : Logits) : Prop :=
    Forall2 (Forall2 (fun x y : list Qc => length x = length y)) a b.

  (** [t[b, p, v]] for indices in range. *)
Definition entry (t : Logits) (b p v : nat) : option Qc :=
    match nth_error t b with
    | None => None
    | Some row => match nth_error row p with
                  | None => None
                  | Some vec => nth_error vec v
                  end
    end.

End Props.

(** ** [SharedAdaLin] and the training pass [VAR.forward] *)

Module Train.

Import Py Tensor Var Gen.
Local Open Scope var_scope.

  (** [SharedAdaLin.forward] (lines 16-19):
      [C = self.weight.shape[0] // 6] and
      [super().forward(cond_BD).view(-1, 1, 6, C)].  [linear_out] is the
      output of the linear layer, one row of [weight.shape[0]] entries per
      sample; the view regroups its entries, taken in memory order, into
      blocks of [6 * C], each split into 6 groups of [C].  A view whose
      fixed dimensions multiply to 0, or do not divide the number of
      entries, is refused. *)
Definition SharedAdaLin_forward {A} (weight_shape0 : Z) (linear_out : list (list A))
    : Res (list (list (list (list A)))) :=
    let C := weight_shape0 / 6 in
    let flat := concat linear_out in
    if 6 * C <=? 0 then Raise RuntimeError
    else if len flat mod (6 * C) =? 0
         then Ok (map (fun blk => [chunks_fuel (length blk) (Z.to_nat C) blk])
                      (chunks_fuel (length flat) (Z.to_nat (6 * C)) flat))
         else Raise RuntimeError.

Section Forward.

Variable m : Ops.

    (** Lines 247-249: with [prog_si == 0] the entry [x_BLC[0, 0, 0]] is
        read and written back with a zero added; the tensor must have
        that entry. *)
Definition touch_first (logits : Logits) : Res Logits :=
      match logits with
      | ((_ :: _) :: _) :: _ => Ok logits
      | _ => Raise IndexError
      end.

    (** Lines 221-256 of [forward]: the teacher-forcing pass once the
        labels that condition it are fixed.  The batch holds at least
        one sample wherever a shape is compared. *)
Definition forward_conditioned (prog_si : Z) (label_B : list Z)
               (x_BLCv_wo_first_l : list (list (CVec m))) (mask_l : Z) : M m Logits :=
      let B := length x_BLCv_wo_first_l in
      let cond_BD := map (class_emb m) label_B in
      fl <- lift_opt IndexError (Schedule.first_l (patch_nums m)) ;;
      sos <- lift (expand_rows B (Z.to_nat fl) cond_BD) ;;
      sos <- lift (add_pos m sos (pos_start m)) ;;
      x_BLC <- (if prog_si =? 0 then ret sos
                else lift (cat1_pair sos (map (map (word_embed m)) x_BLCv_wo_first_l))) ;;
      x_BLC <- lift (place m (slice_pos x_BLC 0 mask_l) 0 mask_l) ;;
      let attn_bias :=
        slice_pos (slice (Schedule.attn_bias_for_masking (patch_nums m)) 0 mask_l) 0 mask_l in
      let cond_BD_or_gss := map (shared_ada_lin m) cond_BD in
      x_BLC <- backbone m x_BLC cond_BD_or_gss (Some attn_bias) ;;
      let logits := head m x_BLC cond_BD in
      if prog_si =? 0 then lift (touch_first logits) else ret logits.

    (** [forward] (lines 210-256), the teacher-forcing pass of training.
        [prog_si] is the attribute [self.prog_si]; line 216 reads
        [self.begin_ends[self.prog_si]] when it is not negative, and
        line 220 draws, from torch's default generator, the numbers that
        decide which labels are dropped. *)
Definition forward (prog_si : Z) (label_B : list Z)
               (x_BLCv_wo_first_l : list (list (CVec m))) (mask_l : Z) : M m Logits :=
      (if 0 <=? prog_si
       then lift_opt IndexError (index (Schedule.begin_ends (patch_nums m)) prog_si)
       else ret (0, Schedule.L (patch_nums m))) ;;;
      let B := length x_BLCv_wo_first_l in
      u <- draw false (fun r => Some (rand m r B)) ;;
      label_B <- lift (mask_labels m u label_B) ;;
      forward_conditioned prog_si label_B x_BLCv_wo_first_l mask_l.

End Forward.

Arguments forward_conditioned : clear implicits.
Arguments forward : clear implicits.

End Train.

(** ** Predicates on the generators and on the scores of the beams *)

Module Frame.

Import Py Tensor Var Gen.

Section Runs.

Variable m : Ops.

    (** The generator a call does not sample from: torch's default
        generator when it samples from [self.rng] ([sel]), [self.rng]
        otherwise. *)
Definition untouched (sel : bool) (st st' : State m) : Prop :=
      if sel then default_rng st' = default_rng st else rng st' = rng st.

    (** [c] leaves that generator as it found it, whatever its
        outcome. *)
Definition spares {A} (sel : bool) (c : M m A) : Prop :=
      forall st, untouched sel st (snd (c st)).

End Runs.

End Frame.

(** ** More model instances for concrete runs *)

Module Cases.

Import Py Tensor Var.

  (** A schedule of a single scale, and the default schedule of the
      constructor. *)
Definition m1 : Ops := Toy.model [2] (Q2Qc (1 # 2)).
Definition m10 : Ops := Toy.model Schedule.default_patch_nums (Q2Qc (1 # 2)).

  (** A model with another [log_softmax], everything else kept. *)
Definition with_log_softmax (m : Ops) (f : list Qc -> list Qc) : Ops :=
    {| Rng := Rng m; Vec := Vec m; CVec := CVec m; Gss := Gss m; KV := KV m;
       Canvas := Canvas m; HMap := HMap m; Resid := Resid m; Img := Img m; Mask := Mask m;
       Ref := Ref m;
       patch_nums := patch_nums m;
       num_classes := num_classes m;
       cond_drop_rate := cond_drop_rate m;
       manual_seed := manual_seed m;
       multinomial := multinomial m;
       rand := rand m;
       sample_with_top_k_top_p_ := sample_with_top_k_top_p_ m;
       gumbel_softmax_with_rng := gumbel_softmax_with_rng m;
       class_emb := class_emb m;
       pos_start := pos_start m;
       pos_1LC := pos_1LC m;
       lvl_embed := lvl_embed m;
       word_embed := word_embed m;
       vadd := vadd m;
       shared_ada_lin := shared_ada_lin m;
       kv_of := kv_of m;
       attend := attend m;
       update_cache_for_beams := update_cache_for_beams m;
       select_beam_cache := select_beam_cache m;
       double_beam_cache := double_beam_cache m;
       head := head m;
       log_softmax := f;
       vq_embedding := vq_embedding m;
       codebook_matmul := codebook_matmul m;
       embed_target := embed_target m;
       reshape_BChw := reshape_BChw m;
       get_next_autoregressive_input := get_next_autoregressive_input m;
       get_next_autoregressive_input_inpaint := get_next_autoregressive_input_inpaint m;
       view_BlC := view_BlC m;
       view_tokens := view_tokens m;
       new_zeros := new_zeros m;
       fhat_to_img := fhat_to_img m;
       denormalize := denormalize m;
       interpolate := interpolate m |}.

  (** Five scales and log-probabilities: every class has probability
      one half of the largest, whatever the logits. *)
Definition m5_logp : Ops :=
    with_log_softmax Toy.m5 (map (fun _ => Q2Qc (-1 # 2))).

End Cases.

(** * Properties *)

Module SchedulePf.

Import Py Schedule.

Lemma sum_acc (l : list Z) (a : Z) : fold_left Z.add l a = a + Py.sum l.
  Proof.
    unfold Py.sum. revert a.
    induction l as [|x l IH]; intros a; simpl.
    - lia.
    - rewrite (IH (a + x)), (IH x). lia.
  Qed.

Lemma sum_cons (x : Z) (l : list Z) : Py.sum (x :: l) = x + Py.sum l.
  Proof. unfold Py.sum at 1. simpl. apply sum_acc. Qed.

Lemma sum_app (l r : list Z) : Py.sum (l ++ r) = Py.sum l + Py.sum r.
  Proof.
    induction l as [|x l IH]; simpl.
    - reflexivity.
    - rewrite !sum_cons, IH. lia.
  Qed.

Lemma offset_0 (pns : list Z) : offset pns 0 = 0.
  Proof. reflexivity. Qed.

Lemma offset_cons (pn : Z) (pns : list Z) (s : nat) :
    offset (pn :: pns) (S s) = sq pn + offset pns s.
  Proof. unfold offset. simpl. apply sum_cons. Qed.

Lemma offset_all (pns : list Z) : offset pns (length pns) = L pns.
  Proof. unfold offset, L. now rewrite firstn_all. Qed.

Lemma offset_succ (pns : list Z) (s : nat) (pn : Z) :
    nth_error pns s = Some pn -> offset pns (S s) = offset pns s + sq pn.
  Proof.
    revert s. induction pns as [|a r IH]; intros [|s] H; simpl in H; try discriminate.
    - injection H as ->. rewrite offset_cons, !offset_0. lia.
    - rewrite !offset_cons, (IH s H). lia.
  Qed.

Lemma sq_pos (pn : Z) : 0 < pn -> 0 < sq pn.
  Proof. unfold sq. intros H. nia. Qed.

Lemma sq_nonneg (pn : Z) : 0 <= sq pn.
  Proof. unfold sq. nia. Qed.

Lemma offset_le (pns : list Z) (s t : nat) :
    (s <= t)%nat -> offset pns s <= offset pns t.
  Proof.
    revert s t. induction pns as [|a r IH]; intros s t Hst.
    - unfold offset. rewrite !firstn_nil. lia.
    - destruct s as [|s], t as [|t]; try lia.
      + rewrite offset_cons, offset_0.
        pose proof (sq_nonneg a). pose proof (IH 0%nat t ltac:(lia)).
        rewrite offset_0 in *. lia.
      + rewrite !offset_cons. pose proof (IH s t ltac:(lia)). lia.
  Qed.

Lemma offset_lt (pns : list Z) (s : nat) :
    Forall (fun pn => 0 < pn) pns -> (s < length pns)%nat ->
    offset pns s < offset pns (S s).
  Proof.
    intros Hpos Hs.
    destruct (nth_error pns s) as [pn|] eqn:E.
    - rewrite (offset_succ _ _ E).
      assert (0 < pn).
      { rewrite Forall_forall in Hpos. apply Hpos. eapply nth_error_In; eauto. }
      pose proof (sq_pos H). lia.
    - apply nth_error_None in E. lia.
  Qed.

Lemma fold_begin_ends (pns : list Z) (be : list (Z * Z)) (cur : Z) :
    fold_left begin_ends_step pns (be, cur) =
    (be ++ map (fun s => (cur + offset pns s, cur + offset pns (S s))) (seq 0 (length pns)),
     cur + L pns).
  Proof.
    revert be cur. induction pns as [|a r IH]; intros be cur.
    - simpl. rewrite app_nil_r. unfold L. simpl. f_equal. unfold Py.sum. simpl. lia.
    - cbn [fold_left begin_ends_step]. rewrite IH. f_equal.
      + rewrite <- app_assoc. f_equal. cbn [length seq map app].
        rewrite offset_0, offset_cons, offset_0. f_equal.
        * f_equal; lia.
        * rewrite <- seq_shift, map_map. apply map_ext. intros s.
          rewrite !offset_cons. f_equal; lia.
      + unfold L. cbn [map]. rewrite sum_cons. lia.
  Qed.

Lemma begin_ends_spec (pns : list Z) :
    begin_ends pns = map (fun s => (offset pns s, offset pns (S s))) (seq 0 (length pns)).
  Proof. unfold begin_ends. rewrite fold_begin_ends. reflexivity. Qed.

Lemma nth_error_seq0 (n s : nat) :
    nth_error (seq 0 n) s = if (s <? n)%nat then Some s else None.
  Proof.
    destruct (Nat.ltb_spec s n) as [H|H].
    - rewrite (nth_error_nth' _ 0%nat) by (now rewrite length_seq).
      now rewrite seq_nth.
    - apply nth_error_None. now rewrite length_seq.
  Qed.

Lemma begin_ends_nth (pns : list Z) (s : nat) (b e : Z) :
    nth_error (begin_ends pns) s = Some (b, e) <->
    (s < length pns)%nat /\ b = offset pns s /\ e = offset pns (S s).
  Proof.
    rewrite begin_ends_spec, nth_error_map, nth_error_seq0.
    destruct (Nat.ltb_spec s (length pns)) as [H|H]; simpl; split.
    - intros [= <- <-]. auto.
    - intros (_ & -> & ->). reflexivity.
    - discriminate.
    - lia.
  Qed.

Lemma sum_block_lengths (pns : list Z) :
    Py.sum (map (fun be => snd be - fst be) (begin_ends pns)) = L pns.
  Proof.
    rewrite begin_ends_spec, map_map. cbn [fst snd].
    rewrite <- offset_all.
    induction (length pns) as [|n IH].
    - reflexivity.
    - rewrite seq_S, map_app, sum_app, IH. cbn [map Nat.add]. rewrite sum_cons.
      change (Py.sum []) with 0. lia.
  Qed.

Lemma block_of_position (pns : list Z) (x : Z) (n : nat) :
    0 <= x < offset pns n ->
    exists s, (s < n)%nat /\ offset pns s <= x < offset pns (S s).
  Proof.
    induction n as [|n IH]; intros H.
    - rewrite offset_0 in H. lia.
    - destruct (Z_lt_le_dec x (offset pns n)) as [Hlt|Hge].
      + destruct IH as (s & Hs & Hx); [lia|]. exists s. split; [lia|exact Hx].
      + exists n. split; [lia|lia].
  Qed.

  (** C6.  For every list of positive side lengths, the blocks of
      [begin_ends] partition [0, L) into as many contiguous blocks as
      there are scales: block [s] starts at [offset[s]], where block
      [s-1] ended, has length [patch_nums[s] ** 2] and is not empty,
      the first starts at 0, the last ends at [L], the lengths add up
      to [L], and every position below [L] lies in exactly one
      block. *)
Theorem begin_ends_partition (patch_nums : list Z)
          (Hpos : Forall (fun pn => 0 < pn) patch_nums) :
    let be := begin_ends patch_nums in
    length be = length patch_nums
    /\ (forall s b e, nth_error be s = Some (b, e) ->
          exists pn, nth_error patch_nums s = Some pn
                     /\ e - b = pn ^ 2 /\ b = offset patch_nums s /\ b < e)
    /\ (forall s b e b' e', nth_error be s = Some (b, e) ->
          nth_error be (S s) = Some (b', e') -> b' = e)
    /\ (forall b e, nth_error be 0 = Some (b, e) -> b = 0)
    /\ (forall b e, nth_error be (length patch_nums - 1) = Some (b, e) -> e = L patch_nums)
    /\ Py.sum (map (fun p => snd p - fst p) be) = L patch_nums
    /\ (forall x, 0 <= x < L patch_nums ->
          exists s b e, nth_error be s = Some (b, e) /\ b <= x < e)
    /\ (forall x s s' b e b' e', nth_error be s = Some (b, e) ->
          nth_error be s' = Some (b', e') -> b <= x < e -> b' <= x < e' -> s = s').
  Proof.
    intros be. subst be. repeat split.
    - rewrite begin_ends_spec, length_map, length_seq. reflexivity.
    - intros s b e H. apply begin_ends_nth in H. destruct H as (Hs & -> & ->).
      destruct (nth_error patch_nums s) as [pn|] eqn:E.
      + exists pn. rewrite (offset_succ _ _ E). unfold sq.
        pose proof (offset_lt Hpos Hs) as Hlt. rewrite (offset_succ _ _ E) in Hlt.
        unfold sq in Hlt. repeat split; lia.
      + apply nth_error_None in E. lia.
    - intros s b e b' e' H H'.
      apply begin_ends_nth in H. apply begin_ends_nth in H'.
      destruct H as (_ & _ & ->). destruct H' as (_ & -> & _). reflexivity.
    - intros b e H. apply begin_ends_nth in H. destruct H as (_ & -> & _). reflexivity.
    - intros b e H. apply begin_ends_nth in H. destruct H as (Hs & _ & ->).
      replace (S (length patch_nums - 1)) with (length patch_nums) by lia.
      apply offset_all.
    - apply sum_block_lengths.
    - intros x Hx. rewrite <- offset_all in Hx.
      destruct (block_of_position _ _ Hx) as (s & Hs & Hb).
      exists s, (offset patch_nums s), (offset patch_nums (S s)). split; [|exact Hb].
      apply begin_ends_nth. auto.
    - intros x s s' b e b' e' H H' Hx Hx'.
      apply begin_ends_nth in H. apply begin_ends_nth in H'.
      destruct H as (Hs & -> & ->). destruct H' as (Hs' & -> & ->).
      destruct (Nat.lt_trichotomy s s') as [Hlt|[Heq|Hgt]]; [|exact Heq|].
      + pose proof (offset_le patch_nums (s := S s) (t := s') ltac:(lia)). lia.
      + pose proof (offset_le patch_nums (s := S s') (t := s) ltac:(lia)). lia.
  Qed.

Lemma begin_ends_partition_witness :
    Forall (fun pn => 0 < pn) default_patch_nums
    /\ begin_ends default_patch_nums =
       [(0, 1); (1, 5); (5, 14); (14, 30); (30, 55); (55, 91); (91, 155); (155, 255);
        (255, 424); (424, 680)]
    /\ Py.sum (map (fun p => snd p - fst p) (begin_ends default_patch_nums)) = 680.
  Proof.
    assert (H : Forall (fun pn => 0 < pn) default_patch_nums)
      by (unfold default_patch_nums; repeat constructor).
    split; [exact H|]. split; [reflexivity|].
    destruct (begin_ends_partition H) as (_ & _ & _ & _ & _ & Hsum & _).
    exact Hsum.
  Defined.

End SchedulePf.

Module TablePf.

Import Py Tensor Var Gen Toy Schedule SchedulePf.

Lemma offset_firstn (pns qns : list Z) (s : nat) :
    firstn s pns = firstn s qns -> offset pns s = offset qns s.
  Proof. unfold offset. now intros ->. Qed.

Lemma index_none_iff {A} (l : list A) (i : Z) :
    index l i = None <-> i < - len l \/ len l <= i.
  Proof.
    unfold index, len.
    destruct (Z.leb_spec 0 i) as [H0|H0], (Z.ltb_spec i (Z.of_nat (length l))) as [H1|H1];
      cbn [andb].
    - split; [|lia]. intros H. apply nth_error_None in H. lia.
    - destruct (Z.leb_spec (- Z.of_nat (length l)) i), (Z.ltb_spec i 0); cbn [andb];
        split; auto; lia.
    - destruct (Z.leb_spec (- Z.of_nat (length l)) i) as [H2|H2], (Z.ltb_spec i 0) as [H3|H3];
        cbn [andb]; try (split; auto; lia).
      split; [|lia]. intros H. apply nth_error_None in H. lia.
    - lia.
  Qed.

  (** C4, the claim as stated fails.  On the schedule (1, 2, 4) the
      re-entry index 2 is valid, the table gives 14 and the schedule's
      boundary is [offset[3] = 21].  And an index the schedule does not
      have is not refused: on the schedule (1, 2, 3) the refine pass
      called with [entry_num = 5] reads 91 from the table, skips every
      scale and returns the image of the canvas it was given. *)
Lemma pindex_differs_from_offset :
    Forall (fun pn => 0 < pn) [1; 2; 4]
    /\ pindex 2 = Some 14
    /\ offset [1; 2; 4] 3 = 21
    /\ pindex 5 = Some 91
    /\ fst (autoregressive_infer_cfg_refine
              m3 1 (LabelInt 0) None (Q2Qc (3 # 2)) (ASeq [0; 0; 0]) 0%Qc false
              [[0; 0; 0; 0; 4; 4; 4; 4; 4; 4; 4; 4; 4]] [4] 5
              (ASeq [1%Qc; 1%Qc; 1%Qc]) (fresh m3 0 0)) = Ok [4]
    /\ ~ (forall (patch_nums : list Z) (entry_num : nat),
            Forall (fun pn => 0 < pn) patch_nums ->
            (entry_num < length patch_nums)%nat ->
            pindex (Z.of_nat entry_num) = Some (offset patch_nums (S entry_num))).
  Proof.
    split; [repeat constructor|]. split; [reflexivity|]. split; [reflexivity|].
    split; [reflexivity|]. split; [vm_compute; reflexivity|].
    intros H.
    specialize (H [1; 2; 4] 2%nat ltac:(repeat constructor) ltac:(simpl; lia)).
    discriminate H.
  Qed.

  (** C4, amended.  The table is the one of the default schedule: for
      a schedule whose first [entry_num + 1] side lengths are those of
      (1, 2, 3, 4, 5, 6, 8, 10, 13, 16) and [0 <= entry_num < 10], the
      entry selected equals [offset[entry_num + 1]].  The lookup does
      not consult the schedule; it raises (no entry) exactly for an
      index below -10 or above 9. *)
Theorem pindex_default_schedule (patch_nums : list Z) (entry_num : nat)
          (Hentry : (entry_num < 10)%nat)
          (Hprefix : firstn (S entry_num) patch_nums
                     = firstn (S entry_num) default_patch_nums) :
    pindex (Z.of_nat entry_num) = Some (offset patch_nums (S entry_num))
    /\ forall i : Z, pindex i = None <-> i < -10 \/ 10 <= i.
  Proof.
    split.
    - rewrite (offset_firstn _ _ _ Hprefix).
      do 10 (destruct entry_num as [|entry_num]; [reflexivity|]). lia.
    - intros i. unfold pindex. rewrite index_none_iff. reflexivity.
  Qed.

Lemma pindex_default_schedule_witness :
    pindex 9 = Some (offset default_patch_nums 10)
    /\ offset default_patch_nums 10 = 680.
  Proof.
    split; [|reflexivity].
    exact (proj1 (@pindex_default_schedule default_patch_nums 9 ltac:(lia) eq_refl)).
  Defined.

  (** C9.  [compute_nll] starts the prefix slices at the square of the
      sum of the earlier side lengths: for [scale_idx = 2] on the
      default schedule at position 9, while scale 2 starts at
      [offset[2] = 1 + 4 = 5]. *)
Theorem nll_offset_square_of_sum :
    nll_offset default_patch_nums 2 = 9
    /\ offset default_patch_nums 2 = 5
    /\ nth_error (begin_ends default_patch_nums) 2 = Some (5, 14).
  Proof. repeat split; reflexivity. Qed.

End TablePf.

(** ** The cache discipline of the generation calls *)

Module CachePf.

Import Py Tensor Var Gen Props Toy.
Local Open Scope var_scope.

Lemma clean_disabled {KV} (bs : list (Attn KV)) : clean (map (kv_caching false) bs).
  Proof. unfold clean. rewrite Forall_map. apply Forall_forall. intros a _. now split. Qed.

Lemma clean_reset {KV} (bs : list (Attn KV)) :
    clean (map (fun a => reset_cache (kv_caching false a)) bs).
  Proof. unfold clean. rewrite Forall_map. apply Forall_forall. intros a _. now split. Qed.

Section WithModel.

Variable m : Ops.

Lemma returns_clean_bind {A B} (c : M m A) (k : A -> M m B) :
      (forall a, returns_clean (k a)) -> returns_clean (bind c k).
    Proof.
      intros H st b st' E. unfold bind in E.
      destruct (c st) as [[a|e] st1]; [|discriminate].
      eapply H; eauto.
    Qed.

Lemma returns_clean_disable {A} (x : A) :
      returns_clean (set_kv_caching m false ;;; ret x).
    Proof.
      intros st a st' E. cbv [bind set_kv_caching ret] in E.
      injection E as _ <-. apply clean_disabled.
    Qed.

Ltac peel :=
      repeat first
        [ apply returns_clean_disable
        | apply returns_clean_bind; intros
        | match goal with |- returns_clean (let (_, _) := ?p in _) => destruct p end ].

Lemma infer_cfg_returns_clean B label_B g_seed cfg top_k top_p more_smooth :
      returns_clean (autoregressive_infer_cfg m B label_B g_seed cfg top_k top_p more_smooth).
    Proof. unfold autoregressive_infer_cfg, infer_main. peel. Qed.

Lemma infer_inpaint_returns_clean B label_B g_seed cfg top_k top_p more_smooth
          f_hats mask_in mask_out :
      returns_clean (autoregressive_infer_inpaint m B label_B g_seed cfg top_k top_p
                                                  more_smooth f_hats mask_in mask_out).
    Proof. unfold autoregressive_infer_inpaint. peel. Qed.

Lemma cfg_draft_returns_clean B label_B g_seed cfg top_k top_p more_smooth exit_num temp :
      returns_clean (autoregressive_infer_cfg_draft m B label_B g_seed cfg top_k top_p
                                                    more_smooth exit_num temp).
    Proof. unfold autoregressive_infer_cfg_draft. peel. Qed.

Lemma inpaint_draft_returns_clean B label_B g_seed cfg top_k top_p more_smooth exit_num
          f_hats mask_in mask_out temp :
      returns_clean (autoregressive_inpaint_draft m B label_B g_seed cfg top_k top_p
                                                  more_smooth exit_num f_hats mask_in mask_out
                                                  temp).
    Proof. unfold autoregressive_inpaint_draft. peel. Qed.

Lemma inpaint_refine_returns_clean B label_B g_seed cfg top_k top_p more_smooth draft f_hat0
          logits_hub entry_num f_hats mask_in mask_out temp :
      returns_clean (autoregressive_inpaint_refine m B label_B g_seed cfg top_k top_p
                                                   more_smooth draft f_hat0 logits_hub
                                                   entry_num f_hats mask_in mask_out temp).
    Proof. unfold autoregressive_inpaint_refine. peel. Qed.

Lemma cfg_refine_returns_clean B label_B g_seed cfg top_k top_p more_smooth draft f_hat0
          entry_num temp :
      returns_clean (autoregressive_infer_cfg_refine m B label_B g_seed cfg top_k top_p
                                                     more_smooth draft f_hat0 entry_num temp).
    Proof. unfold autoregressive_infer_cfg_refine. peel. Qed.

Lemma cfg_mid_returns_clean B label_B g_seed cfg top_k top_p more_smooth draft f_hat0
          entry_num :
      returns_clean (autoregressive_infer_cfg_mid m B label_B g_seed cfg top_k top_p
                                                  more_smooth draft f_hat0 entry_num).
    Proof. unfold autoregressive_infer_cfg_mid. peel. Qed.

    (** The blocks are untouched by everything that precedes the
        enabling of the caches. *)
Lemma keeps_bind {A B} (c : M m A) (k : A -> M m B) :
      keeps_blocks c -> (forall a, keeps_blocks (k a)) -> keeps_blocks (bind c k).
    Proof.
      intros Hc Hk st. unfold bind. specialize (Hc st).
      destruct (c st) as [[a|e] st1]; cbn [snd] in *.
      - rewrite Hk. exact Hc.
      - exact Hc.
    Qed.

Lemma keeps_ret {A} (a : A) : keeps_blocks (m := m) (ret a).
    Proof. intros st. reflexivity. Qed.

Lemma keeps_lift {A} (r : Res A) : keeps_blocks (m := m) (lift r).
    Proof. intros st. reflexivity. Qed.

Lemma keeps_lift_opt {A} (e : Err) (o : option A) : keeps_blocks (m := m) (lift_opt e o).
    Proof. intros st. reflexivity. Qed.

Lemma keeps_draw {A} (sel : bool) (f : Rng m -> option (A * Rng m)) :
      keeps_blocks (draw sel f).
    Proof.
      intros st. unfold draw.
      destruct sel; [destruct (f (rng st)) as [[a r]|]|destruct (f (default_rng st)) as [[a r]|]];
        reflexivity.
    Qed.

Lemma keeps_seed (g_seed : option Z) : keeps_blocks (seed_rng m g_seed).
    Proof. intros st. destruct g_seed; reflexivity. Qed.

Ltac keeps :=
      repeat first
        [ apply keeps_ret | apply keeps_lift | apply keeps_lift_opt | apply keeps_draw
        | apply keeps_seed
        | apply keeps_bind; [|intros]
        | match goal with
          | |- keeps_blocks (let (_, _) := ?p in _) => destruct p
          | |- keeps_blocks (match ?x with _ => _ end) => destruct x
          end ].

Lemma keeps_start B label_B g_seed : keeps_blocks (start m B label_B g_seed).
    Proof. unfold start, start_from, resolve_label. keeps. Qed.

Lemma keeps_zero_canvas B : keeps_blocks (zero_canvas m B).
    Proof. unfold zero_canvas. keeps. Qed.

Lemma preserves_clean_bind {A B} (c : M m A) (k : A -> M m B) :
      keeps_blocks c -> (forall a, preserves_clean (k a)) -> preserves_clean (bind c k).
    Proof.
      intros Hc Hk st Hst. unfold bind. specialize (Hc st).
      destruct (c st) as [[a|e] st1]; cbn [snd] in *.
      - apply Hk. now rewrite Hc.
      - now rewrite Hc.
    Qed.

Lemma leaves_clean_finally {A B} (c : M m A) (k : A -> M m B) :
      (forall a, keeps_blocks (k a)) ->
      leaves_clean (set_kv_caching m true ;;;
                    (a <- try_finally c (disable_and_reset m) ;; k a)).
    Proof.
      intros Hk st. cbv [bind set_kv_caching try_finally disable_and_reset].
      match goal with |- context [c ?s] => destruct (c s) as [[a|e] st1] end; cbn [snd].
      - rewrite Hk. cbn [blocks]. apply clean_reset.
      - cbn [blocks]. apply clean_reset.
    Qed.

    (** The beam-search variant wraps its loop in [try ... finally]:
        whatever happens, clean blocks are clean again when the call
        ends, also when it ends by an exception. *)
Lemma beamsearch_preserves_clean B label_B g_seed cfg top_k top_p more_smooth exit_num
          temp beamwidth :
      preserves_clean (autoregressive_infer_cfg_draft_beamsearch
                         m B label_B g_seed cfg top_k top_p more_smooth exit_num temp
                         beamwidth).
    Proof.
      unfold autoregressive_infer_cfg_draft_beamsearch.
      apply preserves_clean_bind; [apply keeps_start|intros p].
      apply preserves_clean_bind; [apply keeps_zero_canvas|intros f_hat0].
      intros st _. apply leaves_clean_finally. intros bs. keeps.
    Qed.

    (** C3, amended.  A draft call that returns has itself disabled
        KV caching on every block and emptied every cache, just before
        returning its canvas and hubs; nothing is left for the caller
        to disable. *)
Theorem draft_returns_with_caching_disabled
            B label_B g_seed cfg top_k top_p more_smooth exit_num temp f_hats mask_in mask_out
            (st : State m) :
      (forall r st',
          autoregressive_infer_cfg_draft m B label_B g_seed cfg top_k top_p more_smooth
                                         exit_num temp st = (Ok r, st') ->
          clean (blocks st'))
      /\ (forall r st',
             autoregressive_inpaint_draft m B label_B g_seed cfg top_k top_p more_smooth
                                          exit_num f_hats mask_in mask_out temp st
             = (Ok r, st') ->
             clean (blocks st')).
    Proof.
      split; intros r st' E.
      - eapply cfg_draft_returns_clean; exact E.
      - eapply inpaint_draft_returns_clean; exact E.
    Qed.

End WithModel.

Lemma draft_returns_with_caching_disabled_witness :
    autoregressive_infer_cfg_draft m3 1 (LabelInt 0) None cfg15 top_k3 0%Qc false 2 temp3
                                   (fresh m3 0 0)
    = (Ok ([4], [[0; 0; 0; 0; 4; 4; 4; 4; 4; 4; 4; 4; 4]]), fresh m3 0 2)
    /\ clean (blocks (fresh m3 0 2)).
  Proof.
    assert (E : autoregressive_infer_cfg_draft m3 1 (LabelInt 0) None cfg15 top_k3 0%Qc false 2
                                               temp3 (fresh m3 0 0)
                = (Ok ([4], [[0; 0; 0; 0; 4; 4; 4; 4; 4; 4; 4; 4; 4]]), fresh m3 0 2))
      by (vm_compute; reflexivity).
    split; [exact E|].
    exact (proj1 (draft_returns_with_caching_disabled
                    (m := m3) 1 (LabelInt 0) None cfg15 top_k3 0%Qc false 2 temp3 tt tt tt
                    (fresh m3 0 0)) _ _ E).
  Defined.

  (** C3, the claim as stated fails.  The draft of the first two
      scales of the schedule (1, 2, 3) returns its canvas and token hub
      with caching disabled on both blocks, and so does the inpainting
      draft. *)
Lemma draft_does_not_leave_caching_enabled :
    let r := autoregressive_infer_cfg_draft m3 1 (LabelInt 0) None cfg15 top_k3 0%Qc false 2
                                            temp3 (fresh m3 0 0) in
    let r' := autoregressive_inpaint_draft m3 1 (LabelInt 0) None cfg15 top_k3 0%Qc false 2
                                           tt tt tt temp3 (fresh m3 0 0) in
    fst r = Ok ([4], [[0; 0; 0; 0; 4; 4; 4; 4; 4; 4; 4; 4; 4]])
    /\ blocks (snd r) = [mkAttn false []; mkAttn false []]
    /\ ~ all_caching (blocks (snd r))
    /\ (exists out, fst r' = Ok out)
    /\ blocks (snd r') = [mkAttn false []; mkAttn false []]
    /\ ~ all_caching (blocks (snd r')).
  Proof.
    cbv zeta.
    assert (E : autoregressive_infer_cfg_draft m3 1 (LabelInt 0) None cfg15 top_k3 0%Qc false 2
                                               temp3 (fresh m3 0 0)
                = (Ok ([4], [[0; 0; 0; 0; 4; 4; 4; 4; 4; 4; 4; 4; 4]]), fresh m3 0 2))
      by (vm_compute; reflexivity).
    rewrite E. cbn [fst snd].
    split; [reflexivity|]. split; [reflexivity|].
    split; [intros H; inversion H as [|? ? H1 _]; discriminate H1|].
    destruct (autoregressive_inpaint_draft m3 1 (LabelInt 0) None cfg15 top_k3 0%Qc false 2
                                           tt tt tt temp3 (fresh m3 0 0)) as [r' st'] eqn:E'.
    assert (Hb : blocks st' = [mkAttn false []; mkAttn false []]).
    { change st' with (snd (r', st')). rewrite <- E'. vm_compute. reflexivity. }
    assert (Hr : exists out, r' = Ok out).
    { change r' with (fst (r', st')). rewrite <- E'. vm_compute. eexists. reflexivity. }
    cbn [fst snd]. rewrite Hb.
    split; [exact Hr|]. split; [reflexivity|].
    intros H; inversion H as [|? ? H1 _]; discriminate H1.
  Qed.

  (** C1.  Called with its own defaults ([top_k=0], [temp=None],
      [exit_num=7], [g_seed=None]) the draft call enables the caches,
      runs the backbone for scale 0 and raises [TypeError] at
      [top_k[si]]; no [finally] disables the caches, so both blocks are
      left with caching enabled and one cached step. *)
Theorem draft_error_leaves_caching_enabled :
    let r := autoregressive_infer_cfg_draft m3 1 (LabelInt 0) None cfg15 (ANum 0) 0%Qc false 7
                                            ANone (fresh m3 0 0) in
    fst r = Raise TypeError
    /\ blocks (snd r) = [mkAttn true [tt]; mkAttn true [tt]]
    /\ ~ clean (blocks (snd r)).
  Proof.
    cbv zeta.
    assert (E : autoregressive_infer_cfg_draft m3 1 (LabelInt 0) None cfg15 (ANum 0) 0%Qc false
                                               7 ANone (fresh m3 0 0)
                = (Raise TypeError,
                   mkState m3 0 0 [mkAttn true [tt]; mkAttn true [tt]]))
      by (vm_compute; reflexivity).
    rewrite E. cbn [fst snd blocks].
    split; [reflexivity|]. split; [reflexivity|].
    intros H; inversion H as [|? ? [H1 _] _]; discriminate H1.
  Qed.

  (** C8.  One item, [beamwidth = 2], five scales, stopping after the
      transition scale: the three forking scales grow the batch to 8
      and the pruning step divides it by [active_beams = 2] only, so
      four beams (one per pair of siblings) survive with four canvases
      and four conditioning rows, not one per original item. *)
Theorem beam_prune_keeps_four_beams :
    let p := mkStart m5 false [0; 10] [[0]; [10]] in
    let r := beam_try m5 false cfg15 (ANum 0) 0%Qc false 4 (ANum 1%Qc) 2
                      (beam_init m5 p 1 2 [0]) (mkState m5 0 0 [mkAttn true []; mkAttn true []]) in
    fst (start m5 1 (LabelInt 0) None (fresh m5 0 0)) = Ok p
    /\ exists bs, fst r = Ok bs
                  /\ bm_B bs = 4%nat
                  /\ length (bm_f_hat bs) = 4%nat
                  /\ length (bm_cond_BD bs) = 4%nat
                  /\ bm_B bs <> 1%nat.
  Proof.
    cbv zeta. split; [vm_compute; reflexivity|].
    match goal with |- exists bs, fst ?r = _ /\ _ => destruct r as [res st] eqn:E end.
    assert (H : match res with
                | Ok bs => (bm_B bs =? 4)%nat && (length (bm_f_hat bs) =? 4)%nat
                           && (length (bm_cond_BD bs) =? 4)%nat
                | Raise _ => false
                end = true).
    { change res with (fst (res, st)). rewrite <- E. vm_compute. reflexivity. }
    destruct res as [bs|e]; [|discriminate H].
    apply andb_prop in H. destruct H as [H H3]. apply andb_prop in H. destruct H as [H1 H2].
    apply Nat.eqb_eq in H1, H2, H3.
    exists bs. cbn [fst]. repeat split; auto. rewrite H1. discriminate.
  Qed.

End CachePf.

(** ** Seeded runs do not depend on the generators' earlier state *)

Module SeedPf.

Import Py Tensor Var Gen Props.
Local Open Scope var_scope.

Section WithModel.

Variable m : Ops.

Lemma seeded_ret {A} (a : A) : seeded (m := m) (ret a).
    Proof. intros st st' H. split; [reflexivity|exact H]. Qed.

Lemma seeded_lift {A} (r : Res A) : seeded (m := m) (lift r).
    Proof. intros st st' H. split; [reflexivity|exact H]. Qed.

Lemma seeded_lift_opt {A} (e : Err) (o : option A) : seeded (m := m) (lift_opt e o).
    Proof. intros st st' H. split; [reflexivity|exact H]. Qed.

Lemma seeded_bind {A B} (c : M m A) (k : A -> M m B) :
      seeded c -> (forall a, seeded (k a)) -> seeded (bind c k).
    Proof.
      intros Hc Hk st st' H. unfold bind.
      destruct (Hc st st' H) as [Hr Hs].
      destruct (c st) as [[a|e] st1], (c st') as [[a'|e'] st1']; cbn [fst snd] in *;
        try discriminate.
      - injection Hr as <-. apply Hk, Hs.
      - injection Hr as <-. split; [reflexivity|exact Hs].
    Qed.

Lemma seeded_bind_yields {A B} (R : A -> Prop) (c : M m A) (k : A -> M m B) :
      seeded c -> yields c R -> (forall a, R a -> seeded (k a)) -> seeded (bind c k).
    Proof.
      intros Hc Hy Hk st st' H. unfold bind.
      destruct (Hc st st' H) as [Hr Hs]. pose proof (Hy st) as Hy1.
      destruct (c st) as [[a|e] st1], (c st') as [[a'|e'] st1']; cbn [fst snd] in *;
        try discriminate.
      - injection Hr as <-. apply Hk; [|exact Hs]. eapply Hy1. reflexivity.
      - injection Hr as <-. split; [reflexivity|exact Hs].
    Qed.

Lemma seeded_draw {A} (f : Rng m -> option (A * Rng m)) : seeded (draw true f).
    Proof.
      intros st st' [Hr Hb]. unfold draw. rewrite <- Hr.
      destruct (f (rng st)) as [[a r]|]; cbn [fst snd].
      - split; [reflexivity|]. split; [reflexivity|exact Hb].
      - split; [reflexivity|]. split; assumption.
    Qed.

Lemma seeded_set_kv (enable : bool) : seeded (set_kv_caching m enable).
    Proof.
      intros st st' [Hr Hb]. unfold set_kv_caching. cbn [fst snd].
      split; [reflexivity|]. split; cbn [rng blocks]; [exact Hr|now rewrite Hb].
    Qed.

Lemma seeded_disable_and_reset : seeded (disable_and_reset m).
    Proof.
      intros st st' [Hr Hb]. unfold disable_and_reset. cbn [fst snd].
      split; [reflexivity|]. split; cbn [rng blocks]; [exact Hr|now rewrite Hb].
    Qed.

Lemma seeded_backbone x cond bias : seeded (backbone m x cond bias).
    Proof.
      intros st st' [Hr Hb]. unfold backbone. rewrite <- Hb.
      destruct (blocks_forward m 0 (blocks st) x cond bias) as [res bs]. cbn [fst snd].
      split; [reflexivity|]. split; cbn [rng blocks]; [exact Hr|reflexivity].
    Qed.

Lemma seeded_update_blocks f : seeded (update_blocks m f).
    Proof.
      intros st st' [Hr Hb]. unfold update_blocks. rewrite <- Hb.
      destruct (blocks_update m f (blocks st)) as [res bs]. cbn [fst snd].
      split; [reflexivity|]. split; cbn [rng blocks]; [exact Hr|reflexivity].
    Qed.

Lemma seeded_try_finally {A} (c : M m A) (f : M m unit) :
      seeded c -> seeded f -> seeded (try_finally c f).
    Proof.
      intros Hc Hf st st' H. unfold try_finally.
      destruct (Hc st st' H) as [Hr Hs].
      destruct (c st) as [r st1], (c st') as [r' st1']; cbn [fst snd] in *. subst r'.
      destruct (Hf st1 st1' Hs) as [Hr' Hs'].
      destruct (f st1) as [[u|e] st2], (f st1') as [[u'|e'] st2']; cbn [fst snd] in *;
        try discriminate.
      - split; [reflexivity|exact Hs'].
      - injection Hr' as <-. split; [reflexivity|exact Hs'].
    Qed.

Lemma seeded_for_loop {A S} (body : A -> S -> M m (Ctl S)) (items : list A) (s : S) :
      (forall a s, seeded (body a s)) -> seeded (for_loop body items s).
    Proof.
      intros Hbody. revert s. induction items as [|a r IH]; intros s; cbn [for_loop].
      - apply seeded_ret.
      - apply seeded_bind; [apply Hbody|]. intros [s'|s']; [apply IH|apply seeded_ret].
    Qed.

Lemma yields_bind {A B} (R : B -> Prop) (c : M m A) (k : A -> M m B) :
      (forall a, yields (k a) R) -> yields (bind c k) R.
    Proof.
      intros Hk st b st' E. unfold bind in E.
      destruct (c st) as [[a|e] st1]; [|discriminate]. eapply Hk; eauto.
    Qed.

Lemma yields_ret {A} (R : A -> Prop) (a : A) : R a -> yields (m := m) (ret a) R.
    Proof. intros H st b st' E. cbv [ret] in E. now injection E as <- _. Qed.

Lemma seeded_sample_scales B top_k top_p tmp_of logits items new_L idx :
      seeded (sample_scales m true B top_k top_p tmp_of logits items new_L idx).
    Proof.
      revert new_L idx. induction items as [|[a b] r IH]; intros new_L idx;
        cbn [sample_scales].
      - apply seeded_ret.
      - repeat first [ apply seeded_lift | apply seeded_lift_opt | apply seeded_draw
                     | apply IH | apply seeded_bind; [|intros] ].
    Qed.

Ltac step :=
      first
        [ apply seeded_ret | apply seeded_lift | apply seeded_lift_opt | apply seeded_draw
        | apply seeded_set_kv | apply seeded_backbone | apply seeded_update_blocks
        | apply seeded_disable_and_reset | apply seeded_sample_scales
        | apply seeded_try_finally
        | apply seeded_for_loop; intros
        | apply seeded_bind; [|intros]
        | match goal with
          | |- seeded (let (_, _) := ?p in _) => destruct p
          | |- seeded (if ?b then _ else _) => destruct b
          | |- seeded (match ?x with _ => _ end) => destruct x
          end
        | progress unfold start_from, resolve_label, zero_canvas, embed_tokens, embed_next,
          accumulate, guided_sample, infer_main, infer_body, draft_body, refine_input,
          later_scale, finish_scale, inpaint_refine_body, cfg_refine_body, mid_body,
          beam_try, beam_body, beam_expand, beam_prune, beam_single ].

Ltac seeded := repeat step.

Lemma seeded_start_from B label_B : seeded (start_from m true B label_B).
    Proof. seeded. Qed.

Lemma start_from_sel sel B label_B :
      yields (start_from m sel B label_B) (fun p => Gen.sel p = sel).
    Proof.
      unfold start_from.
      repeat (apply yields_bind; intros). apply yields_ret. reflexivity.
    Qed.

    (** A call that begins with [start] and continues with a
        computation that only draws from [self.rng]. *)
Lemma seed_determined_start {A} (B : nat) (label_B : Label) (k : Start m -> M m A) :
      (forall p, sel p = true -> seeded (k p)) ->
      seed_determined (fun g_seed => p <- start m B label_B g_seed ;; k p).
    Proof.
      intros Hk g st st' Hb.
      change (fst (bind (start_from m true B label_B) k
                        (mkState m (manual_seed m g) (default_rng st) (blocks st)))
              = fst (bind (start_from m true B label_B) k
                          (mkState m (manual_seed m g) (default_rng st') (blocks st')))).
      apply (seeded_bind_yields (R := fun p => sel p = true)).
      - apply seeded_start_from.
      - apply start_from_sel.
      - exact Hk.
      - split; [reflexivity|exact Hb].
    Qed.

Ltac with_seed :=
      apply seed_determined_start;
      let s := fresh "s" in let c := fresh "c" in let t := fresh "t" in
      intros [s c t] Hsel; cbn [sel cond_BD token_map0] in *; subst s; seeded.

Lemma infer_cfg_seeded B label_B cfg top_k top_p more_smooth :
      seed_determined (fun g_seed =>
        autoregressive_infer_cfg m B label_B g_seed cfg top_k top_p more_smooth).
    Proof. unfold autoregressive_infer_cfg. with_seed. Qed.

Lemma infer_inpaint_seeded B label_B cfg top_k top_p more_smooth f_hats mask_in mask_out :
      seed_determined (fun g_seed =>
        autoregressive_infer_inpaint m B label_B g_seed cfg top_k top_p more_smooth f_hats
                                     mask_in mask_out).
    Proof. unfold autoregressive_infer_inpaint. with_seed. Qed.

Lemma cfg_draft_seeded B label_B cfg top_k top_p more_smooth exit_num temp :
      seed_determined (fun g_seed =>
        autoregressive_infer_cfg_draft m B label_B g_seed cfg top_k top_p more_smooth exit_num
                                       temp).
    Proof. unfold autoregressive_infer_cfg_draft. with_seed. Qed.

Lemma inpaint_draft_seeded B label_B cfg top_k top_p more_smooth exit_num f_hats mask_in
          mask_out temp :
      seed_determined (fun g_seed =>
        autoregressive_inpaint_draft m B label_B g_seed cfg top_k top_p more_smooth exit_num
                                     f_hats mask_in mask_out temp).
    Proof. unfold autoregressive_inpaint_draft. with_seed. Qed.

Lemma inpaint_refine_seeded B label_B cfg top_k top_p more_smooth draft f_hat0 logits_hub
          entry_num f_hats mask_in mask_out temp :
      seed_determined (fun g_seed =>
        autoregressive_inpaint_refine m B label_B g_seed cfg top_k top_p more_smooth draft
                                      f_hat0 logits_hub entry_num f_hats mask_in mask_out temp).
    Proof. unfold autoregressive_inpaint_refine. with_seed. Qed.

Lemma cfg_refine_seeded B label_B cfg top_k top_p more_smooth draft f_hat0 entry_num temp :
      seed_determined (fun g_seed =>
        autoregressive_infer_cfg_refine m B label_B g_seed cfg top_k top_p more_smooth draft
                                        f_hat0 entry_num temp).
    Proof. unfold autoregressive_infer_cfg_refine. with_seed. Qed.

Lemma cfg_mid_seeded B label_B cfg top_k top_p more_smooth draft f_hat0 entry_num :
      seed_determined (fun g_seed =>
        autoregressive_infer_cfg_mid m B label_B g_seed cfg top_k top_p more_smooth draft
                                     f_hat0 entry_num).
    Proof. unfold autoregressive_infer_cfg_mid. with_seed. Qed.

Lemma nll_conditioned_seeded label_B_masked prefix_tokens target_tokens scale_idx :
      seeded (nll_conditioned m label_B_masked prefix_tokens target_tokens scale_idx).
    Proof. unfold nll_conditioned. cbv zeta. seeded. Qed.

Lemma beamsearch_seeded B label_B cfg top_k top_p more_smooth exit_num temp beamwidth :
      seed_determined (fun g_seed =>
        autoregressive_infer_cfg_draft_beamsearch m B label_B g_seed cfg top_k top_p
                                                  more_smooth exit_num temp beamwidth).
    Proof. unfold autoregressive_infer_cfg_draft_beamsearch. with_seed. Qed.

    (** C7.  Two runs of a generation call with the same configuration
        and the same seed [g] return the same output (or raise the
        same exception), whatever state the model's generator and
        torch's default generator were in before each run, the blocks
        being in the same state: the seed determines the labels drawn
        when [label_B] is unset and every later sample, all of which
        are taken from [self.rng]. *)
Theorem seeded_runs_agree (g : Z) (st st' : State m) (Hblocks : blocks st = blocks st')
            B label_B cfg top_k top_p more_smooth exit_num entry_num temp draft f_hat0
            logits_hub f_hats mask_in mask_out beamwidth :
      fst (autoregressive_infer_cfg m B label_B (Some g) cfg top_k top_p more_smooth st)
      = fst (autoregressive_infer_cfg m B label_B (Some g) cfg top_k top_p more_smooth st')
      /\ fst (autoregressive_infer_inpaint m B label_B (Some g) cfg top_k top_p more_smooth
                                           f_hats mask_in mask_out st)
         = fst (autoregressive_infer_inpaint m B label_B (Some g) cfg top_k top_p more_smooth
                                             f_hats mask_in mask_out st')
      /\ fst (autoregressive_infer_cfg_draft m B label_B (Some g) cfg top_k top_p more_smooth
                                             exit_num temp st)
         = fst (autoregressive_infer_cfg_draft m B label_B (Some g) cfg top_k top_p more_smooth
                                               exit_num temp st')
      /\ fst (autoregressive_inpaint_draft m B label_B (Some g) cfg top_k top_p more_smooth
                                           exit_num f_hats mask_in mask_out temp st)
         = fst (autoregressive_inpaint_draft m B label_B (Some g) cfg top_k top_p more_smooth
                                             exit_num f_hats mask_in mask_out temp st')
      /\ fst (autoregressive_inpaint_refine m B label_B (Some g) cfg top_k top_p more_smooth
                                            draft f_hat0 logits_hub entry_num f_hats mask_in
                                            mask_out temp st)
         = fst (autoregressive_inpaint_refine m B label_B (Some g) cfg top_k top_p more_smooth
                                              draft f_hat0 logits_hub entry_num f_hats mask_in
                                              mask_out temp st')
      /\ fst (autoregressive_infer_cfg_refine m B label_B (Some g) cfg top_k top_p more_smooth
                                              draft f_hat0 entry_num temp st)
         = fst (autoregressive_infer_cfg_refine m B label_B (Some g) cfg top_k top_p
                                                more_smooth draft f_hat0 entry_num temp st')
      /\ fst (autoregressive_infer_cfg_mid m B label_B (Some g) cfg top_k top_p more_smooth
                                           draft f_hat0 entry_num st)
         = fst (autoregressive_infer_cfg_mid m B label_B (Some g) cfg top_k top_p more_smooth
                                             draft f_hat0 entry_num st')
      /\ fst (autoregressive_infer_cfg_draft_beamsearch m B label_B (Some g) cfg top_k top_p
                                                        more_smooth exit_num temp beamwidth st)
         = fst (autoregressive_infer_cfg_draft_beamsearch m B label_B (Some g) cfg top_k top_p
                                                          more_smooth exit_num temp beamwidth
                                                          st').
    Proof.
      repeat split.
      - now apply infer_cfg_seeded.
      - now apply infer_inpaint_seeded.
      - now apply cfg_draft_seeded.
      - now apply inpaint_draft_seeded.
      - now apply inpaint_refine_seeded.
      - now apply cfg_refine_seeded.
      - now apply cfg_mid_seeded.
      - now apply beamsearch_seeded.
    Qed.

End WithModel.

Lemma seeded_runs_agree_witness :
    blocks (Toy.fresh Toy.m3 1 2) = blocks (Toy.fresh Toy.m3 5 9)
    /\ fst (autoregressive_infer_cfg Toy.m3 1 LabelNone (Some 7) Toy.cfg15 (ANum 0) 0%Qc false
                                     (Toy.fresh Toy.m3 1 2))
       = fst (autoregressive_infer_cfg Toy.m3 1 LabelNone (Some 7) Toy.cfg15 (ANum 0) 0%Qc false
                                       (Toy.fresh Toy.m3 5 9)).
  Proof.
    split; [reflexivity|].
    exact (proj1 (@seeded_runs_agree Toy.m3 7 (Toy.fresh Toy.m3 1 2)
                                     (Toy.fresh Toy.m3 5 9) eq_refl
                                    1 LabelNone Toy.cfg15 (ANum 0) 0%Qc false 2 1 Toy.temp3
                                    [] [] [] tt tt tt 2)).
  Defined.

End SeedPf.

(** ** Classifier-free guidance *)

Module GuidancePf.

Import Py Tensor Var Gen Props.

Lemma slice_to_app {A} (a b : list A) : slice_to (a ++ b) (len a) = a.
  Proof.
    unfold slice_to, slice, clamp, len. rewrite length_app.
    destruct (Z.ltb_spec 0 0) as [H|_]; [lia|].
    destruct (Z.ltb_spec (Z.of_nat (length a)) 0) as [H|_]; [lia|].
    replace (Z.min 0 _) with 0 by lia.
    replace (Z.min (Z.of_nat (length a)) _) with (Z.of_nat (length a)) by lia.
    cbn [Z.to_nat skipn]. rewrite Z.sub_0_r, Nat2Z.id.
    rewrite firstn_app, Nat.sub_diag, firstn_all. cbn [firstn]. apply app_nil_r.
  Qed.

Lemma slice_from_app {A} (a b : list A) : slice_from (a ++ b) (len a) = b.
  Proof.
    unfold slice_from, slice, clamp, len. rewrite length_app.
    destruct (Z.ltb_spec (Z.of_nat (length a)) 0) as [H|_]; [lia|].
    destruct (Z.ltb_spec (Z.of_nat (length a + length b)) 0) as [H|_]; [lia|].
    replace (Z.min (Z.of_nat (length a)) _) with (Z.of_nat (length a)) by lia.
    rewrite Z.min_id, Nat2Z.id.
    rewrite skipn_app, skipn_all, Nat.sub_diag. cbn [skipn app].
    replace (Z.to_nat _) with (length b) by lia. apply firstn_all.
  Qed.

Lemma zip_with_nth {A B C} (f : A -> B -> C) (x : list A) (y : list B) (i : nat) :
    nth_error (zip_with f x y) i =
    match nth_error x i, nth_error y i with
    | Some a, Some b => Some (f a b)
    | _, _ => None
    end.
  Proof.
    unfold zip_with. revert y i.
    induction x as [|a x IH]; intros [|b y] [|i]; cbn; auto.
    destruct (nth_error x i); reflexivity.
  Qed.

Lemma zip_with_length {A B C} (f : A -> B -> C) (x : list A) (y : list B) :
    length x = length y -> length (zip_with f x y) = length x.
  Proof.
    intros H. unfold zip_with. rewrite length_map, length_combine, <- H. apply Nat.min_id.
  Qed.

Lemma zip_bc_same {A B C} (f : A -> B -> C) (x : list A) (y : list B) :
    length x = length y -> zip_bc f x y = Ok (zip_with f x y).
  Proof. intros H. unfold zip_bc. now rewrite H, Nat.eqb_refl. Qed.

Lemma same_shape_length (a b : Logits) : same_shape a b -> length a = length b.
  Proof. apply Forall2_length. Qed.

Lemma cfg_mix_0 (c u : Qc) : cfg_mix 0 c u = c.
  Proof. unfold cfg_mix. ring. Qed.

Lemma zip_with_cons {A B C} (f : A -> B -> C) a b (x : list A) (y : list B) :
    zip_with f (a :: x) (b :: y) = f a b :: zip_with f x y.
  Proof. reflexivity. Qed.

Lemma zip_with_nil {A B C} (f : A -> B -> C) (y : list B) : zip_with f [] y = [].
  Proof. reflexivity. Qed.

Lemma mix_vec_0 (x y : list Qc) :
    length x = length y -> zip_with (cfg_mix 0) x y = x.
  Proof.
    revert y. induction x as [|a x IH]; intros [|b y] H; try discriminate; auto.
    rewrite zip_with_cons, cfg_mix_0. f_equal. apply IH. cbn in H. lia.
  Qed.

Lemma mix_row_0 (x y : list (list Qc)) :
    Forall2 (fun v w => length v = length w) x y ->
    zip_with (zip_with (cfg_mix 0)) x y = x.
  Proof.
    induction 1 as [|v w x y Hvw _ IH]; auto.
    rewrite zip_with_cons, (mix_vec_0 _ _ Hvw). f_equal. exact IH.
  Qed.

Lemma mix_0 (a b : Logits) :
    same_shape a b -> zip_with (zip_with (zip_with (cfg_mix 0))) a b = a.
  Proof.
    induction 1 as [|v w x y Hvw _ IH]; auto.
    rewrite zip_with_cons, (mix_row_0 Hvw). f_equal. exact IH.
  Qed.

Lemma mix_shape (t : Qc) (a b : Logits) :
    same_shape a b -> same_shape (zip_with (zip_with (zip_with (cfg_mix t))) a b) a.
  Proof.
    induction 1 as [|v w x y Hvw _ IH]; [constructor|].
    rewrite zip_with_cons. constructor; [|exact IH]. clear IH.
    induction Hvw as [|p q v w Hpq _ IH]; [constructor|].
    rewrite zip_with_cons. constructor; [|exact IH].
    now apply zip_with_length.
  Qed.

Lemma mix_entry (t : Qc) (a b : Logits) (i p v : nat) (c u : Qc) :
    entry a i p v = Some c -> entry b i p v = Some u ->
    entry (zip_with (zip_with (zip_with (cfg_mix t))) a b) i p v = Some (cfg_mix t c u).
  Proof.
    unfold entry. rewrite zip_with_nth.
    destruct (nth_error a i) as [ra|]; [|discriminate].
    destruct (nth_error b i) as [rb|]; [|discriminate].
    rewrite zip_with_nth.
    destruct (nth_error ra p) as [va|]; [|discriminate].
    destruct (nth_error rb p) as [vb|]; [|discriminate].
    rewrite zip_with_nth. intros -> ->. reflexivity.
  Qed.

Lemma of_Z_nonzero (z : Z) : z <> 0 -> of_Z z <> 0%Qc.
  Proof.
    intros Hz H. unfold of_Z in H. apply Q2Qc_eq_iff in H.
    unfold Qeq in H. cbn in H. lia.
  Qed.



End GuidancePf.

(** ** Label dropping in [compute_nll] *)

Module NllPf.

Import Py Tensor Var Gen Props.
Local Open Scope var_scope.

Lemma zip_with_ext_left {A B C} (f g : A -> B -> C) (x x' : list A) (y : list B) :
    length x = length x' ->
    (forall a a' b, In a x -> In a' x' -> f a b = g a' b) ->
    zip_with f x y = zip_with g x' y.
  Proof.
    revert x' y. induction x as [|a x IH]; intros [|a' x'] y Hlen H; try discriminate.
    - reflexivity.
    - destruct y as [|b y]; [reflexivity|].
      rewrite !GuidancePf.zip_with_cons. f_equal.
      + apply H; now left.
      + apply IH; [now injection Hlen|]. intros; apply H; now right.
  Qed.

Lemma map_ext_left {A B C} (f g : A -> B -> C) (b : B) (x x' : list A) :
    length x = length x' ->
    (forall a a', In a x -> In a' x' -> f a b = g a' b) ->
    map (fun a => f a b) x = map (fun a => g a b) x'.
  Proof.
    revert x'. induction x as [|c x IH]; intros [|c' x'] Hlen H; try discriminate;
      [reflexivity|].
    cbn [map]. f_equal; [apply H; now left|].
    apply IH; [now injection Hlen|]. intros; apply H; now right.
  Qed.

Lemma zip_bc_ext_left {A B C} (f g : A -> B -> C) (x x' : list A) (y : list B) :
    length x = length x' ->
    (forall a a' b, In a x -> In a' x' -> f a b = g a' b) ->
    zip_bc f x y = zip_bc g x' y.
  Proof.
    intros Hlen H. unfold zip_bc. rewrite <- Hlen.
    destruct (Nat.eqb (length x) (length y)).
    - f_equal. now apply zip_with_ext_left.
    - destruct x as [|a [|a2 x]], x' as [|a' [|a2' x']]; try discriminate.
      + reflexivity.
      + f_equal. apply map_ext. intros b. apply H; now left.
      + destruct y as [|b [|b2 y]]; try reflexivity. f_equal.
        apply map_ext_left; [exact Hlen|]. intros; now apply H.
  Qed.

Lemma qlt_true (a b : Qc) : qlt a b = true <-> (a < b)%Qc.
  Proof.
    unfold qlt, Qclt, Qccompare. rewrite Qlt_alt.
    destruct (this a ?= this b)%Q; split; intros; congruence.
  Qed.

Lemma qlt_false (a b : Qc) : qlt a b = false <-> (b <= a)%Qc.
  Proof.
    split.
    - intros H. apply Qcnot_lt_le. intros Hlt. apply qlt_true in Hlt. congruence.
    - intros H. destruct (qlt a b) eqn:E; [|reflexivity].
      apply qlt_true in E. apply Qcle_not_lt in H. contradiction.
  Qed.

Section WithModel.

Variable m : Ops.
Hypothesis Hrand : rand_ok m.

    (** The label that conditions a sample whose draw is [x]. *)
Let drop (x : Qc) (l : Z) : Z := if qlt x (cond_drop_rate m) then num_classes m else l.

Lemma mask_none (u : list Qc) (label_B : list Z) :
      cond_drop_rate m = 0%Qc ->
      Forall (fun x => (0 <= x)%Qc /\ (x < 1)%Qc) u ->
      mask_labels m u label_B = zip_bc (fun _ l => l) u label_B.
    Proof.
      intros H0 Hu. unfold mask_labels. apply zip_bc_ext_left; [reflexivity|].
      intros a a' b Ha _. rewrite H0.
      rewrite Forall_forall in Hu. destruct (Hu a Ha) as [Hge _].
      apply qlt_false in Hge. now rewrite Hge.
    Qed.

Lemma mask_all (u : list Qc) (label_B : list Z) :
      (1 <= cond_drop_rate m)%Qc ->
      Forall (fun x => (0 <= x)%Qc /\ (x < 1)%Qc) u ->
      mask_labels m u label_B = zip_bc (fun _ _ => num_classes m) u label_B.
    Proof.
      intros H1 Hu. unfold mask_labels. apply zip_bc_ext_left; [reflexivity|].
      intros a a' b Ha _.
      rewrite Forall_forall in Hu. destruct (Hu a Ha) as [_ Hlt].
      assert (Hq : qlt a (cond_drop_rate m) = true).
      { apply qlt_true. eapply Qclt_le_trans; eauto. }
      now rewrite Hq.
    Qed.

Lemma mask_same_side (u u' : list Qc) (label_B : list Z) :
      cond_drop_rate m = 0%Qc \/ (1 <= cond_drop_rate m)%Qc ->
      length u = length u' ->
      Forall (fun x => (0 <= x)%Qc /\ (x < 1)%Qc) u ->
      Forall (fun x => (0 <= x)%Qc /\ (x < 1)%Qc) u' ->
      mask_labels m u label_B = mask_labels m u' label_B.
    Proof.
      intros [H|H] Hlen Hu Hu'.
      - rewrite !mask_none by assumption. apply zip_bc_ext_left; auto.
      - rewrite !mask_all by assumption. apply zip_bc_ext_left; auto.
    Qed.

    (** [compute_nll] is [nll_conditioned] on the masked labels, run
        after the draw. *)
Lemma compute_nll_unfold prefix target label_B scale_idx (st : State m) :
      fst (compute_nll m prefix target label_B scale_idx st)
      = match mask_labels m (fst (rand m (default_rng st) (length prefix))) label_B with
        | Ok masked => fst (nll_conditioned m masked prefix target scale_idx st)
        | Raise e => Raise e
        end.
    Proof.
      unfold compute_nll. cbv zeta. unfold bind at 1, draw.
      destruct (rand m (default_rng st) (length prefix)) as [u r] eqn:E. cbn [fst].
      unfold bind, lift.
      destruct (mask_labels m u label_B) as [masked|e]; [|reflexivity].
      refine (proj1 (@SeedPf.nll_conditioned_seeded m masked prefix target scale_idx _ _ _)).
      split; reflexivity.
    Qed.

Lemma nll_same_side prefix target label_B scale_idx (st st' : State m) :
      cond_drop_rate m = 0%Qc \/ (1 <= cond_drop_rate m)%Qc ->
      low_eq st st' ->
      fst (compute_nll m prefix target label_B scale_idx st)
      = fst (compute_nll m prefix target label_B scale_idx st').
    Proof.
      intros Hrate Hlow. rewrite !compute_nll_unfold.
      destruct (Hrand (default_rng st) (length prefix)) as [Hl Hu].
      destruct (Hrand (default_rng st') (length prefix)) as [Hl' Hu'].
      rewrite (mask_same_side label_B Hrate (eq_trans Hl (eq_sym Hl')) Hu Hu').
      destruct (mask_labels m _ label_B) as [masked|e]; [|reflexivity].
      exact (proj1 (@SeedPf.nll_conditioned_seeded m masked prefix target scale_idx _ _ Hlow)).
    Qed.

Lemma zip_bc_keep {A B} (u : list A) (l : list B) :
      length u = length l -> zip_bc (fun _ b => b) u l = Ok l.
    Proof.
      intros H. rewrite GuidancePf.zip_bc_same by exact H. f_equal.
      revert l H. induction u as [|a u IH]; intros [|b l] H; try discriminate; auto.
      rewrite GuidancePf.zip_with_cons. f_equal. apply IH. now injection H.
    Qed.

Lemma zip_bc_const {A B C} (c : C) (u : list A) (l : list B) :
      length u = length l -> zip_bc (fun _ _ => c) u l = Ok (repeat c (length l)).
    Proof.
      intros H. rewrite GuidancePf.zip_bc_same by exact H. f_equal.
      revert l H. induction u as [|a u IH]; intros [|b l] H; try discriminate; auto.
      rewrite GuidancePf.zip_with_cons. cbn [length repeat]. f_equal. apply IH.
      now injection H.
    Qed.

Lemma mask_entry (u : list Qc) (label_B : list Z) (i : nat) (x : Qc) (c : Z) :
      length u = length label_B ->
      nth_error u i = Some x -> nth_error label_B i = Some c ->
      exists masked, mask_labels m u label_B = Ok masked
                     /\ nth_error masked i = Some (drop x c).
    Proof.
      intros Hlen Hx Hc. unfold mask_labels.
      rewrite GuidancePf.zip_bc_same by exact Hlen.
      eexists. split; [reflexivity|].
      rewrite GuidancePf.zip_with_nth, Hx, Hc. reflexivity.
    Qed.


End WithModel.

Lemma toy_rand_ok (pns : list Z) (rate : Qc) : rand_ok (Toy.model pns rate).
  Proof.
    intros r n. cbn [rand Toy.model Toy.toy_rand fst]. split.
    - apply repeat_length.
    - apply Forall_forall. intros x Hx. apply repeat_spec in Hx. subst x.
      destruct (Z.even r); split; unfold Qcle, Qclt, Qle, Qlt; cbn; lia.
  Qed.



End NllPf.

(** ** The refine pass *)

Module RefinePf.

Import Py Tensor Var Gen Props Schedule SchedulePf.
Local Open Scope var_scope.

  (** *** Slices *)

Lemma slice_in_range {A} (l : list A) (b e : Z) :
    0 <= b <= e -> e <= len l ->
    slice l b e = firstn (Z.to_nat (e - b)) (skipn (Z.to_nat b) l).
  Proof.
    intros Hb He. unfold slice, clamp.
    destruct (Z.ltb_spec b 0), (Z.ltb_spec e 0); try lia.
    rewrite !Z.min_l by lia. reflexivity.
  Qed.

Lemma slice_app_left {A} (x y : list A) (b e : Z) :
    0 <= b <= e -> e <= len x -> slice (x ++ y) b e = slice x b e.
  Proof.
    intros Hb He.
    rewrite (slice_in_range (x ++ y)) by (unfold len in *; rewrite ?length_app; lia).
    rewrite (slice_in_range x) by assumption. unfold len in He.
    rewrite skipn_app, firstn_app.
    replace (Z.to_nat b - length x)%nat with 0%nat by lia.
    rewrite length_skipn.
    replace (Z.to_nat (e - b) - (length x - Z.to_nat b))%nat with 0%nat by lia.
    cbn [skipn firstn]. apply app_nil_r.
  Qed.

Lemma slice_app_right {A} (x y : list A) (n : Z) :
    len y <= n -> slice (x ++ y) (len x) (len x + n) = y.
  Proof.
    intros Hn. unfold slice, clamp, len in *. rewrite length_app.
    destruct (Z.ltb_spec (Z.of_nat (length x)) 0),
             (Z.ltb_spec (Z.of_nat (length x) + n) 0); try lia.
    rewrite (Z.min_l (Z.of_nat (length x))) by lia.
    rewrite (Z.min_r (Z.of_nat (length x) + n)) by lia.
    rewrite Nat2Z.id, skipn_app, skipn_all, Nat.sub_diag. cbn [skipn app].
    apply firstn_all2. lia.
  Qed.

Lemma slice_firstn {A} (l : list A) (n : nat) (b e : Z) :
    0 <= b <= e -> e <= Z.of_nat n -> e <= len l -> slice (firstn n l) b e = slice l b e.
  Proof.
    intros Hb He Hl.
    rewrite (slice_in_range (firstn n l)) by (unfold len in *; rewrite ?length_firstn; lia).
    rewrite (slice_in_range l) by assumption. unfold len in Hl.
    rewrite <- (firstn_skipn n l) at 2.
    rewrite skipn_app, firstn_app, length_skipn, length_firstn.
    replace (Z.to_nat b - Nat.min n (length l))%nat with 0%nat by lia.
    replace (Z.to_nat (e - b) - (Nat.min n (length l) - Z.to_nat b))%nat with 0%nat by lia.
    cbn [skipn firstn]. now rewrite app_nil_r.
  Qed.

Lemma slice_length_le {A} (l : list A) (b e : Z) :
    0 <= b -> 0 <= e -> len (slice l b e) <= Z.max 0 (e - b).
  Proof.
    intros Hb He. unfold slice, clamp, len. rewrite length_firstn, length_skipn.
    destruct (Z.ltb_spec b 0), (Z.ltb_spec e 0); lia.
  Qed.

Lemma slice_length {A} (l : list A) (b e : Z) :
    0 <= b <= e -> e <= len l -> len (slice l b e) = e - b.
  Proof.
    intros Hb He. rewrite slice_in_range by assumption.
    unfold len in *. rewrite length_firstn, length_skipn. lia.
  Qed.

Lemma slice_to_all {A} (l : list A) (e : Z) : len l <= e -> slice_to l e = l.
  Proof.
    intros H. unfold slice_to, slice, clamp, len in *.
    destruct (Z.ltb_spec 0 0), (Z.ltb_spec e 0); try lia.
    rewrite (Z.min_r e) by lia. rewrite (Z.min_l 0) by lia. cbn [Z.to_nat skipn].
    rewrite Z.sub_0_r, Nat2Z.id. apply firstn_all.
  Qed.

Lemma slice_to_firstn {A} (l : list A) (n : nat) :
    slice_to l (Z.of_nat n) = firstn n l.
  Proof.
    unfold slice_to, slice, clamp, len.
    destruct (Z.ltb_spec 0 0), (Z.ltb_spec (Z.of_nat n) 0); try lia.
    rewrite (Z.min_l 0) by lia. cbn [Z.to_nat skipn]. rewrite Z.sub_0_r.
    destruct (Nat.le_gt_cases n (length l)).
    - rewrite Z.min_l by lia. now rewrite Nat2Z.id.
    - rewrite Z.min_r by lia. rewrite Nat2Z.id, !firstn_all2; auto. lia.
  Qed.

Lemma index_nat {A} (l : list A) (i : nat) :
    index l (Z.of_nat i) = nth_error l i.
  Proof.
    unfold index, len.
    destruct (Z.leb_spec 0 (Z.of_nat i)); [|lia].
    destruct (Z.ltb_spec (Z.of_nat i) (Z.of_nat (length l))); cbn [andb].
    - now rewrite Nat2Z.id.
    - destruct (Z.leb_spec (- Z.of_nat (length l)) (Z.of_nat i)),
               (Z.ltb_spec (Z.of_nat i) 0); cbn [andb]; try lia;
        symmetry; apply nth_error_None; lia.
  Qed.

Lemma sq_mul (pn : Z) : pn * pn = sq pn.
  Proof. unfold sq. lia. Qed.

  (** *** The logits the re-entry scale samples from *)

Lemma set_row_slice_before {A} (row r : list A) (lo hi oa ob : Z) :
    0 <= oa <= ob -> ob <= lo -> lo <= hi -> hi <= len row ->
    slice (set_row_slice lo hi row r) oa ob = slice row oa ob.
  Proof.
    intros Ha Hb Hlo Hhi. unfold set_row_slice, clamp.
    destruct (Z.ltb_spec lo 0); [lia|]. rewrite (Z.min_l lo) by lia.
    rewrite slice_app_left; [apply slice_firstn; lia|lia|].
    unfold len in *. rewrite length_firstn. lia.
  Qed.

Lemma set_row_slice_at {A} (row r : list A) (lo hi : Z) :
    0 <= lo <= hi -> hi <= len row -> len r = hi - lo ->
    slice (set_row_slice lo hi row r) lo hi = r.
  Proof.
    intros Hlo Hhi Hr. unfold set_row_slice, clamp.
    destruct (Z.ltb_spec lo 0); [lia|]. rewrite (Z.min_l lo) by lia.
    assert (Hx : len (firstn (Z.to_nat lo) row) = lo)
      by (unfold len in *; rewrite length_firstn; lia).
    rewrite app_assoc, slice_app_left.
    - transitivity (slice (firstn (Z.to_nat lo) row ++ r)
                          (len (firstn (Z.to_nat lo) row))
                          (len (firstn (Z.to_nat lo) row) + (hi - lo))).
      + rewrite Hx. f_equal. lia.
      + apply slice_app_right. lia.
    - lia.
    - unfold len in *. rewrite length_app. lia.
  Qed.

Lemma zip_with_app_before {A} (hub new : list (list A)) (h oa ob : Z) :
    length hub = length new -> Forall (fun row => len row = h) hub ->
    0 <= oa <= ob -> ob <= h ->
    slice_pos (zip_with (@app A) hub new) oa ob = slice_pos hub oa ob.
  Proof.
    intros Hlen Hhub Ha Hb. revert new Hlen.
    induction Hhub as [|row hub Hrow _ IH]; intros [|r new] Hlen; try discriminate;
      [reflexivity|].
    rewrite GuidancePf.zip_with_cons. unfold slice_pos in *. cbn [map].
    f_equal; [apply slice_app_left; lia|]. apply IH. now injection Hlen.
  Qed.

Lemma zip_with_app_at {A} (hub new : list (list A)) (h n : Z) :
    length hub = length new -> Forall (fun row => len row = h) hub ->
    Forall (fun row => len row <= n) new ->
    slice_pos (zip_with (@app A) hub new) h (h + n) = new.
  Proof.
    intros Hlen Hhub Hnew. revert new Hlen Hnew.
    induction Hhub as [|row hub Hrow _ IH]; intros [|r new] Hlen Hnew; try discriminate;
      [reflexivity|].
    rewrite GuidancePf.zip_with_cons. unfold slice_pos in *. cbn [map].
    apply Forall_cons_iff in Hnew. destruct Hnew as [Hr Hnew'].
    f_equal; [rewrite <- Hrow; now apply slice_app_right|].
    apply IH; [now injection Hlen|assumption].
  Qed.

Lemma zip_bc_forall {A B C} (P : C -> Prop) (f : A -> B -> C) (x : list A) (y : list B)
        (z : list C) :
    (forall a b, In a x -> P (f a b)) -> zip_bc f x y = Ok z -> Forall P z.
  Proof.
    intros H. unfold zip_bc.
    destruct (Nat.eqb (length x) (length y)).
    - intros E. injection E as <-. unfold zip_with. apply Forall_forall. intros c Hc.
      apply in_map_iff in Hc. destruct Hc as ([a b] & <- & Hin).
      apply H. eapply in_combine_l; eauto.
    - assert (Hy : forall b, Forall P (map (fun a => f a b) x)).
      { intros b. rewrite Forall_map. apply Forall_forall. intros a Ha. now apply H. }
      assert (Hx : forall a, In a x -> Forall P (map (f a) y)).
      { intros a Ha. rewrite Forall_map. apply Forall_forall. intros b _. now apply H. }
      destruct x as [|a [|a2 x]].
      + destruct y as [|b [|b2 y]]; try discriminate. intros E. injection E as <-.
        constructor.
      + intros E. injection E as <-. apply Hx. now left.
      + destruct y as [|b [|b2 y]]; try discriminate. intros E. injection E as <-.
        apply Hy.
  Qed.

Lemma guided_slice_width (B : nat) (t : Qc) (logits new : Logits) (lo hi : Z) :
    0 <= lo <= hi -> guided_slice B t logits lo hi = Ok new ->
    Forall (fun row => len row <= hi - lo) new.
  Proof.
    intros Hlo. unfold guided_slice, cfg_combine. apply zip_bc_forall.
    intros rc ru Hin. unfold slice_pos in Hin. apply in_map_iff in Hin.
    destruct Hin as (row & <- & _).
    pose proof (slice_length_le row (b := lo) (e := hi) ltac:(lia) ltac:(lia)) as Hs.
    unfold zip_with, len in *. rewrite length_map, length_combine. lia.
  Qed.

Lemma assign_rows_before {A} (head rhs : list (list A)) (lo hi oa ob h : Z) :
    length head = length rhs -> Forall (fun row => len row = h) head ->
    0 <= oa <= ob -> ob <= lo -> lo <= hi -> hi <= h ->
    slice_pos (zip_with (set_row_slice lo hi) head rhs) oa ob = slice_pos head oa ob.
  Proof.
    intros Hlen Hhead Ha Hb Hlo Hhi. revert rhs Hlen.
    induction Hhead as [|row head Hrow _ IH]; intros [|r rhs] Hlen; try discriminate;
      [reflexivity|].
    rewrite GuidancePf.zip_with_cons. unfold slice_pos in *. cbn [map].
    f_equal; [apply set_row_slice_before; lia|]. apply IH. now injection Hlen.
  Qed.

Lemma assign_rows_at {A} (head rhs : list (list A)) (lo hi h : Z) :
    length head = length rhs -> Forall (fun row => len row = h) head ->
    forallb (fun p => Nat.eqb (length (slice (fst p) lo hi)) (length (snd p)))
            (combine head rhs) = true ->
    0 <= lo <= hi -> hi <= h ->
    slice_pos (zip_with (set_row_slice lo hi) head rhs) lo hi = rhs.
  Proof.
    intros Hlen Hhead Hchk Hlo Hhi. revert rhs Hlen Hchk.
    induction Hhead as [|row head Hrow _ IH]; intros [|r rhs] Hlen Hchk; try discriminate;
      [reflexivity|].
    rewrite GuidancePf.zip_with_cons. unfold slice_pos in *. cbn [map].
    cbn [combine forallb fst snd] in Hchk. apply andb_prop in Hchk.
    destruct Hchk as [Hr Hchk]. apply Nat.eqb_eq in Hr.
    f_equal.
    - apply set_row_slice_at; try lia.
      pose proof (slice_length row (b := lo) (e := hi) ltac:(lia) ltac:(lia)) as Hs.
      unfold len in *. lia.
    - apply IH; [now injection Hlen|assumption].
  Qed.

Section WithModel.

Variable m : Ops.
Variable B : nat.
Variable e : nat.
Variable pn_e : Z.
Hypothesis He : nth_error (patch_nums m) e = Some pn_e.

Let pns := patch_nums m.

Lemma entry_bounds :
      offset pns (S e) - pn_e * pn_e = offset pns e
      /\ 0 <= offset pns e <= offset pns (S e).
    Proof.
      unfold pns. rewrite (offset_succ _ _ He), sq_mul. split; [lia|].
      pose proof (offset_le (patch_nums m) (s := 0) (t := e) ltac:(lia)) as H0.
      rewrite offset_0 in H0. pose proof (sq_nonneg pn_e). lia.
    Qed.

Lemma offsets_below (a : nat) :
      (a < e)%nat -> 0 <= offset pns a <= offset pns (S a) /\ offset pns (S a) <= offset pns e.
    Proof.
      intros Ha. unfold pns.
      pose proof (offset_le (patch_nums m) (s := 0) (t := a) ltac:(lia)) as H0.
      pose proof (offset_le (patch_nums m) (s := a) (t := S a) ltac:(lia)).
      pose proof (offset_le (patch_nums m) (s := S a) (t := e) ltac:(lia)).
      rewrite offset_0 in H0. lia.
    Qed.

    (** In [autoregressive_inpaint_refine] the tensor sampled from is
        the draft's logits hub followed by the combined logits of the
        new scale. *)
Lemma inpaint_entry_scales (cfg : Qc) (hub logits l : Logits) (ratio : Qc) :
      length hub = B ->
      Forall (fun row => len row = offset pns e) hub ->
      inpaint_entry_logits m B cfg e pn_e (offset pns (S e)) hub logits = Ok (ratio, l) ->
      ratio_of m e = Ok ratio
      /\ exists new,
          guided_slice B (cfg * ratio) logits (offset pns e) (offset pns (S e)) = Ok new
          /\ (forall a, (a < e)%nat -> scale_logits m B l a = scale_logits m B hub a)
          /\ scale_logits m B l e = new.
    Proof.
      intros HB Hhub. unfold inpaint_entry_logits.
      destruct entry_bounds as [-> Hb].
      destruct (ratio_of m e) as [r|]; [|discriminate].
      destruct (guided_slice B (cfg * r) logits _ _) as [new|] eqn:Eg; [|discriminate].
      unfold cat1_pair. destruct (Nat.eqb_spec (length hub) (length new)) as [Hlen|];
        [|discriminate].
      intros [= <- <-]. split; [reflexivity|]. exists new. split; [exact Eg|].
      assert (Hl : length (zip_with (@app (list Qc)) hub new) = B)
        by (rewrite GuidancePf.zip_with_length; auto).
      unfold scale_logits. fold pns.
      rewrite (slice_to_all (zip_with _ hub new)) by (unfold len; lia).
      rewrite (slice_to_all hub) by (unfold len; lia).
      split.
      - intros a Ha. destruct (offsets_below Ha).
        eapply zip_with_app_before; eauto.
      - pose proof (guided_slice_width _ _ _ Hb Eg) as Hw.
        unfold pns in *. rewrite (offset_succ _ _ He).
        eapply zip_with_app_at; eauto.
        rewrite (offset_succ _ _ He) in Hw.
        eapply Forall_impl; [|exact Hw]. cbn. intros; lia.
    Qed.

    (** In [autoregressive_infer_cfg_refine] there is no hub: the
        tensor sampled from is the logits of the refine pass's own
        backbone run, whose conditional rows are overwritten by the
        combined logits on the positions of the new scale only. *)
Lemma cfg_entry_scales (cfg : Qc) (logits l : Logits) (ratio : Qc) :
      (B <= length logits)%nat ->
      Forall (fun row => len row = offset pns (S e)) logits ->
      cfg_entry_logits m B cfg e pn_e (offset pns (S e)) logits = Ok (ratio, l) ->
      ratio_of m e = Ok ratio
      /\ exists new,
          guided_slice B (cfg * ratio) logits (offset pns e) (offset pns (S e)) = Ok new
          /\ (forall a, (a < e)%nat -> scale_logits m B l a = scale_logits m B logits a)
          /\ scale_logits m B l e = new.
    Proof.
      intros HB Hrows. unfold cfg_entry_logits.
      destruct entry_bounds as [-> Hb].
      destruct (ratio_of m e) as [r|]; [|discriminate].
      destruct (guided_slice B (cfg * r) logits _ _) as [new|] eqn:Eg; [|discriminate].
      unfold assign_slice.
      destruct (Nat.eqb_spec (length (firstn B logits)) (length new)) as [Hlen|];
        [|discriminate].
      cbn [andb].
      destruct (forallb _ (combine (firstn B logits) new)) eqn:Hchk; [|discriminate].
      intros [= <- <-]. split; [reflexivity|]. exists new. split; [exact Eg|].
      assert (Hhead : Forall (fun row => len row = offset pns (S e)) (firstn B logits)).
      { rewrite <- (firstn_skipn B logits) in Hrows.
        apply Forall_app in Hrows. exact (proj1 Hrows). }
      assert (HlB : length (firstn B logits) = B) by (rewrite length_firstn; lia).
      unfold scale_logits. fold pns. rewrite !slice_to_firstn.
      rewrite firstn_app, GuidancePf.zip_with_length by exact Hlen.
      rewrite HlB, Nat.sub_diag. cbn [firstn]. rewrite app_nil_r.
      rewrite firstn_all2 by (rewrite GuidancePf.zip_with_length; lia).
      split.
      - intros a Ha. destruct (offsets_below Ha).
        eapply assign_rows_before; eauto; lia.
      - eapply assign_rows_at; eauto; lia.
    Qed.

    (** *** The sampler calls of the re-entry scale *)

Lemma bind_ext {X Y} (c : M m X) (k k' : X -> M m Y) (st : State m) :
      (forall a st', k a st' = k' a st') -> bind c k st = bind c k' st.
    Proof.
      intros H. unfold bind. destruct (c st) as [[a|err] st']; [apply H|reflexivity].
    Qed.

Lemma sample_scales_each (sel : bool) (top_k : Arg Z) (top_p : Qc)
          (tmp_of : Z -> Res (Arg Qc)) (logits : Logits) (l : list Z) :
      forall (i : nat) (idx : option (list (list Z))) (st : State m),
        (forall j b, nth_error l j = Some b -> nth_error pns (i + j) = Some b) ->
        sample_scales m sel B top_k top_p tmp_of logits (enumerate_from i l)
                      (offset pns i) idx st
        = sample_each m sel top_k top_p tmp_of
                      (map (fun a => (a, scale_logits m B logits a)) (seq i (length l)))
                      idx st.
    Proof.
      induction l as [|b l IH]; intros i idx st Hl; [reflexivity|].
      cbn [enumerate_from sample_scales length seq map sample_each].
      assert (Hb : nth_error pns i = Some b).
      { specialize (Hl 0%nat b eq_refl). now rewrite Nat.add_0_r in Hl. }
      fold pns. rewrite index_nat, Hb.
      change (bind (lift_opt IndexError (Some b)) ?k st) with (k b st). cbv beta.
      unfold scale_logits at 1. fold pns. rewrite (offset_succ _ _ Hb).
      repeat (apply bind_ext; intros).
      rewrite sq_mul, <- (offset_succ _ _ Hb). apply IH.
      intros j c Hj. replace (S i + j)%nat with (i + S j)%nat by lia. now apply Hl.
    Qed.

Lemma entry_scales_firstn :
      entry_scales m (Z.of_nat e) = enumerate (firstn (S e) pns).
    Proof.
      unfold entry_scales. fold pns. f_equal.
      replace (Z.of_nat e + 1) with (Z.of_nat (S e)) by lia. apply slice_to_firstn.
    Qed.

    (** At re-entry one sampler call is made per scale [0 .. e], on
        the logits of that scale. *)
Lemma sample_scales_entry (sel : bool) (top_k : Arg Z) (top_p : Qc)
          (tmp_of : Z -> Res (Arg Qc)) (logits : Logits) (st : State m) :
      sample_scales m sel B top_k top_p tmp_of logits (entry_scales m (Z.of_nat e)) 0 None st
      = sample_each m sel top_k top_p tmp_of
                    (map (fun a => (a, scale_logits m B logits a)) (seq 0 (S e))) None st.
    Proof.
      rewrite entry_scales_firstn. unfold enumerate.
      change 0 with (offset pns 0) at 1.
      rewrite sample_scales_each.
      - rewrite length_firstn. replace (Nat.min (S e) (length pns)) with (S e); [reflexivity|].
        assert (e < length pns)%nat by (apply nth_error_Some; unfold pns; congruence). lia.
      - intros j b Hj. cbn [Nat.add]. rewrite nth_error_firstn in Hj.
        destruct (j <? S e)%nat; [exact Hj|discriminate].
    Qed.

End WithModel.

  (** *** The loop of the refine passes *)

Section Loops.

Variable m : Ops.
Variable e : nat.
Variable pn_e : Z.
Hypothesis He : nth_error (patch_nums m) e = Some pn_e.

Let pns := patch_nums m.

    (** A loop body that, before scale [e], only advances [cur_L]. *)
Variable body : nat * Z -> Loop m -> M m (Ctl (Loop m)).
Hypothesis Hskip :
      forall si pn ls st,
        (si < e)%nat ->
        body (si, pn) ls st
        = (Ok (Next (mkLoop m (cur_L ls + pn * pn) (f_hat ls) (next_token_map ls) [] [])),
           st).

Lemma skip_prefix :
      forall pre i c f x rest st,
        (i + length pre <= e)%nat ->
        for_loop body (enumerate_from i (pre ++ rest)) (mkLoop m c f x [] []) st
        = for_loop body (enumerate_from (i + length pre) rest)
                   (mkLoop m (c + Py.sum (map sq pre)) f x [] []) st.
    Proof.
      induction pre as [|a pre IH]; intros i c f x rest st Hi.
      - cbn [app length map]. rewrite Nat.add_0_r. change (Py.sum []) with 0.
        now rewrite Z.add_0_r.
      - cbn [app enumerate_from for_loop length map]. unfold bind at 1.
        rewrite Hskip by (cbn [length] in Hi; lia). cbn [cur_L f_hat next_token_map].
        rewrite IH by (cbn [length] in Hi; lia).
        rewrite sum_cons, sq_mul. f_equal; [f_equal; lia|f_equal; lia].
    Qed.

    (** The loop over all scales is the step of scale [e], entered
        with [cur_L = offset[e]], followed by the loop over the scales
        [e+1 .. S-1]. *)
Lemma loop_from_entry f x st :
      for_loop body (enumerate pns) (mkLoop m 0 f x [] []) st
      = bind (body (e, pn_e) (mkLoop m (offset pns e) f x [] []))
             (fun c => match c with
                       | Next ls => for_loop body (enumerate_from (S e) (skipn (S e) pns)) ls
                       | Break ls => ret ls
                       end) st.
    Proof.
      assert (Hlt : (e < length pns)%nat) by (apply nth_error_Some; unfold pns; congruence).
      unfold enumerate. rewrite <- (firstn_skipn e pns) at 1.
      rewrite skip_prefix by (rewrite length_firstn; lia).
      rewrite length_firstn, Nat.min_l by lia. cbn [Nat.add].
      change (0 + Py.sum (map sq (firstn e pns))) with (offset pns e).
      assert (Hs : skipn e pns = pn_e :: skipn (S e) pns).
      { clear - He. unfold pns. revert e He.
        induction (patch_nums m) as [|a l IH]; intros [|e] He; try discriminate.
        - now injection He as ->.
        - cbn [skipn]. now apply IH. }
      rewrite Hs. reflexivity.
    Qed.

End Loops.

Section Refine.

Variable m : Ops.
Variable e : nat.
Variable pn_e : Z.
Hypothesis He : nth_error (patch_nums m) e = Some pn_e.

Variables (p : Start m) (B : nat) (cfg top_p : Qc) (top_k : Arg Z) (temp : Arg Qc)
              (more_smooth : bool) (cond_gss : list (Gss m)) (attn_bias : list (list bool)).

Let pns := patch_nums m.

Lemma bind_ext_l {X Y} (c c' : M m X) (k : X -> M m Y) (st : State m) :
      (forall st', c st' = c' st') -> bind c k st = bind c' k st.
    Proof. intros H. unfold bind. now rewrite H. Qed.

Lemma ratio_defined (si : nat) :
      (e < si)%nat -> (si < stages m)%nat -> exists r, ratio_of m si = Ok r.
    Proof.
      intros H1 H2. unfold ratio_of, nsm1, num_stages_minus_1, len. unfold stages in H2.
      destruct (Z.eqb_spec (Z.of_nat (length (patch_nums m)) - 1) 0); [lia|].
      eexists. reflexivity.
    Qed.

    (** After the re-entry scale a step of the refine loop is a step
        of the standard loop: backbone pass on the cache, CFG
        combination of the whole scale, one sampler call, with
        [top_k[si]] and [temp[si]]. *)
Lemma later_step (si : nat) (x : list (list (Vec m))) (st : State m) :
      (e < si)%nat -> (si < stages m)%nat ->
      bind (backbone m x cond_gss None)
           (fun h => later_scale m (sel p) B cfg top_p (subscript top_k (Z.of_nat si))
                                 (subscript temp (Z.of_nat si)) si (head m h (cond_BD p))) st
      = guided_sample m (sel p) B cfg top_p (subscript top_k (Z.of_nat si))
                      (subscript temp (Z.of_nat si)) cond_gss (cond_BD p) si x st.
    Proof.
      intros H1 H2. destruct (ratio_defined H1 H2) as [r Hr].
      unfold later_scale, guided_sample. rewrite Hr. cbv [bind lift].
      destruct (backbone m x cond_gss None st) as [[h|err] st']; reflexivity.
    Qed.

Lemma bind_assoc {X Y W} (c : M m X) (k : X -> M m Y) (k' : Y -> M m W) (st : State m) :
      bind (bind c k) k' st = bind c (fun a => bind (k a) k') st.
    Proof. unfold bind. destruct (c st) as [[a|err] st']; reflexivity. Qed.

Lemma inpaint_skips quant hub si pn ls st :
      (si < e)%nat ->
      inpaint_refine_body m quant p B cfg top_k top_p more_smooth hub (Z.of_nat e) temp
                          cond_gss attn_bias (si, pn) ls st
      = (Ok (Next (mkLoop m (cur_L ls + pn * pn) (f_hat ls) (next_token_map ls) [] [])), st).
    Proof.
      intros H. unfold inpaint_refine_body.
      destruct (Z.ltb_spec (Z.of_nat si) (Z.of_nat e)); [reflexivity|lia].
    Qed.

Lemma cfg_skips si pn ls st :
      (si < e)%nat ->
      cfg_refine_body m p B cfg top_k top_p more_smooth (Z.of_nat e) temp cond_gss attn_bias
                      (si, pn) ls st
      = (Ok (Next (mkLoop m (cur_L ls + pn * pn) (f_hat ls) (next_token_map ls) [] [])), st).
    Proof.
      intros H. unfold cfg_refine_body.
      destruct (Z.ltb_spec (Z.of_nat si) (Z.of_nat e)); [reflexivity|lia].
    Qed.

Lemma inpaint_later quant hub si pn ls st :
      (e < si)%nat -> (si < stages m)%nat ->
      inpaint_refine_body m quant p B cfg top_k top_p more_smooth hub (Z.of_nat e) temp
                          cond_gss attn_bias (si, pn) ls st
      = bind (guided_sample m (sel p) B cfg top_p (subscript top_k (Z.of_nat si))
                            (subscript temp (Z.of_nat si)) cond_gss (cond_BD p) si
                            (next_token_map ls))
             (fun r => finish_scale m quant (sel p) more_smooth B si pn (cur_L ls + pn * pn)
                                    (fst (fst r)) (snd (fst r)) (snd r) ls) st.
    Proof.
      intros H1 H2. unfold inpaint_refine_body.
      destruct (Z.ltb_spec (Z.of_nat si) (Z.of_nat e)); [lia|].
      destruct (Z.eqb_spec (Z.of_nat si) (Z.of_nat e)); [lia|].
      rewrite <- bind_assoc.
      etransitivity; [apply bind_ext_l; intros st'; now apply later_step|].
      apply bind_ext. intros [[r l] i] st'. reflexivity.
    Qed.

Lemma cfg_later si pn ls st :
      (e < si)%nat -> (si < stages m)%nat ->
      cfg_refine_body m p B cfg top_k top_p more_smooth (Z.of_nat e) temp cond_gss attn_bias
                      (si, pn) ls st
      = bind (guided_sample m (sel p) B cfg top_p (subscript top_k (Z.of_nat si))
                            (subscript temp (Z.of_nat si)) cond_gss (cond_BD p) si
                            (next_token_map ls))
             (fun r => finish_scale m (get_next_autoregressive_input m) (sel p) more_smooth B
                                    si pn (cur_L ls + pn * pn)
                                    (fst (fst r)) (snd (fst r)) (snd r) ls) st.
    Proof.
      intros H1 H2. unfold cfg_refine_body.
      destruct (Z.ltb_spec (Z.of_nat si) (Z.of_nat e)); [lia|].
      destruct (Z.eqb_spec (Z.of_nat si) (Z.of_nat e)); [lia|].
      rewrite <- bind_assoc.
      etransitivity; [apply bind_ext_l; intros st'; now apply later_step|].
      apply bind_ext. intros [[r l] i] st'. reflexivity.
    Qed.

Lemma infer_step quant si pn ls st :
      infer_body m quant p B cfg top_k top_p more_smooth cond_gss (si, pn) ls st
      = bind (guided_sample m (sel p) B cfg top_p (Ok top_k) (Ok ANone) cond_gss (cond_BD p) si
                            (next_token_map ls))
             (fun r => finish_scale m quant (sel p) more_smooth B si pn (cur_L ls + pn * pn)
                                    (fst (fst r)) (snd (fst r)) (snd r) ls) st.
    Proof.
      unfold infer_body, finish_scale. apply bind_ext. intros [[r l] i] st'. reflexivity.
    Qed.

Lemma entry_cur_L : offset pns e + pn_e * pn_e = offset pns (S e).
    Proof. unfold pns. rewrite (offset_succ _ _ He), sq_mul. reflexivity. Qed.

Lemma inpaint_entry_step quant hub f x st :
      inpaint_refine_body m quant p B cfg top_k top_p more_smooth hub (Z.of_nat e) temp
                          cond_gss attn_bias (e, pn_e) (mkLoop m (offset pns e) f x [] []) st
      = bind (backbone m x cond_gss (Some attn_bias))
             (fun h =>
                bind (bind (lift (inpaint_entry_logits m B cfg e pn_e (offset pns (S e)) hub
                                                       (head m h (cond_BD p))))
                           (fun rl =>
                              bind (sample_each m (sel p) top_k top_p (subscript temp)
                                                (map (fun a => (a, scale_logits m B (snd rl) a))
                                                     (seq 0 (S e))) None)
                                   (fun idx =>
                                      bind (lift_opt UnboundLocalError idx)
                                           (fun idx_Bl => ret (fst rl, snd rl, idx_Bl)))))
                     (fun r => finish_scale m quant (sel p) more_smooth B e pn_e
                                            (offset pns (S e)) (fst (fst r)) (snd (fst r))
                                            (snd r) (mkLoop m (offset pns e) f x [] []))) st.
    Proof.
      unfold inpaint_refine_body. rewrite Z.ltb_irrefl, Z.eqb_refl.
      cbn [cur_L f_hat next_token_map]. rewrite entry_cur_L.
      apply bind_ext. intros h st1.
      etransitivity;
        [apply bind_ext_l; intros st2|apply bind_ext; intros [[r l] i] st2; reflexivity].
      apply bind_ext. intros [r l] st3. cbn [fst snd].
      apply bind_ext_l. intros st4. apply (@sample_scales_entry m B e pn_e He).
    Qed.

Lemma cfg_entry_step f x st :
      cfg_refine_body m p B cfg top_k top_p more_smooth (Z.of_nat e) temp cond_gss attn_bias
                      (e, pn_e) (mkLoop m (offset pns e) f x [] []) st
      = bind (backbone m x cond_gss (Some attn_bias))
             (fun h =>
                bind (bind (lift (cfg_entry_logits m B cfg e pn_e (offset pns (S e))
                                                   (head m h (cond_BD p))))
                           (fun rl =>
                              bind (sample_each m (sel p) top_k top_p (subscript temp)
                                                (map (fun a => (a, scale_logits m B (snd rl) a))
                                                     (seq 0 (S e))) None)
                                   (fun idx =>
                                      bind (lift_opt UnboundLocalError idx)
                                           (fun idx_Bl =>
                                              ret (fst rl, scale_logits m B (snd rl) e,
                                                   idx_Bl)))))
                     (fun r => finish_scale m (get_next_autoregressive_input m) (sel p)
                                            more_smooth B e pn_e (offset pns (S e))
                                            (fst (fst r)) (snd (fst r)) (snd r)
                                            (mkLoop m (offset pns e) f x [] []))) st.
    Proof.
      unfold cfg_refine_body. rewrite Z.ltb_irrefl, Z.eqb_refl.
      cbn [cur_L f_hat next_token_map]. rewrite entry_cur_L.
      apply bind_ext. intros h st1.
      etransitivity;
        [apply bind_ext_l; intros st2|apply bind_ext; intros [[r l] i] st2; reflexivity].
      apply bind_ext. intros [r l] st3. cbn [fst snd].
      etransitivity; [apply bind_ext_l; intros st4; apply (@sample_scales_entry m B e pn_e He)|].
      apply bind_ext. intros idx st4. apply bind_ext. intros idx_Bl st5.
      unfold scale_logits. fold pns.
      replace (offset pns (S e) - pn_e * pn_e) with (offset pns e)
        by (rewrite <- entry_cur_L; lia).
      reflexivity.
    Qed.


End Refine.



End RefinePf.

(** ** The level buffer and the training mask built by [__init__] *)

Module LevelPf.

Import Py Schedule SchedulePf.

Lemma lvl_from_cons (k : nat) (a : Z) (r : list Z) :
    flat_map (fun '(i, pn) => repeat (Z.of_nat i) (Z.to_nat (pn * pn)))
             (enumerate_from k (a :: r))
    = repeat (Z.of_nat k) (Z.to_nat (a * a))
      ++ flat_map (fun '(i, pn) => repeat (Z.of_nat i) (Z.to_nat (pn * pn)))
                  (enumerate_from (S k) r).
  Proof. reflexivity. Qed.

Lemma sq_to_nat (a : Z) : Z.of_nat (Z.to_nat (a * a)) = sq a.
  Proof. unfold sq. nia. Qed.

Lemma lvl_from_length (k : nat) (pns : list Z) :
    len (flat_map (fun '(i, pn) => repeat (Z.of_nat i) (Z.to_nat (pn * pn)))
                  (enumerate_from k pns)) = L pns.
  Proof.
    revert k. induction pns as [|a r IH]; intros k.
    - reflexivity.
    - rewrite lvl_from_cons. unfold len in *. rewrite length_app, repeat_length, Nat2Z.inj_add.
      rewrite IH, sq_to_nat. unfold L. cbn [map]. now rewrite sum_cons.
  Qed.

Lemma lvl_from_nth (pns : list Z) (k i p : nat) :
    offset pns i <= Z.of_nat p < offset pns (S i) ->
    nth_error (flat_map (fun '(i, pn) => repeat (Z.of_nat i) (Z.to_nat (pn * pn)))
                        (enumerate_from k pns)) p
    = Some (Z.of_nat (k + i)).
  Proof.
    revert k i p. induction pns as [|a r IH]; intros k i p H.
    - unfold offset in H. rewrite !firstn_nil in H. cbn in H. lia.
    - rewrite lvl_from_cons. pose proof (sq_to_nat a) as Ha.
      destruct i as [|i].
      + rewrite offset_0, offset_cons, offset_0 in H.
        rewrite nth_error_app1 by (rewrite repeat_length; lia).
        rewrite nth_error_repeat by lia. now rewrite Nat.add_0_r.
      + rewrite !offset_cons in H.
        pose proof (@offset_le r 0 i ltac:(lia)) as H0. rewrite offset_0 in H0.
        rewrite nth_error_app2 by (rewrite repeat_length; lia).
        rewrite repeat_length, (IH (S k) i) by lia. f_equal. lia.
  Qed.

  (** X1.  The level buffer [lvl_1L] has one entry per position of the
      schedule, [L] in all, and the entry of a position is the index of
      the scale whose block contains it: positions
      [offset[i] .. offset[i+1] - 1] carry level [i], and no position
      carries anything else. *)
Theorem lvl_1L_levels (patch_nums : list Z) :
    len (lvl_1L patch_nums) = L patch_nums
    /\ (forall i p : nat,
           offset patch_nums i <= Z.of_nat p < offset patch_nums (S i) ->
           nth_error (lvl_1L patch_nums) p = Some (Z.of_nat i))
    /\ (forall (p : nat) (lv : Z),
           nth_error (lvl_1L patch_nums) p = Some lv ->
           exists i : nat, (i < length patch_nums)%nat /\ lv = Z.of_nat i
                           /\ offset patch_nums i <= Z.of_nat p < offset patch_nums (S i)).
  Proof.
    split; [apply lvl_from_length|]. split.
    - intros i p H. unfold lvl_1L, enumerate. now rewrite (@lvl_from_nth patch_nums 0 i p H).
    - intros p lv H.
      assert (Hp : Z.of_nat p < L patch_nums).
      { rewrite <- (lvl_from_length 0). unfold len.
        apply Nat2Z.inj_lt, nth_error_Some. unfold lvl_1L, enumerate in H. congruence. }
      rewrite <- offset_all in Hp.
      destruct (@block_of_position patch_nums (Z.of_nat p) (length patch_nums)) as (i & Hi & Hb);
        [lia|].
      exists i. split; [exact Hi|]. split; [|exact Hb].
      unfold lvl_1L, enumerate in H. rewrite (@lvl_from_nth patch_nums 0 i p Hb) in H.
      now injection H as <-.
  Qed.

Lemma lvl_1L_levels_witness :
    nth_error (lvl_1L default_patch_nums) 13 = Some 2
    /\ nth_error (lvl_1L default_patch_nums) 14 = Some 3.
  Proof.
    split.
    - refine (proj1 (proj2 (lvl_1L_levels default_patch_nums)) 2%nat 13%nat _).
      vm_compute. split; [discriminate|reflexivity].
    - refine (proj1 (proj2 (lvl_1L_levels default_patch_nums)) 3%nat 14%nat _).
      vm_compute. split; [discriminate|reflexivity].
  Defined.

  (** X2.  The training mask [attn_bias_for_masking] is an [L] by [L]
      table that is causal by blocks: a position of scale [i] may attend
      to position [q] exactly when [q] lies before the end of scale [i],
      that is to every position of its own and of the earlier scales and
      to none of a later scale. *)
Theorem attn_bias_block_causal (patch_nums : list Z) (i p q : nat) :
    offset patch_nums i <= Z.of_nat p < offset patch_nums (S i) ->
    Z.of_nat q < L patch_nums ->
    len (attn_bias_for_masking patch_nums) = L patch_nums
    /\ exists row, nth_error (attn_bias_for_masking patch_nums) p = Some row
                   /\ len row = L patch_nums
                   /\ nth_error row q = Some (Z.of_nat q <? offset patch_nums (S i)).
  Proof.
    intros Hp Hq.
    assert (Hlen : len (lvl_1L patch_nums) = L patch_nums) by apply lvl_from_length.
    assert (Hlv : forall i p : nat,
               offset patch_nums i <= Z.of_nat p < offset patch_nums (S i) ->
               nth_error (lvl_1L patch_nums) p = Some (Z.of_nat i)).
    { intros i0 p0 H. unfold lvl_1L, enumerate.
      now rewrite (@lvl_from_nth patch_nums 0 i0 p0 H). }
    unfold attn_bias_for_masking. split.
    - unfold len in *. now rewrite length_map.
    - rewrite nth_error_map, (Hlv i p Hp). cbn [option_map].
      eexists. split; [reflexivity|]. split.
      + unfold len in *. now rewrite length_map.
      + rewrite <- offset_all in Hq.
        destruct (@block_of_position patch_nums (Z.of_nat q) (length patch_nums)) as (j & Hj & Hb);
          [lia|].
        rewrite nth_error_map, (Hlv j q Hb). cbn [option_map]. f_equal.
        destruct (Z.leb_spec (Z.of_nat j) (Z.of_nat i)) as [Hji|Hji],
                 (Z.ltb_spec (Z.of_nat q) (offset patch_nums (S i))) as [Hlt|Hge];
          try reflexivity.
        * pose proof (@offset_le patch_nums (S j) (S i) ltac:(lia)). lia.
        * pose proof (@offset_le patch_nums (S i) j ltac:(lia)). lia.
  Qed.

Lemma attn_bias_block_causal_witness :
    exists row, nth_error (attn_bias_for_masking [1; 2; 3]) 2 = Some row
                /\ nth_error row 4 = Some true
                /\ nth_error row 5 = Some false.
  Proof.
    destruct (@attn_bias_block_causal [1; 2; 3] 1 2 4) as (_ & row & Hr & _ & H4).
    { vm_compute. split; [discriminate|reflexivity]. }
    { vm_compute. reflexivity. }
    exists row. split; [exact Hr|]. split; [exact H4|].
    vm_compute in Hr. injection Hr as <-. reflexivity.
  Defined.

Lemma sum_sq_le_sq_sum (l : list Z) :
    Forall (fun pn => 0 < pn) l ->
    0 <= Py.sum l
    /\ (l <> [] -> 0 < Py.sum l)
    /\ Py.sum (map sq l) <= (Py.sum l) ^ 2
    /\ ((Py.sum l) ^ 2 = Py.sum (map sq l) <-> (length l <= 1)%nat).
  Proof.
    induction 1 as [|a r Ha _ IH].
    - cbn. repeat split; try lia. intros []; reflexivity.
    - destruct IH as (H0 & Hpos & Hle & Hiff).
      cbn [map length]. rewrite !sum_cons. unfold sq in *.
      split; [lia|]. split; [lia|]. split; [nia|].
      destruct r as [|b r].
      + cbn. split; [lia|]. intros _. change (Py.sum []) with 0. lia.
      + specialize (Hpos ltac:(discriminate)). cbn [length]. split; [|lia].
        intros E. exfalso. nia.
  Qed.

  (** X3.  The start position [sum(self.patch_nums[:scale_idx])**2]
      used by [compute_nll] is never before the start of scale
      [scale_idx] in the schedule, and the two coincide exactly when at
      most one side length enters the sum: for [scale_idx <= 1] or a
      schedule of one scale. *)
Theorem nll_offset_meets_offset (patch_nums : list Z) (scale_idx : nat)
          (Hpos : Forall (fun pn => 0 < pn) patch_nums) :
    offset patch_nums scale_idx <= nll_offset patch_nums (Z.of_nat scale_idx)
    /\ (nll_offset patch_nums (Z.of_nat scale_idx) = offset patch_nums scale_idx
        <-> (scale_idx <= 1)%nat \/ (length patch_nums <= 1)%nat).
  Proof.
    unfold nll_offset, offset. rewrite RefinePf.slice_to_firstn.
    assert (H : Forall (fun pn => 0 < pn) (firstn scale_idx patch_nums)).
    { rewrite <- (firstn_skipn scale_idx patch_nums) in Hpos.
      now apply Forall_app in Hpos. }
    destruct (sum_sq_le_sq_sum H) as (_ & _ & Hle & Hiff).
    split; [exact Hle|]. rewrite Hiff, length_firstn. lia.
  Qed.

Lemma nll_offset_meets_offset_witness :
    Forall (fun pn => 0 < pn) default_patch_nums
    /\ offset default_patch_nums 6 <= nll_offset default_patch_nums 6
    /\ nll_offset default_patch_nums 1 = offset default_patch_nums 1.
  Proof.
    assert (H : Forall (fun pn => 0 < pn) default_patch_nums)
      by (unfold default_patch_nums; repeat constructor).
    split; [exact H|]. split.
    - exact (proj1 (@nll_offset_meets_offset default_patch_nums 6 H)).
    - apply (proj2 (@nll_offset_meets_offset default_patch_nums 1 H)). left. lia.
  Defined.

End LevelPf.


(** ** What a generation call needs in order to return *)

Module RunPf.

Import Py Tensor Var Gen Props.
Local Open Scope var_scope.

Lemma subscript_ok {A} (a : Arg A) (j : nat) (x : Arg A) :
    subscript a (Z.of_nat j) = Ok x -> exists l, a = ASeq l /\ (j < length l)%nat.
  Proof.
    destruct a as [|z|l]; cbn; try discriminate.
    rewrite RefinePf.index_nat. destruct (nth_error l j) eqn:E; [|discriminate].
    intros _. exists l. split; [reflexivity|]. apply nth_error_Some. congruence.
  Qed.

Lemma cat1_ok {A} (ts : list (list (list A))) (t : list (list A)) :
    cat1 ts = Ok t -> ts <> [].
  Proof. destruct ts; [discriminate|discriminate]. Qed.

Section WithModel.

Variable m : Ops.

Lemma bind_ok {A B} (c : M m A) (k : A -> M m B) (st st' : State m) (b : B) :
      bind c k st = (Ok b, st') ->
      exists a st1, c st = (Ok a, st1) /\ k a st1 = (Ok b, st').
    Proof.
      unfold bind. destruct (c st) as [[a|e] st1]; [|discriminate].
      intros H. exists a, st1. auto.
    Qed.

Lemma lift_ok {A} (r : Res A) (st st' : State m) (a : A) :
      lift r st = (Ok a, st') -> r = Ok a /\ st' = st.
    Proof. unfold lift. intros [= -> <-]. auto. Qed.

Lemma lift_opt_ok {A} (e : Err) (o : option A) (st st' : State m) (a : A) :
      lift_opt e o st = (Ok a, st') -> o = Some a /\ st' = st.
    Proof. unfold lift_opt. destruct o; intros [= <- <-]; auto. Qed.

Lemma ret_ok {A} (a b : A) (st st' : State m) :
      ret a st = (Ok b, st') -> b = a /\ st' = st.
    Proof. unfold ret. intros [= <- <-]. auto. Qed.

Lemma ratio_ok (si : nat) (ratio : Qc) : ratio_of m si = Ok ratio -> nsm1 m <> 0.
    Proof. unfold ratio_of. destruct (Z.eqb_spec (nsm1 m) 0); [discriminate|auto]. Qed.

Lemma guided_sample_ok sel B cfg top_p k tmp cond_gss cond_BD si x st r st' :
      guided_sample m sel B cfg top_p k tmp cond_gss cond_BD si x st = (Ok r, st') ->
      nsm1 m <> 0 /\ (exists k', k = Ok k') /\ (exists t, tmp = Ok t).
    Proof.
      unfold guided_sample. intros H.
      apply bind_ok in H. destruct H as (ratio & st1 & E1 & H).
      apply lift_ok in E1. destruct E1 as [E1 _].
      apply bind_ok in H. destruct H as (h & st2 & _ & H).
      apply bind_ok in H. destruct H as (logits & st3 & _ & H).
      apply bind_ok in H. destruct H as (k' & st4 & E4 & H).
      apply lift_ok in E4. destruct E4 as [E4 _].
      apply bind_ok in H. destruct H as (t & st5 & E5 & H).
      apply lift_ok in E5. destruct E5 as [E5 _].
      split; [eapply ratio_ok; eauto|]. split; eauto.
    Qed.

Lemma embed_next_ok cur_L si tokens st x st' :
      embed_next m cur_L si tokens st = (Ok x, st') ->
      (S si < length (patch_nums m))%nat.
    Proof.
      unfold embed_next. intros H.
      apply bind_ok in H. destruct H as (pn1 & st1 & E1 & _).
      apply lift_opt_ok in E1. destruct E1 as [E1 _].
      replace (Z.of_nat si + 1) with (Z.of_nat (S si)) in E1 by lia.
      rewrite RefinePf.index_nat in E1. apply nth_error_Some. congruence.
    Qed.

Lemma draft_body_ok quant p B cfg top_k top_p more_smooth exit_num temp cond_gss si pn ls
          st c st' :
      draft_body m quant p B cfg top_k top_p more_smooth exit_num temp cond_gss (si, pn) ls st
      = (Ok c, st') ->
      (Z.of_nat si = exit_num /\ c = Break ls)
      \/ (Z.of_nat si <> exit_num
          /\ (exists ls', c = Next ls'
                          /\ length (token_hub ls') = S (length (token_hub ls))
                          /\ length (logits_hub ls') = S (length (logits_hub ls)))
          /\ (exists k, subscript top_k (Z.of_nat si) = Ok k)
          /\ (exists t, subscript temp (Z.of_nat si) = Ok t)
          /\ (S si < length (patch_nums m))%nat).
    Proof.
      unfold draft_body. destruct (Z.eqb_spec (Z.of_nat si) exit_num) as [E|E]; intros H.
      - apply ret_ok in H. destruct H as [-> _]. left. auto.
      - right. split; [exact E|].
        apply bind_ok in H. destruct H as ([[ratio logits] idx] & st1 & E1 & H).
        apply guided_sample_ok in E1. destruct E1 as (_ & Hk & Ht).
        apply bind_ok in H. destruct H as (e & st2 & _ & H).
        apply bind_ok in H. destruct H as ([f_hat resid] & st3 & _ & H).
        apply bind_ok in H. destruct H as (tokens & st4 & _ & H).
        apply bind_ok in H. destruct H as (x & st5 & E5 & H).
        apply embed_next_ok in E5.
        apply ret_ok in H. destruct H as [-> _].
        split; [|auto].
        eexists. split; [reflexivity|]. cbn [token_hub logits_hub].
        rewrite !length_app. cbn [length]. lia.
    Qed.

Lemma draft_loop_ok quant p B cfg top_k top_p more_smooth exit_num temp cond_gss
          (l : list Z) :
      forall (k : nat) (s : Loop m) (st : State m) (ls : Loop m) (st' : State m),
        (k + length l)%nat = length (patch_nums m) ->
        for_loop (draft_body m quant p B cfg top_k top_p more_smooth exit_num temp cond_gss)
                 (enumerate_from k l) s st = (Ok ls, st') ->
        (l = [] /\ ls = s)
        \/ (exists si : nat,
               (k <= si < k + length l)%nat /\ Z.of_nat si = exit_num
               /\ length (token_hub ls) = (length (token_hub s) + (si - k))%nat
               /\ length (logits_hub ls) = (length (logits_hub s) + (si - k))%nat
               /\ forall j : nat, (k <= j < si)%nat ->
                                  (exists x, subscript top_k (Z.of_nat j) = Ok x)
                                  /\ (exists t, subscript temp (Z.of_nat j) = Ok t)).
    Proof.
      induction l as [|a r IH]; intros k s st ls st' Hk H.
      - left. cbn in H. apply ret_ok in H. tauto.
      - right. cbn [enumerate_from for_loop] in H.
        apply bind_ok in H. destruct H as (c & st1 & E1 & H).
        apply draft_body_ok in E1.
        destruct E1 as [[Ex ->]|(Hne & (ls1 & -> & Hh & Hg) & Hks & Hts & Hnext)].
        + apply ret_ok in H. destruct H as [-> _].
          exists k. cbn [length].
          split; [lia|]. split; [exact Ex|]. split; [lia|]. split; [lia|].
          intros j Hj. lia.
        + cbn [length] in Hk.
          destruct (IH (S k) ls1 st1 ls st' ltac:(lia) H)
            as [[-> _]|(si & Hsi & Ex & Hh' & Hg' & Hall)].
          * cbn [length] in Hk. lia.
          * exists si. cbn [length].
            split; [lia|]. split; [exact Ex|]. split; [lia|]. split; [lia|].
            intros j Hj. destruct (Nat.eq_dec j k) as [->|Hjk]; [split; assumption|].
            apply Hall. lia.
    Qed.

Lemma zero_canvas_ok B st f st' :
      zero_canvas m B st = (Ok f, st') -> patch_nums m <> [] /\ st' = st.
    Proof.
      unfold zero_canvas. intros H.
      apply bind_ok in H. destruct H as (pn & st1 & E1 & H).
      apply lift_opt_ok in E1. destruct E1 as [E1 ->].
      apply ret_ok in H. destruct H as [_ ->].
      split; [|reflexivity]. intros E. rewrite E in E1. discriminate E1.
    Qed.

Lemma draft_conditions quant p B cfg top_k top_p more_smooth exit_num temp cond_gss
          f_hat0 x st ls st' :
      patch_nums m <> [] ->
      for_loop (draft_body m quant p B cfg top_k top_p more_smooth exit_num temp cond_gss)
               (enumerate (patch_nums m)) (mkLoop m 0 f_hat0 x [] []) st = (Ok ls, st') ->
      token_hub ls <> [] ->
      0 < exit_num < Z.of_nat (stages m)
      /\ (exists ks, top_k = ASeq ks /\ exit_num <= len ks)
      /\ (exists ts, temp = ASeq ts /\ exit_num <= len ts).
    Proof.
      intros Hne H Hhub. unfold enumerate in H.
      apply draft_loop_ok in H; [|reflexivity].
      destruct H as [[E _]|(si & Hsi & Ex & Hh & _ & Hall)]; [contradiction|].
      cbn [token_hub length] in Hh.
      assert (Hpos : (0 < si)%nat).
      { destruct si; [|lia]. destruct (token_hub ls); [contradiction|discriminate]. }
      destruct (Hall (si - 1)%nat ltac:(lia)) as [[k Hk] [t Ht]].
      apply subscript_ok in Hk, Ht.
      destruct Hk as (ks & -> & Hks). destruct Ht as (ts & -> & Hts).
      unfold stages, len. split; [lia|]. split; eexists; (split; [reflexivity|lia]).
    Qed.

    (** X4.  A draft call returns only when it was asked to stop
        strictly inside the schedule and was given per-scale sampling
        arguments: [0 < exit_num < len(patch_nums)], and [top_k] and
        [temp] are sequences with an entry for every scale below
        [exit_num].  With [exit_num = 0] nothing is collected and
        [torch.cat] refuses the empty token hub; with [exit_num] at or
        beyond the number of scales (or negative) the loop reaches the
        last scale, where [self.patch_nums[si+1]] does not exist; a
        number or [None] for [top_k] or [temp] cannot be subscripted. *)
Theorem draft_returns_inside_schedule
            B label_B g_seed cfg top_k top_p more_smooth exit_num temp f_hats mask_in mask_out
            (st : State m) :
      (forall r st',
          autoregressive_infer_cfg_draft m B label_B g_seed cfg top_k top_p more_smooth
                                         exit_num temp st = (Ok r, st') ->
          0 < exit_num < Z.of_nat (stages m)
          /\ (exists ks, top_k = ASeq ks /\ exit_num <= len ks)
          /\ (exists ts, temp = ASeq ts /\ exit_num <= len ts))
      /\ (forall r st',
             autoregressive_inpaint_draft m B label_B g_seed cfg top_k top_p more_smooth
                                          exit_num f_hats mask_in mask_out temp st
             = (Ok r, st') ->
             0 < exit_num < Z.of_nat (stages m)
             /\ (exists ks, top_k = ASeq ks /\ exit_num <= len ks)
             /\ (exists ts, temp = ASeq ts /\ exit_num <= len ts)).
    Proof.
      split; intros r st' H.
      - unfold autoregressive_infer_cfg_draft in H.
        apply bind_ok in H. destruct H as (p & st1 & _ & H).
        apply bind_ok in H. destruct H as (f_hat0 & st2 & E2 & H).
        apply zero_canvas_ok in E2. destruct E2 as [Hne _].
        apply bind_ok in H. destruct H as (u & st3 & _ & H).
        apply bind_ok in H. destruct H as (ls & st4 & E4 & H).
        apply bind_ok in H. destruct H as (hub & st5 & E5 & H).
        apply lift_ok in E5. destruct E5 as [E5 _]. apply cat1_ok in E5.
        eapply draft_conditions; eauto.
      - unfold autoregressive_inpaint_draft in H.
        apply bind_ok in H. destruct H as (p & st1 & _ & H).
        apply bind_ok in H. destruct H as (f_hat0 & st2 & E2 & H).
        apply zero_canvas_ok in E2. destruct E2 as [Hne _].
        apply bind_ok in H. destruct H as (pn_last & st3 & _ & H).
        apply bind_ok in H. destruct H as (u & st4 & _ & H).
        apply bind_ok in H. destruct H as (ls & st5 & E5 & H).
        apply bind_ok in H. destruct H as (hub & st6 & E6 & H).
        apply lift_ok in E6. destruct E6 as [E6 _]. apply cat1_ok in E6.
        eapply draft_conditions; eauto.
    Qed.

End WithModel.

Lemma draft_returns_inside_schedule_witness :
    0 < 2 < Z.of_nat (stages Toy.m3)
    /\ (exists ks, Toy.top_k3 = ASeq ks /\ 2 <= len ks)
    /\ (exists ts, Toy.temp3 = ASeq ts /\ 2 <= len ts).
  Proof.
    assert (E : autoregressive_infer_cfg_draft Toy.m3 1 (LabelInt 0) None Toy.cfg15 Toy.top_k3
                                               0%Qc false 2 Toy.temp3 (Toy.fresh Toy.m3 0 0)
                = (Ok ([4], [[0; 0; 0; 0; 4; 4; 4; 4; 4; 4; 4; 4; 4]]), Toy.fresh Toy.m3 0 2))
      by (vm_compute; reflexivity).
    exact (proj1 (draft_returns_inside_schedule
                    (m := Toy.m3) 1 (LabelInt 0) None Toy.cfg15 Toy.top_k3 0%Qc false 2
                    Toy.temp3 tt tt tt (Toy.fresh Toy.m3 0 0)) _ _ E).
  Defined.

End RunPf.

(** ** Edge cases of the generation calls *)

Module EdgePf.

Import Py Tensor Var Gen Props RunPf.
Local Open Scope var_scope.

Lemma expand_rows_mismatch {A} (n k : nat) (t : list A) :
    length t <> n -> length t <> 1%nat -> expand_rows n k t = Raise RuntimeError.
  Proof.
    intros Hn H1. unfold expand_rows.
    destruct (Nat.eqb_spec (length t) n) as [E|_]; [contradiction|].
    destruct t as [|a [|b t]]; try reflexivity. cbn in H1. lia.
  Qed.

Section WithModel.

Variable m : Ops.

Lemma bind_raise {A B} (c : M m A) (k : A -> M m B) (st st' : State m) (e : Err) :
      c st = (Raise e, st') -> bind c k st = (Raise e, st').
    Proof. unfold bind. now intros ->. Qed.

Lemma bind_step {A B} (c : M m A) (k : A -> M m B) (st st' : State m) (a : A) :
      c st = (Ok a, st') -> bind c k st = k a st'.
    Proof. unfold bind. now intros ->. Qed.

Lemma set_kv_step {B} (enable : bool) (k : unit -> M m B) (st : State m) :
      bind (set_kv_caching m enable) k st
      = k tt (mkState m (rng st) (default_rng st) (map (kv_caching enable) (blocks st))).
    Proof. reflexivity. Qed.

Lemma lift_opt_step {A B} (e : Err) (o : option A) (a : A) (k : A -> M m B) (st : State m) :
      o = Some a -> bind (lift_opt e o) k st = k a st.
    Proof. now intros ->. Qed.

Lemma first_l_some : patch_nums m <> [] -> exists fl, Schedule.first_l (patch_nums m) = Some fl.
    Proof.
      intros H. unfold Schedule.first_l. destruct (patch_nums m) as [|a r]; [contradiction|].
      eexists. reflexivity.
    Qed.

    (** The state a call is in once its generator has been chosen. *)
Lemma start_label_mismatch (B : nat) (l : list Z) (g_seed : option Z) (st : State m) :
      patch_nums m <> [] -> length l <> B ->
      exists st', start m B (LabelTensor l) g_seed st = (Raise RuntimeError, st')
                  /\ blocks st' = blocks st /\ default_rng st' = default_rng st.
    Proof.
      intros Hne Hl. destruct (first_l_some Hne) as [fl Hfl].
      assert (H : forall sel s, start_from m sel B (LabelTensor l) s = (Raise RuntimeError, s)).
      { intros sel s. unfold start_from, resolve_label.
        cbv [bind ret lift_opt lift]. rewrite Hfl.
        rewrite expand_rows_mismatch; [reflexivity| |];
          rewrite length_map, length_app, length_map; lia. }
      unfold start. destruct g_seed as [g|]; cbv [bind seed_rng]; rewrite H; eexists; eauto.
    Qed.

    (** X5.  A tensor of labels whose length is not the batch size [B]
        is refused by every generation call: [sos] has twice as many
        rows as there are labels and cannot be expanded to [2 * B]
        rows, so the call raises [RuntimeError] before it touches the
        caches of the blocks. *)
Theorem label_tensor_of_wrong_length
            (B : nat) (l : list Z) (st : State m)
            (Hscales : patch_nums m <> [])
            (Hclasses : Forall (fun c => 0 <= c <= num_classes m) l)
            (Hlen : length l <> B)
            g_seed cfg top_k top_p more_smooth exit_num entry_num temp draft f_hat0
            logits_hub f_hats mask_in mask_out beamwidth :
      let refused {A} (c : M m A) :=
        fst (c st) = Raise RuntimeError /\ blocks (snd (c st)) = blocks st in
      refused (autoregressive_infer_cfg m B (LabelTensor l) g_seed cfg top_k top_p more_smooth)
      /\ refused (autoregressive_infer_inpaint m B (LabelTensor l) g_seed cfg top_k top_p
                                               more_smooth f_hats mask_in mask_out)
      /\ refused (autoregressive_infer_cfg_draft m B (LabelTensor l) g_seed cfg top_k top_p
                                                 more_smooth exit_num temp)
      /\ refused (autoregressive_inpaint_draft m B (LabelTensor l) g_seed cfg top_k top_p
                                               more_smooth exit_num f_hats mask_in mask_out
                                               temp)
      /\ refused (autoregressive_inpaint_refine m B (LabelTensor l) g_seed cfg top_k top_p
                                                more_smooth draft f_hat0 logits_hub entry_num
                                                f_hats mask_in mask_out temp)
      /\ refused (autoregressive_infer_cfg_refine m B (LabelTensor l) g_seed cfg top_k top_p
                                                  more_smooth draft f_hat0 entry_num temp)
      /\ refused (autoregressive_infer_cfg_mid m B (LabelTensor l) g_seed cfg top_k top_p
                                               more_smooth draft f_hat0 entry_num)
      /\ refused (autoregressive_infer_cfg_draft_beamsearch
                    m B (LabelTensor l) g_seed cfg top_k top_p more_smooth exit_num temp
                    beamwidth).
    Proof.
      intros refused. subst refused. cbv beta.
      destruct (@start_label_mismatch B l g_seed st Hscales Hlen) as (st' & E & Hb & _).
      unfold autoregressive_infer_cfg, autoregressive_infer_inpaint,
        autoregressive_infer_cfg_draft, autoregressive_inpaint_draft,
        autoregressive_inpaint_refine, autoregressive_infer_cfg_refine,
        autoregressive_infer_cfg_mid, autoregressive_infer_cfg_draft_beamsearch.
      repeat (erewrite bind_raise; [|exact E]). cbn [fst snd]. repeat split; auto.
    Qed.

Lemma index_last {A} (l : list A) : l <> [] -> exists a, index l (-1) = Some a.
    Proof.
      intros H. unfold index, len.
      destruct l as [|x r]; [contradiction|]. cbn [length].
      destruct (Z.leb_spec 0 (-1)); [lia|]. cbn [andb].
      destruct (Z.leb_spec (- Z.of_nat (S (length r))) (-1)); [|lia]. cbn [Z.ltb Z.compare andb].
      destruct (nth_error (x :: r) (Z.to_nat (Z.of_nat (S (length r)) + -1))) eqn:E; eauto.
      apply nth_error_None in E. cbn [length] in E. lia.
    Qed.

Lemma zero_canvas_some (B : nat) :
      patch_nums m <> [] ->
      exists f, forall st : State m, zero_canvas m B st = (Ok f, st).
    Proof.
      intros H. destruct (index_last H) as [a Ha].
      exists (repeat (new_zeros m a) B). intros st.
      unfold zero_canvas. cbv [bind lift_opt ret]. now rewrite Ha.
    Qed.

Lemma infer_body_zero_div quant p B cfg top_k top_p more_smooth cond_gss it ls
          (st : State m) :
      nsm1 m = 0 ->
      infer_body m quant p B cfg top_k top_p more_smooth cond_gss it ls st
      = (Raise ZeroDivisionError, st).
    Proof.
      intros H0. unfold infer_body. destruct it as [si pn].
      apply bind_raise. unfold guided_sample. apply bind_raise.
      unfold lift, ratio_of. now rewrite H0.
    Qed.

Lemma one_scale : stages m = 1%nat ->
      nsm1 m = 0 /\ patch_nums m <> []
      /\ exists pn, enumerate (patch_nums m) = [(0%nat, pn)].
    Proof.
      unfold stages, nsm1, Schedule.num_stages_minus_1, len. intros H.
      split; [lia|]. destruct (patch_nums m) as [|a [|b r]]; try discriminate.
      split; [discriminate|]. exists a. reflexivity.
    Qed.

    (** X6.  On a schedule of a single scale the standard decoding
        calls cannot produce an image: [num_stages_minus_1] is 0 and
        [ratio = si / self.num_stages_minus_1] divides by it at the
        first scale.  Once the prologue has succeeded the call raises
        [ZeroDivisionError], before any backbone pass and with the
        caching of every block left enabled. *)
Theorem single_scale_never_decodes
            B label_B g_seed cfg top_k top_p more_smooth f_hats mask_in mask_out
            (st : State m) (Hone : stages m = 1%nat) :
      (forall p st1,
          start m B label_B g_seed st = (Ok p, st1) ->
          let st2 := mkState m (rng st1) (default_rng st1)
                             (map (kv_caching true) (blocks st1)) in
          autoregressive_infer_cfg m B label_B g_seed cfg top_k top_p more_smooth st
          = (Raise ZeroDivisionError, st2)
          /\ autoregressive_infer_inpaint m B label_B g_seed cfg top_k top_p more_smooth
                                          f_hats mask_in mask_out st
             = (Raise ZeroDivisionError, st2))
      /\ (forall img, fst (autoregressive_infer_cfg m B label_B g_seed cfg top_k top_p
                                                    more_smooth st) <> Ok img)
      /\ (forall img, fst (autoregressive_infer_inpaint m B label_B g_seed cfg top_k top_p
                                                        more_smooth f_hats mask_in mask_out st)
                      <> Ok img).
    Proof.
      destruct (one_scale Hone) as (H0 & Hne & pn & Hpn).
      destruct (zero_canvas_some B Hne) as [f Hf].
      destruct (index_last Hne) as [pl Hpl].
      assert (Hrun : forall p st1,
                 start m B label_B g_seed st = (Ok p, st1) ->
                 let st2 := mkState m (rng st1) (default_rng st1)
                                    (map (kv_caching true) (blocks st1)) in
                 autoregressive_infer_cfg m B label_B g_seed cfg top_k top_p more_smooth st
                 = (Raise ZeroDivisionError, st2)
                 /\ autoregressive_infer_inpaint m B label_B g_seed cfg top_k top_p
                                                 more_smooth f_hats mask_in mask_out st
                    = (Raise ZeroDivisionError, st2)).
      { intros p st1 E st2. split.
        - unfold autoregressive_infer_cfg. erewrite bind_step by exact E.
          unfold infer_main. erewrite bind_step by exact (Hf st1).
          rewrite set_kv_step.
          apply bind_raise. rewrite Hpn. cbn [for_loop].
          apply bind_raise, infer_body_zero_div, H0.
        - unfold autoregressive_infer_inpaint. erewrite bind_step by exact E.
          erewrite bind_step by exact (Hf st1).
          rewrite (lift_opt_step _ _ _ Hpl).
          rewrite set_kv_step.
          apply bind_raise. rewrite Hpn. cbn [for_loop].
          apply bind_raise, infer_body_zero_div, H0. }
      split; [exact Hrun|].
      split; intros img Himg.
      - destruct (start m B label_B g_seed st) as [[p|e] st1] eqn:E.
        + destruct (Hrun p st1 eq_refl) as [H _]. rewrite H in Himg. discriminate Himg.
        + unfold autoregressive_infer_cfg in Himg. erewrite bind_raise in Himg by exact E.
          discriminate Himg.
      - destruct (start m B label_B g_seed st) as [[p|e] st1] eqn:E.
        + destruct (Hrun p st1 eq_refl) as [_ H]. rewrite H in Himg. discriminate Himg.
        + unfold autoregressive_infer_inpaint in Himg. erewrite bind_raise in Himg by exact E.
          discriminate Himg.
    Qed.

End WithModel.

Lemma label_tensor_of_wrong_length_witness :
    fst (autoregressive_infer_cfg Toy.m3 1 (LabelTensor [3; 4]) None Toy.cfg15 (ANum 0) 0%Qc
                                  false (Toy.fresh Toy.m3 0 0))
    = Raise RuntimeError.
  Proof.
    refine (proj1 (proj1 (@label_tensor_of_wrong_length
                            Toy.m3 1 [3; 4] (Toy.fresh Toy.m3 0 0) _ _ _ None Toy.cfg15
                            (ANum 0) 0%Qc false 2 1 Toy.temp3 [] [] [] tt tt tt 2%nat))).
    - discriminate.
    - repeat constructor; vm_compute; discriminate.
    - cbn. lia.
  Defined.

Lemma single_scale_never_decodes_witness :
    autoregressive_infer_cfg Cases.m1 1 (LabelInt 0) None Toy.cfg15 (ANum 0) 0%Qc false
                             (Toy.fresh Cases.m1 0 0)
    = (Raise ZeroDivisionError, mkState Cases.m1 0 0 [mkAttn true []; mkAttn true []]).
  Proof.
    refine (proj1 (proj1 (@single_scale_never_decodes
                            Cases.m1 1 (LabelInt 0) None Toy.cfg15 (ANum 0) 0%Qc false tt tt tt
                            (Toy.fresh Cases.m1 0 0) eq_refl)
                         (mkStart Cases.m1 false [0; 10] [[0; 0; 0; 0]; [10; 10; 10; 10]])
                         (Toy.fresh Cases.m1 0 0) _)).
    vm_compute. reflexivity.
  Defined.

End EdgePf.

(** ** Re-entry beyond the schedule, and the exit scale of the beam search *)

Module SkipPf.

Import Py Tensor Var Gen Props RunPf EdgePf.
Local Open Scope var_scope.

Lemma enumerate_from_in {A} (l : list A) (k si : nat) (x : A) :
    In (si, x) (enumerate_from k l) -> (k <= si < k + length l)%nat.
  Proof.
    revert k. induction l as [|a r IH]; intros k H; cbn in H; [contradiction|].
    destruct H as [[= <- _]|H]; cbn [length]; [lia|].
    apply IH in H. lia.
  Qed.

Lemma fold_keeps {A S} (P : S -> Prop) (f : S -> A -> S) (items : list A) (s : S) :
    (forall s a, P s -> P (f s a)) -> P s -> P (fold_left f items s).
  Proof.
    intros Hf. revert s. induction items as [|a r IH]; intros s Hs; cbn; auto.
  Qed.

Section WithModel.

Variable m : Ops.

Lemma loop_skips {A S} (body : A -> S -> M m (Ctl S)) (skip : S -> A -> S)
          (items : list A) :
      (forall it, In it items ->
                  forall s st, body it s st = (Ok (Next (skip s it)), st)) ->
      forall s st, for_loop body items s st = (Ok (fold_left skip items s), st).
    Proof.
      induction items as [|a r IH]; intros H s st; cbn [for_loop fold_left].
      - reflexivity.
      - erewrite bind_step by (apply H; now left).
        apply IH. intros it Hit. apply H. now right.
    Qed.

Lemma refine_input_pure p draft entry_num (st : State m) :
      refine_input m p draft entry_num st = (fst (refine_input m p draft entry_num st), st).
    Proof.
      unfold refine_input. cbv [bind lift_opt lift ret].
      destruct (Schedule.pindex entry_num); [|reflexivity].
      destruct (add_pos _ _ _); [|reflexivity].
      destruct (cat1_pair _ _); reflexivity.
    Qed.

    (** The scales a refine pass steps over: only [cur_L] advances. *)
Lemma refine_skips (entry_num : Z) (body : nat * Z -> Loop m -> M m (Ctl (Loop m)))
          (f_hat0 : list (Canvas m)) (x : list (list (Vec m))) (st : State m) :
      Z.of_nat (stages m) <= entry_num ->
      (forall si pn ls st,
          Z.of_nat si < entry_num ->
          body (si, pn) ls st
          = (Ok (Next (mkLoop m (cur_L ls + pn * pn) (f_hat ls) (next_token_map ls) [] [])),
             st)) ->
      exists ls, for_loop body (enumerate (patch_nums m)) (mkLoop m 0 f_hat0 x [] []) st
                 = (Ok ls, st)
                 /\ f_hat ls = f_hat0.
    Proof.
      intros Hent Hbody.
      rewrite (loop_skips body
                 (fun ls it => mkLoop m (cur_L ls + snd it * snd it) (f_hat ls)
                                      (next_token_map ls) [] [])).
      - eexists. split; [reflexivity|].
        apply (fold_keeps (fun ls => f_hat ls = f_hat0)); auto.
      - intros [si pn] Hin s st0. apply Hbody.
        apply enumerate_from_in in Hin. unfold stages in Hent. lia.
    Qed.

    (** X7.  A refine or mid pass whose re-entry index is at or beyond
        the number of scales (the table of re-entry counts accepts
        indices up to 9 whatever the schedule) steps over every scale:
        once its prologue has succeeded it samples nothing, runs no
        backbone pass and returns the canvas it was given, decoded by
        the refine passes and as it is, with the draft's token hub, by
        the mid pass. *)
Theorem reentry_beyond_schedule
            B label_B g_seed cfg top_k top_p more_smooth draft f_hat0 logits_hub entry_num
            f_hats mask_in mask_out temp (st : State m) p st1 xb
            (Hentry : Z.of_nat (stages m) <= entry_num)
            (Hstart : start m B label_B g_seed st = (Ok p, st1))
            (Hinput : fst (refine_input m p draft entry_num st1) = Ok xb) :
      let st2 := mkState m (rng st1) (default_rng st1)
                         (map (kv_caching false) (map (kv_caching true) (blocks st1))) in
      autoregressive_infer_cfg_refine m B label_B g_seed cfg top_k top_p more_smooth draft
                                      f_hat0 entry_num temp st
      = (Ok (denormalize m (fhat_to_img m f_hat0)), st2)
      /\ autoregressive_inpaint_refine m B label_B g_seed cfg top_k top_p more_smooth draft
                                       f_hat0 logits_hub entry_num f_hats mask_in mask_out
                                       temp st
         = (Ok (denormalize m (fhat_to_img m f_hat0)), st2)
      /\ autoregressive_infer_cfg_mid m B label_B g_seed cfg top_k top_p more_smooth draft
                                      f_hat0 entry_num st
         = (Ok (f_hat0, draft), st2).
    Proof.
      intros st2.
      assert (Hin : refine_input m p draft entry_num st1 = (Ok xb, st1)).
      { rewrite refine_input_pure, Hinput. reflexivity. }
      assert (Hne : patch_nums m <> []).
      { unfold start in Hstart. apply bind_ok in Hstart.
        destruct Hstart as (s & st0 & _ & H). unfold start_from in H.
        apply bind_ok in H. destruct H as (lbl & st3 & _ & H).
        apply bind_ok in H. destruct H as (fl & st4 & E & _).
        apply lift_opt_ok in E. destruct E as [E _].
        intros E0. rewrite E0 in E. discriminate E. }
      destruct (index_last Hne) as [pl Hpl].
      destruct xb as [x attn_bias].
      split; [|split].
      - unfold autoregressive_infer_cfg_refine.
        erewrite bind_step by exact Hstart. erewrite bind_step by exact Hin.
        cbv beta iota zeta.
        rewrite set_kv_step.
        edestruct (refine_skips (entry_num := entry_num)
                     (cfg_refine_body m p B cfg top_k top_p more_smooth entry_num temp
                                      (map (shared_ada_lin m) (cond_BD p)) attn_bias)
                     f_hat0 x) as (ls & Hls & Hf); [exact Hentry| |].
        { intros si pn ls st0 Hlt. unfold cfg_refine_body.
          destruct (Z.ltb_spec (Z.of_nat si) entry_num); [reflexivity|lia]. }
        erewrite bind_step by exact Hls. rewrite set_kv_step. cbv [ret]. now rewrite Hf.
      - unfold autoregressive_inpaint_refine.
        erewrite bind_step by exact Hstart. erewrite bind_step by exact Hin.
        cbv beta iota zeta.
        rewrite (lift_opt_step _ _ _ Hpl). cbv beta iota zeta. rewrite set_kv_step.
        edestruct (refine_skips (entry_num := entry_num)
                     (inpaint_refine_body m (quant_inpaint m f_hats (interpolate m mask_in pl)
                                                               (interpolate m mask_out pl))
                                          p B cfg top_k top_p more_smooth logits_hub entry_num
                                          temp (map (shared_ada_lin m) (cond_BD p)) attn_bias)
                     f_hat0 x) as (ls & Hls & Hf); [exact Hentry| |].
        { intros si pn ls st0 Hlt. unfold inpaint_refine_body.
          destruct (Z.ltb_spec (Z.of_nat si) entry_num); [reflexivity|lia]. }
        erewrite bind_step by exact Hls. rewrite set_kv_step. cbv [ret]. now rewrite Hf.
      - unfold autoregressive_infer_cfg_mid.
        erewrite bind_step by exact Hstart. erewrite bind_step by exact Hin.
        cbv beta iota zeta.
        rewrite set_kv_step.
        erewrite bind_step.
        2:{ apply (loop_skips
                     (mid_body m p B cfg top_k top_p more_smooth entry_num
                               (map (shared_ada_lin m) (cond_BD p)) attn_bias)
                     (fun s it => (mkLoop m (cur_L (fst s) + snd it * snd it) (f_hat (fst s))
                                          (next_token_map (fst s)) [] [], snd s))).
            intros [si pn] Hit [ls hub] st0. apply enumerate_from_in in Hit.
            unfold stages in Hentry. unfold mid_body.
            destruct (Z.ltb_spec entry_num (Z.of_nat si)); [lia|].
            destruct (Z.ltb_spec (Z.of_nat si) entry_num); [reflexivity|lia]. }
        rewrite set_kv_step. cbv [ret]. fold st2.
        match goal with
        | |- context [fold_left ?f ?items ?s0] =>
            pose proof (@fold_keeps _ _ (fun q => f_hat (fst q) = f_hat0 /\ snd q = draft) f
                                    items s0) as Hk
        end.
        destruct Hk as [Hf Hd]; [intros s a [H1 H2]; split; assumption|split; reflexivity|].
        rewrite Hf, Hd. reflexivity.
    Qed.

Lemma try_finally_ok {A} (c : M m A) (f : M m unit) (st st' : State m) (a : A) :
      try_finally c f st = (Ok a, st') -> exists st1, c st = (Ok a, st1).
    Proof.
      unfold try_finally. destruct (c st) as [r st1].
      destruct (f st1) as [[u|e] st2]; intros [= -> <-]; eauto.
    Qed.

Lemma beam_body_ok sel cfg top_k top_p more_smooth exit_num temp beamwidth si pn bs
          st c st' :
      beam_body m sel cfg top_k top_p more_smooth exit_num temp beamwidth (si, pn) bs st
      = (Ok c, st') ->
      (Z.of_nat si = exit_num /\ c = Break bs)
      \/ (Z.of_nat si <> exit_num /\ (S si < length (patch_nums m))%nat).
    Proof.
      unfold beam_body. destruct (Z.eqb_spec (Z.of_nat si) exit_num) as [E|E]; intros H.
      - apply ret_ok in H. destruct H as [-> _]. left. auto.
      - right. split; [exact E|].
        apply bind_ok in H. destruct H as (ratio & st1 & _ & H).
        apply bind_ok in H. destruct H as (h & st2 & _ & H).
        apply bind_ok in H. destruct H as (logits & st3 & _ & H).
        apply bind_ok in H. destruct H as ([idx bs1] & st4 & _ & H).
        apply bind_ok in H. destruct H as (e & st5 & _ & H).
        apply bind_ok in H. destruct H as ([f_hat resid] & st6 & _ & H).
        apply bind_ok in H. destruct H as (tokens & st7 & _ & H).
        apply bind_ok in H. destruct H as (x & st8 & E8 & H).
        now apply embed_next_ok in E8.
    Qed.

Lemma beam_loop_ok sel cfg top_k top_p more_smooth exit_num temp beamwidth (l : list Z) :
      forall (k : nat) (s : Beam m) (st : State m) (bs : Beam m) (st' : State m),
        (k + length l)%nat = length (patch_nums m) ->
        for_loop (beam_body m sel cfg top_k top_p more_smooth exit_num temp beamwidth)
                 (enumerate_from k l) s st = (Ok bs, st') ->
        (l = [] /\ bs = s)
        \/ (exists si : nat, (k <= si < k + length l)%nat /\ Z.of_nat si = exit_num
                             /\ (si = k -> bs = s)).
    Proof.
      induction l as [|a r IH]; intros k s st bs st' Hk H.
      - left. cbn in H. apply ret_ok in H. tauto.
      - right. cbn [enumerate_from for_loop] in H.
        apply bind_ok in H. destruct H as (c & st1 & E1 & H).
        pose proof (beam_body_ok _ _ _ _ _ _ _ _ _ _ _ _ E1) as Hc.
        destruct Hc as [[Ex ->]|(Hne & Hnext)].
        + apply ret_ok in H. destruct H as [-> _].
          exists k. cbn [length]. split; [lia|]. split; [exact Ex|]. reflexivity.
        + cbn [length] in Hk. destruct c as [s1|s1].
          * destruct (IH (S k) s1 st1 bs st' ltac:(lia) H) as [[-> _]|(si & Hsi & Ex & _)].
            -- cbn [length] in Hk. lia.
            -- exists si. cbn [length]. split; [lia|]. split; [exact Ex|]. lia.
          * apply ret_ok in H. destruct H as [-> _].
            unfold beam_body in E1.
            destruct (Z.eqb_spec (Z.of_nat k) exit_num) as [E|_]; [contradiction|].
            exfalso. clear - E1.
            repeat (apply bind_ok in E1;
                    let a := fresh "a" in let s := fresh "s" in
                    destruct E1 as (a & s & _ & E1);
                    try match type of E1 with
                        | (let (_, _) := ?p in _) _ = _ => destruct p
                        end).
            apply ret_ok in E1. destruct E1 as [E1 _]. discriminate E1.
    Qed.

Lemma final_tokens_empty (B n : nat) (r : list (list (CVec m))) :
      final_tokens m B (repeat [] n) <> Ok r.
    Proof.
      unfold final_tokens. destruct B as [|B].
      - cbn. discriminate.
      - cbn [seq map_res]. destruct n as [|n]; cbn [repeat nth_error cat1].
        + discriminate.
        + discriminate.
    Qed.

    (** X8.  The beam-search draft returns only when it was asked to
        stop strictly inside the schedule, [0 < exit_num <
        len(patch_nums)]: stopped before the first scale it has no
        token history to concatenate, and when the loop is not stopped
        the last scale asks for [self.patch_nums[si+1]], which does not
        exist. *)
Theorem beam_search_returns_inside_schedule
            B label_B g_seed cfg top_k top_p more_smooth exit_num temp beamwidth
            (st : State m) r st' :
      autoregressive_infer_cfg_draft_beamsearch m B label_B g_seed cfg top_k top_p more_smooth
                                                exit_num temp beamwidth st = (Ok r, st') ->
      0 < exit_num < Z.of_nat (stages m).
    Proof.
      unfold autoregressive_infer_cfg_draft_beamsearch. intros H.
      apply bind_ok in H. destruct H as (p & st1 & _ & H).
      apply bind_ok in H. destruct H as (f_hat0 & st2 & E2 & H).
      apply zero_canvas_ok in E2. destruct E2 as [Hne _].
      apply bind_ok in H. destruct H as (u & st3 & _ & H).
      apply bind_ok in H. destruct H as (bs & st4 & E4 & H).
      apply try_finally_ok in E4. destruct E4 as [st5 E4].
      apply bind_ok in H. destruct H as (hub & st6 & E6 & H).
      apply lift_ok in E6. destruct E6 as [E6 _].
      unfold beam_try, enumerate in E4.
      apply beam_loop_ok in E4; [|reflexivity].
      destruct E4 as [[E _]|(si & Hsi & Ex & Hk)]; [contradiction|].
      unfold stages. split; [|lia].
      destruct si as [|si]; [|lia].
      rewrite (Hk eq_refl) in E6. unfold beam_init in E6. cbn [bm_B bm_token_storage] in E6.
      now apply final_tokens_empty in E6.
    Qed.

End WithModel.

Lemma reentry_beyond_schedule_witness :
    autoregressive_infer_cfg_refine Toy.m3 1 (LabelInt 0) None Toy.cfg15 Toy.top_k3 0%Qc false
                                    [[0; 0; 0; 0; 4; 4; 4; 4; 4; 4; 4; 4; 4]] [4] 5 Toy.temp3
                                    (Toy.fresh Toy.m3 0 0)
    = (Ok [4], Toy.fresh Toy.m3 0 0).
  Proof.
    refine (proj1 (@reentry_beyond_schedule
                     Toy.m3 1 (LabelInt 0) None Toy.cfg15 Toy.top_k3 0%Qc false
                     [[0; 0; 0; 0; 4; 4; 4; 4; 4; 4; 4; 4; 4]] [4] [] 5 tt tt tt Toy.temp3
                     (Toy.fresh Toy.m3 0 0)
                     (mkStart Toy.m3 false [0; 10] [[0]; [10]]) (Toy.fresh Toy.m3 0 0)
                     _ _ _ _)).
    - vm_compute. discriminate.
    - vm_compute. reflexivity.
    - vm_compute. reflexivity.
  Defined.

Lemma beam_search_returns_inside_schedule_witness : 0 < 2 < Z.of_nat (stages Toy.m5).
  Proof.
    assert (E : autoregressive_infer_cfg_draft_beamsearch
                  Toy.m5 1 (LabelInt 0) None Toy.cfg15 (ANum 0) 0%Qc false 2 (ANum 1%Qc) 1
                  (Toy.fresh Toy.m5 0 0)
                = (Ok ([4], [[0; 1; 1; 1; 1]]), Toy.fresh Toy.m5 0 2))
      by (vm_compute; reflexivity).
    exact (@beam_search_returns_inside_schedule
             Toy.m5 1 (LabelInt 0) None Toy.cfg15 (ANum 0) 0%Qc false 2 (ANum 1%Qc) 1%nat
             (Toy.fresh Toy.m5 0 0) _ _ E).
  Defined.

End SkipPf.

(** ** The scales [compute_nll] cannot score *)

Module NllEdgePf.

Import Py Tensor Var Gen Props.
Local Open Scope var_scope.

Lemma slice_beyond {A} (l : list A) (lo hi : Z) : len l <= lo -> slice l lo hi = [].
  Proof.
    intros H. unfold slice, clamp. unfold len in *.
    destruct (Z.ltb_spec lo 0) as [H0|_]; [lia|].
    rewrite (Z.min_r lo) by lia. rewrite Nat2Z.id, skipn_all. apply firstn_nil.
  Qed.

Lemma zip_bc_error {A B C} (f : A -> B -> C) (x : list A) (y : list B) (e : Err) :
    zip_bc f x y = Raise e -> e = RuntimeError.
  Proof.
    unfold zip_bc. destruct (Nat.eqb (length x) (length y)); [discriminate|].
    destruct x as [|a [|a2 x]], y as [|b [|b2 y]]; try discriminate; now intros [= <-].
  Qed.

Lemma zip_bc_nothing {A B C} (f : A -> B -> C) (x : list A) :
    (2 <= length x)%nat -> zip_bc f x [] = Raise RuntimeError.
  Proof.
    intros H. unfold zip_bc. destruct x as [|a [|a2 x]]; cbn in *; try lia. reflexivity.
  Qed.

Lemma map_res_error {A B} (f : A -> Res B) (e0 : Err) (l : list A) (e : Err) :
    (forall a e, f a = Raise e -> e = e0) -> map_res f l = Raise e -> e = e0.
  Proof.
    intros Hf. induction l as [|a r IH]; cbn [map_res]; [discriminate|].
    destruct (f a) as [b|e1] eqn:Ea.
    - destruct (map_res f r) as [bs|e2]; [discriminate|]. intros [= <-]. now apply IH.
    - intros [= <-]. eapply Hf; eauto.
  Qed.

Lemma map_res_raises {A B} (f : A -> Res B) (e0 : Err) (l : list A) :
    (forall a e, f a = Raise e -> e = e0) ->
    Exists (fun a => f a = Raise e0) l -> map_res f l = Raise e0.
  Proof.
    intros Hf. induction 1 as [a r Ha|a r _ IH]; cbn [map_res].
    - now rewrite Ha.
    - rewrite IH. destruct (f a) as [b|e1] eqn:Ea; [reflexivity|].
      f_equal. eapply Hf; eauto.
  Qed.

Section WithModel.

Variable m : Ops.

Lemma add_pos_nothing (x : list (list (Vec m))) :
      Exists (fun row => (2 <= length row)%nat) x -> add_pos m x [] = Raise RuntimeError.
    Proof.
      intros H. unfold add_pos. apply map_res_raises.
      - intros a e. apply zip_bc_error.
      - eapply Exists_impl; [|exact H]. intros row. apply zip_bc_nothing.
    Qed.

Lemma place_beyond (x : list (list (Vec m))) (lo hi : Z) :
      Schedule.L (patch_nums m) <= lo ->
      Exists (fun row => (2 <= length row)%nat) x ->
      place m x lo hi = Raise RuntimeError.
    Proof.
      intros Hlo Hx. unfold place.
      rewrite slice_beyond by (unfold Schedule.lvl_1L, enumerate;
                               now rewrite LevelPf.lvl_from_length).
      cbn [map]. now rewrite add_pos_nothing.
    Qed.


End WithModel.


End NllEdgePf.

(** ** The generator a call does not sample from *)

Module FramePf.

Import Py Tensor Var Gen Props Frame Train.
Local Open Scope var_scope.

Section WithModel.

Variable m : Ops.

Lemma untouched_refl (sel : bool) (st : State m) : untouched sel st st.
    Proof. destruct sel; reflexivity. Qed.

Lemma untouched_trans (sel : bool) (a b c : State m) :
      untouched sel a b -> untouched sel b c -> untouched sel a c.
    Proof. destruct sel; cbn; congruence. Qed.

Lemma spares_ret {A} (sel : bool) (a : A) : spares (m := m) sel (ret a).
    Proof. intros st. apply untouched_refl. Qed.

Lemma spares_lift {A} (sel : bool) (r : Res A) : spares (m := m) sel (lift r).
    Proof. intros st. apply untouched_refl. Qed.

Lemma spares_lift_opt {A} (sel : bool) (e : Err) (o : option A) :
      spares (m := m) sel (lift_opt e o).
    Proof. intros st. apply untouched_refl. Qed.

Lemma spares_bind {A B} (sel : bool) (c : M m A) (k : A -> M m B) :
      spares sel c -> (forall a, spares sel (k a)) -> spares sel (bind c k).
    Proof.
      intros Hc Hk st. unfold bind. specialize (Hc st).
      destruct (c st) as [[a|e] st1]; cbn [snd] in *; [|exact Hc].
      eapply untouched_trans; [exact Hc|apply Hk].
    Qed.

Lemma spares_bind_yields {A B} (R : A -> Prop) (sel : bool) (c : M m A) (k : A -> M m B) :
      spares sel c -> yields c R -> (forall a, R a -> spares sel (k a)) ->
      spares sel (bind c k).
    Proof.
      intros Hc Hy Hk st. unfold bind. specialize (Hc st). specialize (Hy st).
      destruct (c st) as [[a|e] st1]; cbn [snd] in *; [|exact Hc].
      eapply untouched_trans; [exact Hc|]. apply Hk. eapply Hy. reflexivity.
    Qed.

Lemma spares_draw {A} (sel : bool) (f : Rng m -> option (A * Rng m)) :
      spares sel (draw sel f).
    Proof.
      intros st. unfold draw.
      destruct sel; [destruct (f (rng st)) as [[a r]|]|destruct (f (default_rng st)) as [[a r]|]];
        reflexivity.
    Qed.

Lemma spares_set_kv (sel enable : bool) : spares sel (set_kv_caching m enable).
    Proof. intros st. destruct sel; reflexivity. Qed.

Lemma spares_disable_and_reset (sel : bool) : spares sel (disable_and_reset m).
    Proof. intros st. destruct sel; reflexivity. Qed.

Lemma spares_backbone (sel : bool) x cond bias : spares sel (backbone m x cond bias).
    Proof.
      intros st. unfold backbone.
      destruct (blocks_forward m 0 (blocks st) x cond bias). destruct sel; reflexivity.
    Qed.

Lemma spares_update_blocks (sel : bool) f : spares sel (update_blocks m f).
    Proof.
      intros st. unfold update_blocks.
      destruct (blocks_update m f (blocks st)). destruct sel; reflexivity.
    Qed.

Lemma spares_try_finally {A} (sel : bool) (c : M m A) (f : M m unit) :
      spares sel c -> spares sel f -> spares sel (try_finally c f).
    Proof.
      intros Hc Hf st. unfold try_finally. specialize (Hc st).
      destruct (c st) as [r st1]. specialize (Hf st1).
      destruct (f st1) as [[u|e] st2]; cbn [snd] in *; eapply untouched_trans; eauto.
    Qed.

Lemma spares_for_loop {A S} (sel : bool) (body : A -> S -> M m (Ctl S)) (items : list A)
          (s : S) :
      (forall a s, spares sel (body a s)) -> spares sel (for_loop body items s).
    Proof.
      intros Hbody. revert s. induction items as [|a r IH]; intros s; cbn [for_loop].
      - apply spares_ret.
      - apply spares_bind; [apply Hbody|]. intros [s'|s']; [apply IH|apply spares_ret].
    Qed.

Lemma spares_sample_scales sel B top_k top_p tmp_of logits items new_L idx :
      spares sel (sample_scales m sel B top_k top_p tmp_of logits items new_L idx).
    Proof.
      revert new_L idx. induction items as [|[a b] r IH]; intros new_L idx;
        cbn [sample_scales].
      - apply spares_ret.
      - repeat first [ apply spares_lift | apply spares_lift_opt | apply spares_draw
                     | apply IH | apply spares_bind; [|intros] ].
    Qed.

Ltac spare_step :=
      first
        [ apply spares_ret | apply spares_lift | apply spares_lift_opt | apply spares_draw
        | apply spares_set_kv | apply spares_backbone | apply spares_update_blocks
        | apply spares_disable_and_reset | apply spares_sample_scales
        | apply spares_try_finally
        | apply spares_for_loop; intros
        | apply spares_bind; [|intros]
        | match goal with
          | |- spares _ (let (_, _) := ?p in _) => destruct p
          | |- spares _ (if ?b then _ else _) => destruct b
          | |- spares _ (match ?x with _ => _ end) => destruct x
          end
        | progress unfold start_from, resolve_label, zero_canvas, embed_tokens, embed_next,
          accumulate, guided_sample, infer_main, infer_body, draft_body, refine_input,
          later_scale, finish_scale, inpaint_refine_body, cfg_refine_body, mid_body,
          beam_try, beam_body, beam_expand, beam_prune, beam_single ].

Ltac spare := repeat spare_step.

    (** The generator selected by [g_seed]. *)
Lemma spares_start {A} (B : nat) (label_B : Label) (g_seed : option Z)
          (k : Start m -> M m A) :
      let s := match g_seed with Some _ => true | None => false end in
      (forall p, sel p = s -> spares s (k p)) ->
      spares s (p <- start m B label_B g_seed ;; k p).
    Proof.
      intros s Hk. unfold start.
      assert (Hseed : forall st, seed_rng m g_seed st
                                 = (Ok s, snd (seed_rng m g_seed st))
                                   /\ untouched s st (snd (seed_rng m g_seed st))).
      { intros st. subst s. destruct g_seed; split; reflexivity. }
      intros st. unfold bind at 1 2. destruct (Hseed st) as [E Hu]. rewrite E.
      eapply untouched_trans; [exact Hu|].
      refine (@spares_bind_yields _ _ (fun p => sel p = s) s
                                  (start_from m s B label_B) k _ _ Hk _).
      - spare.
      - apply SeedPf.start_from_sel.
    Qed.

Ltac spare_call :=
      apply spares_start;
      let s := fresh "s" in let c := fresh "c" in let t := fresh "t" in
      intros [s c t] Hsel; cbn [sel cond_BD token_map0] in *; subst s; spare.

    (** X10.  A generation call samples from one generator only and
        leaves the other as it found it, however the call ends: without
        [g_seed] it draws from torch's default generator and the
        model's own generator [self.rng] is not touched; with [g_seed]
        it draws from [self.rng] and the default generator is not
        touched.  [compute_nll] and [forward], which take no seed, never
        touch [self.rng]. *)
Theorem calls_spare_the_other_generator
            (st : State m) B label_B cfg top_k top_p more_smooth exit_num entry_num temp draft
            f_hat0 logits_hub f_hats mask_in mask_out beamwidth
            prefix_tokens target_tokens labels scale_idx prog_si x_BLCv mask_l :
      let spared {A} (call : option Z -> M m A) :=
        rng (snd (call None st)) = rng st
        /\ forall g, default_rng (snd (call (Some g) st)) = default_rng st in
      spared (fun g_seed =>
                autoregressive_infer_cfg m B label_B g_seed cfg top_k top_p more_smooth)
      /\ spared (fun g_seed =>
                   autoregressive_infer_inpaint m B label_B g_seed cfg top_k top_p more_smooth
                                                f_hats mask_in mask_out)
      /\ spared (fun g_seed =>
                   autoregressive_infer_cfg_draft m B label_B g_seed cfg top_k top_p
                                                  more_smooth exit_num temp)
      /\ spared (fun g_seed =>
                   autoregressive_inpaint_draft m B label_B g_seed cfg top_k top_p more_smooth
                                                exit_num f_hats mask_in mask_out temp)
      /\ spared (fun g_seed =>
                   autoregressive_inpaint_refine m B label_B g_seed cfg top_k top_p more_smooth
                                                 draft f_hat0 logits_hub entry_num f_hats
                                                 mask_in mask_out temp)
      /\ spared (fun g_seed =>
                   autoregressive_infer_cfg_refine m B label_B g_seed cfg top_k top_p
                                                   more_smooth draft f_hat0 entry_num temp)
      /\ spared (fun g_seed =>
                   autoregressive_infer_cfg_mid m B label_B g_seed cfg top_k top_p more_smooth
                                                draft f_hat0 entry_num)
      /\ spared (fun g_seed =>
                   autoregressive_infer_cfg_draft_beamsearch m B label_B g_seed cfg top_k top_p
                                                             more_smooth exit_num temp
                                                             beamwidth)
      /\ rng (snd (compute_nll m prefix_tokens target_tokens labels scale_idx st)) = rng st
      /\ rng (snd (forward m prog_si labels x_BLCv mask_l st)) = rng st.
    Proof.
      intros spared.
      assert (H : forall A (call : option Z -> M m A),
                 (forall g_seed,
                     spares (match g_seed with Some _ => true | None => false end)
                            (call g_seed)) ->
                 spared A call).
      { intros A call Hc. split.
        - exact (Hc None st).
        - intros g. exact (Hc (Some g) st). }
      split; [apply H; intros g_seed; unfold autoregressive_infer_cfg; spare_call|].
      split; [apply H; intros g_seed; unfold autoregressive_infer_inpaint; spare_call|].
      split; [apply H; intros g_seed; unfold autoregressive_infer_cfg_draft; spare_call|].
      split; [apply H; intros g_seed; unfold autoregressive_inpaint_draft; spare_call|].
      split; [apply H; intros g_seed; unfold autoregressive_inpaint_refine; spare_call|].
      split; [apply H; intros g_seed; unfold autoregressive_infer_cfg_refine; spare_call|].
      split; [apply H; intros g_seed; unfold autoregressive_infer_cfg_mid; spare_call|].
      split; [apply H; intros g_seed; unfold autoregressive_infer_cfg_draft_beamsearch;
              spare_call|].
      split.
      - assert (Hs : spares false
                            (compute_nll m prefix_tokens target_tokens labels scale_idx)).
        { unfold compute_nll, nll_conditioned. cbv zeta. spare. }
        exact (Hs st).
      - assert (Hs : spares false (forward m prog_si labels x_BLCv mask_l)).
        { unfold forward, forward_conditioned. cbv zeta. spare. }
        exact (Hs st).
    Qed.

End WithModel.

End FramePf.

(** ** The caches after the other calls *)

Module CacheEdgePf.

Import Py Tensor Var Gen Props RunPf EdgePf.
Local Open Scope var_scope.

Section WithModel.

Variable m : Ops.

    (** X11.  The calls that decode an image, and the mid pass, disable
        the caching of every block and empty every cache before they
        return: after a normal return of [autoregressive_infer_cfg],
        [autoregressive_infer_inpaint], the two refine passes or
        [autoregressive_infer_cfg_mid] no block is caching and no cache
        holds an entry, whatever state the blocks were in before. *)
Theorem decoding_calls_return_clean
            (st : State m) B label_B g_seed cfg top_k top_p more_smooth entry_num temp draft
            f_hat0 logits_hub f_hats mask_in mask_out :
      (forall r st',
          autoregressive_infer_cfg m B label_B g_seed cfg top_k top_p more_smooth st
          = (Ok r, st') -> clean (blocks st'))
      /\ (forall r st',
             autoregressive_infer_inpaint m B label_B g_seed cfg top_k top_p more_smooth f_hats
                                          mask_in mask_out st = (Ok r, st') ->
             clean (blocks st'))
      /\ (forall r st',
             autoregressive_inpaint_refine m B label_B g_seed cfg top_k top_p more_smooth draft
                                           f_hat0 logits_hub entry_num f_hats mask_in mask_out
                                           temp st = (Ok r, st') ->
             clean (blocks st'))
      /\ (forall r st',
             autoregressive_infer_cfg_refine m B label_B g_seed cfg top_k top_p more_smooth
                                             draft f_hat0 entry_num temp st = (Ok r, st') ->
             clean (blocks st'))
      /\ (forall r st',
             autoregressive_infer_cfg_mid m B label_B g_seed cfg top_k top_p more_smooth draft
                                          f_hat0 entry_num st = (Ok r, st') ->
             clean (blocks st')).
    Proof.
      split; [|split; [|split; [|split]]]; intros r st' E.
      - eapply CachePf.infer_cfg_returns_clean; exact E.
      - eapply CachePf.infer_inpaint_returns_clean; exact E.
      - eapply CachePf.inpaint_refine_returns_clean; exact E.
      - eapply CachePf.cfg_refine_returns_clean; exact E.
      - eapply CachePf.cfg_mid_returns_clean; exact E.
    Qed.

    (** X12.  The beam-search draft is the one call that restores the
        caches on every path: its loop runs inside [try ... finally],
        so once the prologue has succeeded the caching of every block
        is disabled and every cache is empty when the call ends, by a
        return or by an exception, whatever the blocks held before; and
        a prologue that fails leaves the blocks as they were. *)
Theorem beam_search_restores_caches
            (st : State m) B label_B g_seed cfg top_k top_p more_smooth exit_num temp
            beamwidth :
      let run := autoregressive_infer_cfg_draft_beamsearch
                   m B label_B g_seed cfg top_k top_p more_smooth exit_num temp beamwidth st in
      (forall p st1, patch_nums m <> [] -> start m B label_B g_seed st = (Ok p, st1) ->
                     clean (blocks (snd run)))
      /\ (clean (blocks st) -> clean (blocks (snd run)))
      /\ (forall e, fst (start m B label_B g_seed st) = Raise e ->
                    fst run = Raise e /\ blocks (snd run) = blocks st).
    Proof.
      intros run. subst run. split; [|split].
      - intros p st1 Hne E. unfold autoregressive_infer_cfg_draft_beamsearch.
        erewrite bind_step by exact E.
        destruct (@zero_canvas_some m B Hne) as [f Hf].
        erewrite bind_step by exact (Hf st1).
        apply CachePf.leaves_clean_finally. intros bs.
        apply CachePf.keeps_bind; [apply CachePf.keeps_lift|].
        intros hub. apply CachePf.keeps_ret.
      - apply CachePf.beamsearch_preserves_clean.
      - intros e E. unfold autoregressive_infer_cfg_draft_beamsearch.
        pose proof (@CachePf.keeps_start m B label_B g_seed st) as Hk.
        destruct (start m B label_B g_seed st) as [[p|e'] st1] eqn:Es; [discriminate E|].
        cbn [fst snd] in E, Hk. injection E as ->.
        erewrite bind_raise by exact Es. split; [reflexivity|exact Hk].
    Qed.

End WithModel.

Lemma decoding_calls_return_clean_witness :
    clean (blocks (snd (autoregressive_infer_cfg
                          Toy.m3 1 (LabelInt 0) None Toy.cfg15 (ANum 0) 0%Qc false
                          (mkState Toy.m3 0 0 [mkAttn true [tt]; mkAttn true [tt]])))).
  Proof.
    destruct (autoregressive_infer_cfg
                Toy.m3 1 (LabelInt 0) None Toy.cfg15 (ANum 0) 0%Qc false
                (mkState Toy.m3 0 0 [mkAttn true [tt]; mkAttn true [tt]])) as [r st'] eqn:E.
    assert (Hr : exists img, r = Ok img).
    { change r with (fst (r, st')). rewrite <- E. vm_compute. eexists. reflexivity. }
    destruct Hr as [img ->].
    exact (proj1 (@decoding_calls_return_clean
                    Toy.m3 (mkState Toy.m3 0 0 [mkAttn true [tt]; mkAttn true [tt]])
                    1 (LabelInt 0) None Toy.cfg15 (ANum 0) 0%Qc false 2 Toy.temp3 [] [] []
                    tt tt tt) img st' E).
  Defined.

Lemma beam_search_restores_caches_witness :
    fst (autoregressive_infer_cfg_draft_beamsearch
           Toy.m5 1 (LabelInt 0) None Toy.cfg15 (ASeq []) 0%Qc false 4 (ANum 1%Qc) 2
           (mkState Toy.m5 0 0 [mkAttn true [tt]; mkAttn false []]))
    = Raise IndexError
    /\ clean (blocks (snd (autoregressive_infer_cfg_draft_beamsearch
                             Toy.m5 1 (LabelInt 0) None Toy.cfg15 (ASeq []) 0%Qc false 4
                             (ANum 1%Qc) 2
                             (mkState Toy.m5 0 0 [mkAttn true [tt]; mkAttn false []])))).
  Proof.
    split; [vm_compute; reflexivity|].
    refine (proj1 (@beam_search_restores_caches
                     Toy.m5 (mkState Toy.m5 0 0 [mkAttn true [tt]; mkAttn false []])
                     1 (LabelInt 0) None Toy.cfg15 (ASeq []) 0%Qc false 4 (ANum 1%Qc) 2%nat)
                  (mkStart Toy.m5 false [0; 10] [[0]; [10]])
                  (mkState Toy.m5 0 0 [mkAttn true [tt]; mkAttn false []]) _ _).
    - discriminate.
    - vm_compute. reflexivity.
  Defined.

End CacheEdgePf.

(** ** The beams kept by the pruning step *)

Module BeamPf.

Import Py Tensor Var Gen Props.

Lemma qc_not_lt (a b : Qc) : (a ?= b)%Qc <> Lt -> (b <= a)%Qc.
  Proof. intros H. apply Qcnot_lt_le. intros Hlt. apply Qclt_alt in Hlt. contradiction. Qed.

Lemma argmax_from_spec (l : list Qc) :
    forall (pre : list Qc) (best : Qc) (bi : nat),
      nth_error pre bi = Some best ->
      (forall x, In x pre -> (x <= best)%Qc) ->
      exists (j : nat) (v : Qc),
        argmax_from best (Z.of_nat bi) (Z.of_nat (length pre)) l = Z.of_nat j
        /\ nth_error (pre ++ l) j = Some v
        /\ forall x, In x (pre ++ l) -> (x <= v)%Qc.
  Proof.
    induction l as [|x r IH]; intros pre best bi Hbest Hmax; cbn [argmax_from].
    - exists bi, best. rewrite app_nil_r. auto.
    - assert (Hlen : Z.of_nat (length pre) + 1 = Z.of_nat (length (pre ++ [x])))
        by (rewrite length_app; cbn [length]; lia).
      replace (pre ++ x :: r) with ((pre ++ [x]) ++ r) by (now rewrite <- app_assoc).
      rewrite Hlen.
      destruct (best ?= x)%Qc eqn:E.
      + apply (IH (pre ++ [x]) best bi).
        * rewrite nth_error_app1; [exact Hbest|]. apply nth_error_Some. congruence.
        * intros y Hy. apply in_app_or in Hy. destruct Hy as [Hy|[<-|[]]]; [auto|].
          apply Qceq_alt in E. subst. apply Qcle_refl.
      + apply (IH (pre ++ [x]) x (length pre)).
        * rewrite nth_error_app2, Nat.sub_diag by lia. reflexivity.
        * apply Qclt_alt in E.
          intros y Hy. apply in_app_or in Hy. destruct Hy as [Hy|[<-|[]]].
          -- apply Qcle_trans with best; [auto|]. now apply Qclt_le_weak.
          -- apply Qcle_refl.
      + apply (IH (pre ++ [x]) best bi).
        * rewrite nth_error_app1; [exact Hbest|]. apply nth_error_Some. congruence.
        * intros y Hy. apply in_app_or in Hy. destruct Hy as [Hy|[<-|[]]]; [auto|].
          apply qc_not_lt. congruence.
  Qed.

Lemma argmax_spec (l : list Qc) :
    l <> [] ->
    exists (j : nat) (v : Qc),
      argmax l = Z.of_nat j /\ nth_error l j = Some v /\ forall x, In x l -> (x <= v)%Qc.
  Proof.
    destruct l as [|x r]; [contradiction|]. intros _.
    destruct (@argmax_from_spec r [x] x 0%nat eq_refl) as (j & v & H).
    - intros y [<-|[]]. apply Qcle_refl.
    - exists j, v. exact H.
  Qed.

Lemma chunks_nth {A} (w : nat) :
    forall (fuel : nat) (l : list A) (i : nat) (g : list A),
      nth_error (chunks_fuel fuel w l) i = Some g ->
      g = firstn w (skipn (i * w) l) /\ (i * w < length l)%nat.
  Proof.
    induction fuel as [|f IH]; intros l i g H.
    - destruct l; destruct i; discriminate H.
    - destruct l as [|a l]; [destruct i; discriminate H|].
      cbn [chunks_fuel] in H. destruct i as [|i].
      + cbn in H. injection H as <-. cbn [Nat.mul skipn length]. split; [reflexivity|lia].
      + cbn [nth_error] in H. apply IH in H. destruct H as [-> Hlt].
        rewrite skipn_skipn, length_skipn in *. cbn [Nat.mul]. split.
        * f_equal. f_equal. lia.
        * lia.
  Qed.

Lemma chunks_length {A} (w : nat) :
    (0 < w)%nat ->
    forall (q fuel : nat) (l : list A),
      length l = (q * w)%nat -> (q <= fuel)%nat -> length (chunks_fuel fuel w l) = q.
  Proof.
    intros Hw. induction q as [|q IH]; intros fuel l Hl Hq.
    - destruct l; [|discriminate Hl]. destruct fuel; reflexivity.
    - destruct fuel as [|f]; [lia|].
      destruct l as [|a l]; [cbn in Hl; lia|].
      cbn [chunks_fuel length]. f_equal. apply IH; [|lia].
      rewrite length_skipn, Hl. cbn [Nat.mul]. lia.
  Qed.

  (** X13.  At the transition scale the beams are scored by the sum,
      over the positions, of the largest logit, and the rows are
      grouped by [beamwidth] consecutive rows.  When the batch was
      forked at the scale before ([active_beams = beamwidth]) the
      pruning keeps one row of every group, and that row has the best
      score of its group. *)
Theorem beam_prune_keeps_best_of_group
          (B beamwidth : nat) (logits_BlV : Logits) (best : list Z) (original_B : nat)
          (selected : list Z)
          (Hrows : length logits_BlV = B)
          (Hsel : beam_select B beamwidth beamwidth logits_BlV
                  = Ok (best, original_B, selected)) :
    (original_B * beamwidth = B)%nat
    /\ length selected = original_B
    /\ forall (i : nat) (s : Z),
         nth_error selected i = Some s ->
         Z.of_nat i * Z.of_nat beamwidth <= s < (Z.of_nat i + 1) * Z.of_nat beamwidth
         /\ exists v, nth_error (beam_scores logits_BlV) (Z.to_nat s) = Some v
                      /\ forall (j : nat) (x : Qc),
                           (i * beamwidth <= j < (i + 1) * beamwidth)%nat ->
                           nth_error (beam_scores logits_BlV) j = Some x -> (x <= v)%Qc.
  Proof.
    unfold beam_select, view_rows in Hsel.
    assert (Hn : length (beam_scores logits_BlV) = B)
      by (unfold beam_scores; now rewrite length_map).
    destruct beamwidth as [|w']; [discriminate Hsel|].
    set (w := S w') in *. rewrite Hn in Hsel.
    destruct (Nat.eqb_spec (B mod w) 0) as [Hmod|]; [|discriminate Hsel].
    apply Nat.Div0.div_exact in Hmod.
    set (q := (B / w)%nat) in *.
    assert (HB : B = (q * w)%nat) by lia.
    assert (Hg : length (chunks_fuel B w (beam_scores logits_BlV)) = q).
    { apply chunks_length; [subst w; lia|lia|]. subst w. nia. }
    change (match w with O => Raise ZeroDivisionError | S _ => ?x end) with x in Hsel.
    rewrite GuidancePf.zip_bc_same in Hsel
      by (rewrite !length_map, length_seq, Hg; reflexivity).
    injection Hsel as <- <- <-.
    split; [lia|]. split.
    { rewrite GuidancePf.zip_with_length; rewrite !length_map, length_seq; [reflexivity|].
      now rewrite Hg. }
    intros i s Hs. rewrite GuidancePf.zip_with_nth in Hs.
    rewrite !nth_error_map in Hs.
    destruct (nth_error (seq 0 q) i) as [i'|] eqn:Ei; [|discriminate Hs].
    destruct (nth_error (chunks_fuel B w (beam_scores logits_BlV)) i) as [g|] eqn:Eg;
      [|discriminate Hs].
    cbn [option_map] in Hs. injection Hs as <-.
    rewrite SchedulePf.nth_error_seq0 in Ei.
    destruct (Nat.ltb_spec i q) as [Hi|]; [|discriminate Ei]. injection Ei as <-.
    apply chunks_nth in Eg. destruct Eg as [Eg Hlt].
    assert (Hgl : length g = w).
    { rewrite Eg, length_firstn, length_skipn, Hn. nia. }
    destruct (@argmax_spec g) as (j & v & Ej & Hv & Hmax).
    { intros E. rewrite E in Hgl. subst w. discriminate Hgl. }
    assert (Hj : (j < w)%nat) by (rewrite <- Hgl; apply nth_error_Some; congruence).
    rewrite Ej. split; [nia|].
    exists v. split.
    - match goal with
      | |- nth_error _ ?n = _ => replace n with (i * w + j)%nat by (subst w; nia)
      end.
      rewrite <- nth_error_skipn.
      rewrite Eg, nth_error_firstn in Hv.
      destruct (Nat.ltb_spec j w); [exact Hv|lia].
    - intros k x Hk Hx. apply Hmax.
      apply nth_error_In with (n := (k - i * w)%nat).
      rewrite Eg, nth_error_firstn.
      destruct (Nat.ltb_spec (k - i * w) w); [|nia].
      rewrite nth_error_skipn. replace (i * w + (k - i * w))%nat with k by lia. exact Hx.
  Qed.

Lemma beam_prune_keeps_best_of_group_witness :
    beam_select 4 2 2 [[[of_Z 1]]; [[of_Z 3]]; [[of_Z 5]]; [[of_Z 2]]] = Ok ([1; 0], 2%nat, [1; 2])
    /\ (2 * 2 = 4)%nat.
  Proof.
    assert (E : beam_select 4 2 2 [[[of_Z 1]]; [[of_Z 3]]; [[of_Z 5]]; [[of_Z 2]]]
                = Ok ([1; 0], 2%nat, [1; 2])) by (vm_compute; reflexivity).
    split; [exact E|].
    exact (proj1 (@beam_prune_keeps_best_of_group
                    4 2 [[[of_Z 1]]; [[of_Z 3]]; [[of_Z 5]]; [[of_Z 2]]] [1; 0] 2 [1; 2]
                    eq_refl E)).
  Defined.

End BeamPf.

(** ** The training pass *)

Module TrainPf.

Import Py Tensor Var Gen Props Train RunPf EdgePf.
Local Open Scope var_scope.

Section WithModel.

Variable m : Ops.

Lemma forward_conditioned_seeded prog_si label_B x mask_l :
      seeded (forward_conditioned m prog_si label_B x mask_l).
    Proof.
      unfold forward_conditioned. cbv zeta.
      repeat first
        [ apply SeedPf.seeded_ret | apply SeedPf.seeded_lift | apply SeedPf.seeded_lift_opt
        | apply SeedPf.seeded_backbone
        | apply SeedPf.seeded_bind; [|intros]
        | match goal with |- seeded (if ?b then _ else _) => destruct b end ].
    Qed.

    (** The range of the progressive index read at line 216. *)
Lemma prog_range (prog_si : Z) (st : State m) :
      prog_si < Z.of_nat (stages m) ->
      exists be,
        (if 0 <=? prog_si
         then lift_opt IndexError (index (Schedule.begin_ends (patch_nums m)) prog_si)
         else ret (0, Schedule.L (patch_nums m))) st = (Ok be, st).
    Proof.
      intros H. destruct (Z.leb_spec 0 prog_si) as [H0|H0]; [|eexists; reflexivity].
      unfold lift_opt. rewrite <- (Z2Nat.id prog_si) by lia. rewrite RefinePf.index_nat.
      destruct (nth_error (Schedule.begin_ends (patch_nums m)) (Z.to_nat prog_si)) as [be|] eqn:E.
      - eexists. reflexivity.
      - apply nth_error_None in E.
        rewrite SchedulePf.begin_ends_spec, length_map, length_seq in E.
        unfold stages in H. lia.
    Qed.

Lemma forward_unfold prog_si label_B x mask_l (st : State m) :
      prog_si < Z.of_nat (stages m) ->
      fst (forward m prog_si label_B x mask_l st)
      = match mask_labels m (fst (rand m (default_rng st) (length x))) label_B with
        | Ok masked => fst (forward_conditioned m prog_si masked x mask_l st)
        | Raise e => Raise e
        end.
    Proof.
      intros H. unfold forward. destruct (prog_range st H) as [be Hbe].
      erewrite bind_step by exact Hbe. cbv zeta. unfold bind at 1, draw.
      destruct (rand m (default_rng st) (length x)) as [u r]. cbn [fst].
      unfold bind, lift.
      destruct (mask_labels m u label_B) as [masked|e]; [|reflexivity].
      refine (proj1 (@forward_conditioned_seeded prog_si masked x mask_l _ _ _)).
      split; reflexivity.
    Qed.

    (** X14.  Label dropping in the training pass.  [forward] draws one
        number per sample from torch's default generator and conditions
        on [num_classes] every sample whose draw is below
        [cond_drop_rate].  With a rate of 0 no label is replaced and
        the logits do not depend on the draws; with a rate of 1 or more
        every label is replaced, so the logits depend neither on the
        draws nor on the labels that were passed. *)
Theorem forward_label_dropping
            (prog_si : Z) (label_B label_B' : list Z) (x_BLCv : list (list (CVec m)))
            (mask_l : Z) (st st' : State m)
            (Hrand : rand_ok m)
            (Hprog : prog_si < Z.of_nat (stages m))
            (Hlow : low_eq st st')
            (Hlabels : length label_B = length x_BLCv)
            (Hlabels' : length label_B' = length x_BLCv) :
      (cond_drop_rate m = 0%Qc ->
       fst (forward m prog_si label_B x_BLCv mask_l st)
       = fst (forward_conditioned m prog_si label_B x_BLCv mask_l st)
       /\ fst (forward m prog_si label_B x_BLCv mask_l st)
          = fst (forward m prog_si label_B x_BLCv mask_l st'))
      /\ ((1 <= cond_drop_rate m)%Qc ->
          fst (forward m prog_si label_B x_BLCv mask_l st)
          = fst (forward_conditioned m prog_si (repeat (num_classes m) (length x_BLCv))
                                     x_BLCv mask_l st)
          /\ fst (forward m prog_si label_B x_BLCv mask_l st)
             = fst (forward m prog_si label_B' x_BLCv mask_l st')).
    Proof.
      destruct (Hrand (default_rng st) (length x_BLCv)) as [Hl Hu].
      destruct (Hrand (default_rng st') (length x_BLCv)) as [Hl' Hu'].
      rewrite !forward_unfold by exact Hprog.
      split.
      - intros H0.
        rewrite !(NllPf.mask_none m _ H0) by assumption.
        rewrite !NllPf.zip_bc_keep by congruence.
        split; [reflexivity|].
        exact (proj1 (@forward_conditioned_seeded prog_si label_B x_BLCv mask_l _ _ Hlow)).
      - intros H1.
        rewrite !(NllPf.mask_all m _ H1) by assumption.
        rewrite !NllPf.zip_bc_const by congruence.
        rewrite Hlabels, Hlabels'.
        split; [reflexivity|].
        exact (proj1 (@forward_conditioned_seeded
                        prog_si (repeat (num_classes m) (length x_BLCv)) x_BLCv mask_l
                        _ _ Hlow)).
    Qed.

    (** X15.  The progressive index of training.  [forward] reads
        [self.begin_ends[self.prog_si]] before anything else, so an
        index at or beyond the number of scales raises [IndexError]
        with no number drawn; the pair it reads is not used afterwards,
        so every other index that is not 0 gives the same pass as
        [prog_si = -1]; and with [prog_si = 0] the teacher-forcing
        tokens are ignored, only their number of rows counts. *)
Theorem forward_progressive_index
            (label_B : list Z) (x_BLCv : list (list (CVec m))) (mask_l : Z) (st : State m) :
      (forall prog_si, Z.of_nat (stages m) <= prog_si ->
                       forward m prog_si label_B x_BLCv mask_l st = (Raise IndexError, st))
      /\ (forall prog_si, prog_si < Z.of_nat (stages m) -> prog_si <> 0 ->
                          forward m prog_si label_B x_BLCv mask_l st
                          = forward m (-1) label_B x_BLCv mask_l st)
      /\ (forall x', length x' = length x_BLCv ->
                     forward m 0 label_B x' mask_l st = forward m 0 label_B x_BLCv mask_l st).
    Proof.
      split; [|split].
      - intros prog_si H. unfold forward. apply bind_raise.
        destruct (Z.leb_spec 0 prog_si) as [H0|H0]; [|lia].
        unfold lift_opt. rewrite <- (Z2Nat.id prog_si) by lia. rewrite RefinePf.index_nat.
        destruct (nth_error (Schedule.begin_ends (patch_nums m)) (Z.to_nat prog_si)) as [be|] eqn:E;
          [|reflexivity].
        assert (Hs : nth_error (Schedule.begin_ends (patch_nums m)) (Z.to_nat prog_si) <> None)
          by congruence.
        apply nth_error_Some in Hs.
        rewrite SchedulePf.begin_ends_spec, length_map, length_seq in Hs.
        unfold stages in H. lia.
      - intros prog_si H Hne. unfold forward.
        destruct (prog_range st H) as [be Hbe]. rewrite (bind_step _ _ _ Hbe).
        destruct (@prog_range (-1) st ltac:(lia)) as [be' Hbe']. rewrite (bind_step _ _ _ Hbe').
        unfold forward_conditioned.
        destruct (Z.eqb_spec prog_si 0) as [E|_]; [contradiction|]. reflexivity.
      - intros x' Hx. unfold forward, forward_conditioned. rewrite Hx. reflexivity.
    Qed.

End WithModel.

Lemma forward_label_dropping_witness :
    fst (forward Toy.m5_drop_all (-1) [3] [[0; 0; 0; 0]] 5 (Toy.fresh Toy.m5_drop_all 0 0))
    = fst (forward Toy.m5_drop_all (-1) [7] [[0; 0; 0; 0]] 5 (Toy.fresh Toy.m5_drop_all 0 1)).
  Proof.
    refine (proj2 (proj2 (@forward_label_dropping
                            Toy.m5_drop_all (-1) [3] [7] [[0; 0; 0; 0]] 5
                            (Toy.fresh Toy.m5_drop_all 0 0) (Toy.fresh Toy.m5_drop_all 0 1)
                            (@NllPf.toy_rand_ok _ _) _ _ eq_refl eq_refl) _)).
    - vm_compute. reflexivity.
    - split; reflexivity.
    - apply Qcle_refl.
  Defined.

Lemma forward_progressive_index_witness :
    forward Toy.m3 3 [3] [[0; 0; 0; 0]] 5 (Toy.fresh Toy.m3 0 0)
    = (Raise IndexError, Toy.fresh Toy.m3 0 0).
  Proof.
    refine (proj1 (@forward_progressive_index Toy.m3 [3] [[0; 0; 0; 0]] 5
                                              (Toy.fresh Toy.m3 0 0)) 3 _).
    vm_compute. discriminate.
  Defined.

End TrainPf.

(** ** The view of [SharedAdaLin] *)

Module AdaLinPf.

Import Py Tensor Train.

Lemma chunks_concat {A} (w : nat) (rows : list (list A)) :
    (0 < w)%nat -> Forall (fun r => length r = w) rows ->
    forall fuel, (length rows <= fuel)%nat -> chunks_fuel fuel w (concat rows) = rows.
  Proof.
    intros Hw. induction 1 as [|r rs Hr _ IH]; intros fuel Hf.
    - destruct fuel; reflexivity.
    - destruct fuel as [|f]; [cbn in Hf; lia|].
      cbn [concat]. destruct r as [|a r]; [cbn in Hr; lia|].
      cbn [app chunks_fuel]. change (a :: r ++ concat rs) with ((a :: r) ++ concat rs).
      rewrite firstn_app, skipn_app, Hr, Nat.sub_diag, firstn_all2, skipn_all2 by lia.
      cbn [firstn skipn app]. rewrite app_nil_r. f_equal. apply IH. cbn in Hf. lia.
  Qed.

Lemma chunks_flatten {A} (w : nat) :
    (0 < w)%nat ->
    forall (fuel : nat) (l : list A), (length l <= fuel)%nat -> concat (chunks_fuel fuel w l) = l.
  Proof.
    intros Hw. induction fuel as [|f IH]; intros l Hl.
    - destruct l; [reflexivity|cbn in Hl; lia].
    - destruct l as [|a l]; [reflexivity|].
      cbn [chunks_fuel concat]. rewrite IH.
      + apply firstn_skipn.
      + rewrite length_skipn. cbn [length] in *. lia.
  Qed.

Lemma chunks_widths {A} (w q : nat) (l : list A) :
    length l = (q * w)%nat ->
    Forall (fun g => length g = w) (chunks_fuel (length l) w l).
  Proof.
    intros Hl. apply Forall_forall. intros g Hg.
    apply In_nth_error in Hg. destruct Hg as [i Hi].
    apply BeamPf.chunks_nth in Hi. destruct Hi as [-> Hlt].
    rewrite length_firstn, length_skipn.
    assert (Hq : (i < q)%nat) by nia.
    assert (Hle : (i * w + w <= q * w)%nat) by nia.
    lia.
  Qed.

Lemma concat_length {A} (w : nat) (rows : list (list A)) :
    Forall (fun r => length r = w) rows -> length (concat rows) = (length rows * w)%nat.
  Proof.
    induction 1 as [|r rs Hr _ IH]; [reflexivity|].
    cbn [concat length]. rewrite length_app, IH, Hr. lia.
  Qed.

  (** X16.  [SharedAdaLin.forward] regroups the output of the linear
      layer without mixing samples when the layer has [6 * C] outputs,
      as [VAR] builds it: sample [b] of the result holds the six groups
      of [C] consecutive entries of row [b], in order.  A layer with
      fewer than six outputs gives [C = 0] and the view is refused. *)
Theorem shared_ada_lin_view {A} (C : Z) (linear_out : list (list A)) :
    (0 < C ->
     Forall (fun row => len row = 6 * C) linear_out ->
     exists out,
       SharedAdaLin_forward (6 * C) linear_out = Ok out
       /\ length out = length linear_out
       /\ forall (b : nat) (row : list A),
            nth_error linear_out b = Some row ->
            exists groups,
              nth_error out b = Some [groups]
              /\ length groups = 6%nat
              /\ Forall (fun g => len g = C) groups
              /\ concat groups = row)
    /\ (forall weight_shape0,
           0 <= weight_shape0 < 6 ->
           SharedAdaLin_forward weight_shape0 linear_out = Raise RuntimeError).
  Proof.
    split.
    - intros HC Hrows. unfold SharedAdaLin_forward.
      replace (6 * C / 6) with C by (symmetry; rewrite Z.mul_comm; apply Z.div_mul; lia).
      destruct (Z.leb_spec (6 * C) 0) as [H|_]; [lia|].
      set (w := Z.to_nat (6 * C)).
      assert (Hw : Forall (fun r : list A => length r = w) linear_out).
      { eapply Forall_impl; [|exact Hrows]. intros r Hr. unfold len in Hr. subst w. lia. }
      assert (Hlen : length (concat linear_out) = (length linear_out * w)%nat)
        by (now apply concat_length).
      assert (Hmod : len (concat linear_out) mod (6 * C) = 0).
      { unfold len. rewrite Hlen, Nat2Z.inj_mul. subst w. rewrite Z2Nat.id by lia.
        apply Z.mod_mul. lia. }
      rewrite Hmod. cbn [Z.eqb].
      rewrite chunks_concat; [|subst w; lia|exact Hw|rewrite Hlen; subst w; nia].
      eexists. split; [reflexivity|]. split; [apply length_map|].
      intros b row Hb. rewrite nth_error_map, Hb. cbn [option_map].
      eexists. split; [reflexivity|].
      assert (Hr : length row = (6 * Z.to_nat C)%nat).
      { rewrite Forall_forall in Hw. rewrite (Hw row) by (eapply nth_error_In; eauto).
        subst w. lia. }
      split; [|split].
      + apply (BeamPf.chunks_length (w := Z.to_nat C)); [lia|exact Hr|lia].
      + eapply Forall_impl; [|apply (chunks_widths (Z.to_nat C) 6 row Hr)].
        intros g Hg. cbv beta in Hg. unfold len. lia.
      + apply chunks_flatten; lia.
    - intros ws Hws. unfold SharedAdaLin_forward.
      rewrite Z.div_small by lia. reflexivity.
  Qed.

Lemma shared_ada_lin_view_witness :
    (exists out,
        SharedAdaLin_forward (6 * 2) [[1; 2; 3; 4; 5; 6; 7; 8; 9; 10; 11; 12];
                                      [21; 22; 23; 24; 25; 26; 27; 28; 29; 30; 31; 32]]
        = Ok out
        /\ nth_error out 1
           = Some [[[21; 22]; [23; 24]; [25; 26]; [27; 28]; [29; 30]; [31; 32]]])
    /\ SharedAdaLin_forward 5 [[1; 2; 3; 4; 5]] = Raise RuntimeError.
  Proof.
    split.
    - destruct (proj1 (@shared_ada_lin_view
                         Z 2 [[1; 2; 3; 4; 5; 6; 7; 8; 9; 10; 11; 12];
                              [21; 22; 23; 24; 25; 26; 27; 28; 29; 30; 31; 32]]))
        as (out & E & _ & _).
      + lia.
      + repeat constructor.
      + exists out. split; [exact E|].
        vm_compute in E. injection E as <-. reflexivity.
    - refine (proj2 (@shared_ada_lin_view Z 2 [[1; 2; 3; 4; 5]]) 5 _). lia.
  Defined.

End AdaLinPf.

(** ** The inpainting call and the standard call *)

Module SiblingPf.

Import Py Tensor Var Gen Props RunPf EdgePf.
Local Open Scope var_scope.

Section WithModel.

Variable m : Ops.

Lemma bind_cong {A B} (c c' : M m A) (k k' : A -> M m B) :
      (forall st, c st = c' st) -> (forall a st, k a st = k' a st) ->
      forall st, bind c k st = bind c' k' st.
    Proof.
      intros Hc Hk st. unfold bind. rewrite Hc.
      destruct (c' st) as [[a|e] st1]; [apply Hk|reflexivity].
    Qed.

Lemma for_loop_cong {A S} (body body' : A -> S -> M m (Ctl S)) (items : list A) :
      (forall a s st, body a s st = body' a s st) ->
      forall s st, for_loop body items s st = for_loop body' items s st.
    Proof.
      intros Hb. induction items as [|a r IH]; intros s st; cbn [for_loop]; [reflexivity|].
      apply bind_cong; [intros; apply Hb|]. intros [s'|s'] st'; [apply IH|reflexivity].
    Qed.

Lemma infer_body_cong (quant quant' : Quant m) p B cfg top_k top_p more_smooth cond_gss :
      (forall si n f h, quant si n f h = quant' si n f h) ->
      forall it ls st,
        infer_body m quant p B cfg top_k top_p more_smooth cond_gss it ls st
        = infer_body m quant' p B cfg top_k top_p more_smooth cond_gss it ls st.
    Proof.
      intros Hq [si pn] ls st. unfold infer_body.
      apply bind_cong; [reflexivity|]. intros [[ratio logits] idx] st1.
      apply bind_cong; [reflexivity|]. intros e st2.
      apply bind_cong; [|reflexivity]. intros st3.
      unfold accumulate. apply bind_cong; [reflexivity|]. intros h st4.
      now rewrite Hq.
    Qed.

    (** X17.  [autoregressive_infer_inpaint] is
        [autoregressive_infer_cfg] with the quantizer's inpainting step
        in place of its plain step, and nothing else: whenever the two
        steps agree for the masks given, resized to the last side
        length, the two calls have the same outcome and leave the model
        in the same state. *)
Theorem inpaint_is_infer_with_inpaint_step
            B label_B g_seed cfg top_k top_p more_smooth f_hats mask_in mask_out
            (st : State m)
            (Hstep : forall pn_last si n f h,
                index (patch_nums m) (-1) = Some pn_last ->
                get_next_autoregressive_input_inpaint
                  m si n f h f_hats (interpolate m mask_in pn_last)
                  (interpolate m mask_out pn_last)
                = get_next_autoregressive_input m si n f h) :
      autoregressive_infer_inpaint m B label_B g_seed cfg top_k top_p more_smooth f_hats
                                   mask_in mask_out st
      = autoregressive_infer_cfg m B label_B g_seed cfg top_k top_p more_smooth st.
    Proof.
      unfold autoregressive_infer_inpaint, autoregressive_infer_cfg, infer_main.
      apply bind_cong; [reflexivity|]. intros p st1.
      unfold zero_canvas at 1 2.
      destruct (index (patch_nums m) (-1)) as [pl|] eqn:Epl; [|reflexivity].
      cbv [lift_opt]. unfold bind at 1 2 3. unfold bind at 4 5. cbv [ret].
      cbv beta iota zeta.
      apply bind_cong; [reflexivity|]. intros u st2.
      apply bind_cong; [|reflexivity]. intros st3.
      apply for_loop_cong. apply infer_body_cong.
      intros si n f h. unfold quant_inpaint. now apply Hstep.
    Qed.

End WithModel.

Lemma inpaint_is_infer_with_inpaint_step_witness :
    autoregressive_infer_inpaint Toy.m3 1 (LabelInt 0) None Toy.cfg15 (ANum 0) 0%Qc false
                                 tt tt tt (Toy.fresh Toy.m3 0 0)
    = (Ok [13], Toy.fresh Toy.m3 0 3).
  Proof.
    rewrite (@inpaint_is_infer_with_inpaint_step
               Toy.m3 1 (LabelInt 0) None Toy.cfg15 (ANum 0) 0%Qc false tt tt tt
               (Toy.fresh Toy.m3 0 0)).
    - vm_compute. reflexivity.
    - intros pn_last si n f h _. reflexivity.
  Defined.

End SiblingPf.

(** ** What a refine pass needs in order to return *)

Module RefineRunPf.

Import Py Tensor Var Gen Props RunPf EdgePf SkipPf.
Local Open Scope var_scope.

Lemma enumerate_from_nth {A} (l : list A) (k i : nat) (x : A) :
    nth_error l i = Some x -> In ((k + i)%nat, x) (enumerate_from k l).
  Proof.
    revert k i. induction l as [|a r IH]; intros k [|i] H; try discriminate H; cbn in *.
    - injection H as ->. left. f_equal. lia.
    - right. replace (k + S i)%nat with (S k + i)%nat by lia. now apply IH.
  Qed.

Section WithModel.

Variable m : Ops.

Lemma sample_scales_ok sel B top_k top_p tmp_of logits (items : list (nat * Z)) :
      forall new_L idx st r st',
        sample_scales m sel B top_k top_p tmp_of logits items new_L idx st = (Ok r, st') ->
        forall a b, In (a, b) items ->
                    (exists k, subscript top_k (Z.of_nat a) = Ok k)
                    /\ (exists t, tmp_of (Z.of_nat a) = Ok t).
    Proof.
      induction items as [|[a0 b0] rest IH]; intros new_L idx st r st' H a b Hin;
        [contradiction|].
      cbn [sample_scales] in H.
      apply bind_ok in H. destruct H as (pa & st1 & _ & H).
      apply bind_ok in H. destruct H as (k & st2 & Ek & H).
      apply lift_ok in Ek. destruct Ek as [Ek _].
      apply bind_ok in H. destruct H as (t & st3 & Et & H).
      apply lift_ok in Et. destruct Et as [Et _].
      apply bind_ok in H. destruct H as (smp & st4 & _ & H).
      apply bind_ok in H. destruct H as (i & st5 & _ & H).
      destruct Hin as [[= <- <-]|Hin]; [eauto|].
      eapply IH; eauto.
    Qed.

Lemma later_scale_ok sel B cfg top_p k tmp si logits st r st' :
      later_scale m sel B cfg top_p k tmp si logits st = (Ok r, st') ->
      (exists k', k = Ok k') /\ (exists t, tmp = Ok t).
    Proof.
      unfold later_scale. intros H.
      apply bind_ok in H. destruct H as (ratio & st1 & _ & H).
      apply bind_ok in H. destruct H as (l & st2 & _ & H).
      apply bind_ok in H. destruct H as (k' & st3 & Ek & H).
      apply lift_ok in Ek. destruct Ek as [Ek _].
      apply bind_ok in H. destruct H as (t & st4 & Et & H).
      apply lift_ok in Et. destruct Et as [Et _].
      eauto.
    Qed.

Lemma finish_scale_next quant sel more_smooth B si pn cur_L ratio logits idx ls st c st' :
      finish_scale m quant sel more_smooth B si pn cur_L ratio logits idx ls st = (Ok c, st') ->
      exists ls', c = Next ls'.
    Proof.
      unfold finish_scale. intros H.
      apply bind_ok in H. destruct H as (e & st1 & _ & H).
      apply bind_ok in H. destruct H as ([f_hat resid] & st2 & _ & H).
      destruct (Z.of_nat si =? nsm1 m).
      - apply ret_ok in H. destruct H as [-> _]. eauto.
      - apply bind_ok in H. destruct H as (tokens & st3 & _ & H).
        apply bind_ok in H. destruct H as (x & st4 & _ & H).
        apply ret_ok in H. destruct H as [-> _]. eauto.
    Qed.

Lemma entry_scale_listed (e : nat) :
      (e < length (patch_nums m))%nat ->
      exists pn, In (e, pn) (entry_scales m (Z.of_nat e)).
    Proof.
      intros He. unfold entry_scales, enumerate.
      replace (Z.of_nat e + 1) with (Z.of_nat (S e)) by lia.
      change (slice (patch_nums m) 0 (Z.of_nat (S e)))
        with (slice_to (patch_nums m) (Z.of_nat (S e))).
      rewrite RefinePf.slice_to_firstn.
      destruct (nth_error (patch_nums m) e) as [pn|] eqn:E.
      - exists pn. apply (@enumerate_from_nth _ (firstn (S e) (patch_nums m)) 0 e pn).
        rewrite nth_error_firstn. destruct (Nat.ltb_spec e (S e)); [exact E|lia].
      - apply nth_error_None in E. lia.
    Qed.

    (** A loop whose body never breaks runs its body on every item. *)
Lemma loop_ran {A S} (body : A -> S -> M m (Ctl S)) (items : list A) :
      (forall it s st c st', body it s st = (Ok c, st') -> exists s', c = Next s') ->
      forall s st r st',
        for_loop body items s st = (Ok r, st') ->
        forall it, In it items -> exists s1 st1 c st2, body it s1 st1 = (Ok c, st2).
    Proof.
      intros Hnext. induction items as [|a rest IH]; intros s st r st' H it Hin;
        [contradiction|].
      cbn [for_loop] in H. apply bind_ok in H. destruct H as (c & st1 & E & H).
      destruct Hin as [<-|Hin]; [eauto|].
      destruct (Hnext _ _ _ _ _ E) as [s' ->]. eapply IH; eauto.
    Qed.

Lemma cfg_refine_body_ok p B cfg top_k top_p more_smooth entry_num temp cond_gss attn_bias
          si pn ls st c st' :
      cfg_refine_body m p B cfg top_k top_p more_smooth entry_num temp cond_gss attn_bias
                      (si, pn) ls st = (Ok c, st') ->
      (exists ls', c = Next ls')
      /\ ((si < length (patch_nums m))%nat -> entry_num <= Z.of_nat si ->
          (exists x, subscript top_k (Z.of_nat si) = Ok x)
          /\ (exists t, subscript temp (Z.of_nat si) = Ok t)).
    Proof.
      unfold cfg_refine_body. intros H.
      destruct (Z.ltb_spec (Z.of_nat si) entry_num) as [Hlt|Hge].
      - apply ret_ok in H. destruct H as [-> _]. split; [eauto|]. intros _ Hle. lia.
      - apply bind_ok in H. destruct H as (h & st1 & _ & H).
        apply bind_ok in H. destruct H as ([[ratio logits] idx] & st2 & E & H).
        apply finish_scale_next in H. split; [exact H|]. intros Hsi _.
        destruct (Z.eqb_spec (Z.of_nat si) entry_num) as [Heq|Hne].
        + apply bind_ok in E. destruct E as ([r1 l1] & st3 & _ & E).
          apply bind_ok in E. destruct E as (i1 & st4 & E & _).
          destruct (entry_scale_listed Hsi) as [pn' Hin]. rewrite Heq in Hin.
          eapply sample_scales_ok; eauto.
        + now apply later_scale_ok in E.
    Qed.

Lemma inpaint_refine_body_ok quant p B cfg top_k top_p more_smooth hub entry_num temp cond_gss
          attn_bias si pn ls st c st' :
      inpaint_refine_body m quant p B cfg top_k top_p more_smooth hub entry_num temp cond_gss
                          attn_bias (si, pn) ls st = (Ok c, st') ->
      (exists ls', c = Next ls')
      /\ ((si < length (patch_nums m))%nat -> entry_num <= Z.of_nat si ->
          (exists x, subscript top_k (Z.of_nat si) = Ok x)
          /\ (exists t, subscript temp (Z.of_nat si) = Ok t)).
    Proof.
      unfold inpaint_refine_body. intros H.
      destruct (Z.ltb_spec (Z.of_nat si) entry_num) as [Hlt|Hge].
      - apply ret_ok in H. destruct H as [-> _]. split; [eauto|]. intros _ Hle. lia.
      - apply bind_ok in H. destruct H as (h & st1 & _ & H).
        apply bind_ok in H. destruct H as ([[ratio logits] idx] & st2 & E & H).
        apply finish_scale_next in H. split; [exact H|]. intros Hsi _.
        destruct (Z.eqb_spec (Z.of_nat si) entry_num) as [Heq|Hne].
        + apply bind_ok in E. destruct E as ([r1 l1] & st3 & _ & E).
          apply bind_ok in E. destruct E as (i1 & st4 & E & _).
          destruct (entry_scale_listed Hsi) as [pn' Hin]. rewrite Heq in Hin.
          eapply sample_scales_ok; eauto.
        + now apply later_scale_ok in E.
    Qed.

    (** What the last scale asks of a per-scale argument decides its
        length. *)
Lemma covers_schedule {A} (a : Arg A) (x : Arg A) (S : nat) :
      length (patch_nums m) = Datatypes.S S ->
      subscript a (Z.of_nat S) = Ok x ->
      exists l, a = ASeq l /\ Z.of_nat (stages m) <= len l.
    Proof.
      intros HS H. apply subscript_ok in H. destruct H as (l & -> & Hl).
      exists l. split; [reflexivity|]. unfold stages, len. lia.
    Qed.

Lemma last_scale_in (S : nat) :
      length (patch_nums m) = Datatypes.S S ->
      exists pn, In (S, pn) (enumerate (patch_nums m)).
    Proof.
      intros HS. destruct (nth_error (patch_nums m) S) as [pn|] eqn:E.
      - exists pn. apply (@enumerate_from_nth _ (patch_nums m) 0 S pn E).
      - apply nth_error_None in E. lia.
    Qed.

    (** X18.  A refine pass that re-enters inside the schedule
        ([entry_num] below the number of scales) returns only if
        [top_k] and [temp] are sequences with an entry for every scale
        of the schedule: the re-entry scale subscripts them for every
        scale up to itself and every later scale for its own index.
        The defaults [top_k=0] and [temp=None] cannot be subscripted,
        so a refine pass called with them does not return. *)
Theorem refine_returns_with_per_scale_arguments
            B label_B g_seed cfg top_k top_p more_smooth draft f_hat0 logits_hub entry_num
            f_hats mask_in mask_out temp (st : State m)
            (Hentry : entry_num < Z.of_nat (stages m)) :
      (forall img st',
          autoregressive_infer_cfg_refine m B label_B g_seed cfg top_k top_p more_smooth draft
                                          f_hat0 entry_num temp st = (Ok img, st') ->
          (exists ks, top_k = ASeq ks /\ Z.of_nat (stages m) <= len ks)
          /\ (exists ts, temp = ASeq ts /\ Z.of_nat (stages m) <= len ts))
      /\ (forall img st',
             autoregressive_inpaint_refine m B label_B g_seed cfg top_k top_p more_smooth draft
                                           f_hat0 logits_hub entry_num f_hats mask_in mask_out
                                           temp st = (Ok img, st') ->
             (exists ks, top_k = ASeq ks /\ Z.of_nat (stages m) <= len ks)
             /\ (exists ts, temp = ASeq ts /\ Z.of_nat (stages m) <= len ts)).
    Proof.
      assert (Hlast : forall S, length (patch_nums m) = Datatypes.S S ->
                                entry_num <= Z.of_nat S).
      { intros S HS. unfold stages in Hentry. lia. }
      split; intros img st' H.
      - unfold autoregressive_infer_cfg_refine in H.
        apply bind_ok in H. destruct H as (p & st1 & Ep & H).
        apply bind_ok in H. destruct H as ([x attn_bias] & st2 & _ & H).
        apply bind_ok in H. destruct H as (u & st3 & _ & H).
        apply bind_ok in H. destruct H as (ls & st4 & E & _).
        destruct (length (patch_nums m)) as [|S] eqn:HS.
        { unfold stages in Hentry. rewrite HS in Hentry.
          apply length_zero_iff_nil in HS.
          unfold start in Ep. apply bind_ok in Ep. destruct Ep as (s & st0 & _ & Ep).
          unfold start_from in Ep. apply bind_ok in Ep. destruct Ep as (lbl & st5 & _ & Ep).
          apply bind_ok in Ep. destruct Ep as (fl & st6 & Efl & _).
          apply lift_opt_ok in Efl. destruct Efl as [Efl _]. rewrite HS in Efl.
          discriminate Efl. }
        destruct (last_scale_in HS) as [pn Hin].
        eapply loop_ran in E; [| |exact Hin].
        + destruct E as (s1 & st5 & c & st6 & E).
          apply cfg_refine_body_ok in E. destruct E as [_ E].
          destruct E as [[k Hk] [t Ht]]; [lia|auto|].
          split; eapply covers_schedule; eauto.
        + intros [si pn'] s0 st0 c st0' E0. now apply cfg_refine_body_ok in E0.
      - unfold autoregressive_inpaint_refine in H.
        apply bind_ok in H. destruct H as (p & st1 & Ep & H).
        apply bind_ok in H. destruct H as ([x attn_bias] & st2 & _ & H).
        apply bind_ok in H. destruct H as (pl & st3 & Epl & H).
        apply bind_ok in H. destruct H as (u & st4 & _ & H).
        apply bind_ok in H. destruct H as (ls & st5 & E & _).
        destruct (length (patch_nums m)) as [|S] eqn:HS.
        { apply length_zero_iff_nil in HS.
          apply lift_opt_ok in Epl. destruct Epl as [Epl _]. rewrite HS in Epl.
          discriminate Epl. }
        destruct (last_scale_in HS) as [pn Hin].
        eapply loop_ran in E; [| |exact Hin].
        + destruct E as (s1 & st6 & c & st7 & E).
          apply inpaint_refine_body_ok in E. destruct E as [_ E].
          destruct E as [[k Hk] [t Ht]]; [lia|auto|].
          split; eapply covers_schedule; eauto.
        + intros [si pn'] s0 st0 c st0' E0. now apply inpaint_refine_body_ok in E0.
    Qed.

End WithModel.

Lemma refine_returns_with_per_scale_arguments_witness :
    (exists ks, Toy.top_k3 = ASeq ks /\ Z.of_nat (stages Toy.m3) <= len ks)
    /\ (exists ts, Toy.temp3 = ASeq ts /\ Z.of_nat (stages Toy.m3) <= len ts).
  Proof.
    assert (Hentry : 2 < Z.of_nat (stages Toy.m3)) by (vm_compute; reflexivity).
    assert (E : autoregressive_infer_cfg_refine
                  Toy.m3 1 (LabelInt 0) None Toy.cfg15 Toy.top_k3 0%Qc false
                  [[0; 0; 0; 0; 4; 4; 4; 4; 4; 4; 4; 4; 4]] [4] 2 Toy.temp3
                  (Toy.fresh Toy.m3 0 0)
                = (Ok [13], Toy.fresh Toy.m3 0 3)) by (vm_compute; reflexivity).
    exact (proj1 (@refine_returns_with_per_scale_arguments
                    Toy.m3 1 (LabelInt 0) None Toy.cfg15 Toy.top_k3 0%Qc false
                    [[0; 0; 0; 0; 4; 4; 4; 4; 4; 4; 4; 4; 4]] [4] [] 2 tt tt tt Toy.temp3
                    (Toy.fresh Toy.m3 0 0) Hentry) _ _ E).
  Defined.

End RefineRunPf.

(** ** The temperature of the Gumbel-softmax smoothing *)

Module SmoothPf.

Import Py Tensor Var Gen Props.

Lemma ratio_bounds (a b : Z) :
    0 <= a <= b -> 0 < b ->
    (0 <= of_Z a / of_Z b)%Qc /\ (of_Z a / of_Z b <= 1)%Qc.
  Proof.
    intros Ha Hb. unfold of_Z, Qcle, Qcdiv, Qcmult, Qcinv. cbn [this Q2Qc].
    rewrite !Qred_correct.
    assert (H0 : (0 < inject_Z b)%Q)
      by (change (inject_Z 0 < inject_Z b)%Q; rewrite <- Zlt_Qlt; exact Hb).
    split.
    - apply Qle_shift_div_l; [exact H0|]. rewrite Qmult_0_l.
      change (inject_Z 0 <= inject_Z a)%Q. rewrite <- Zle_Qle. lia.
    - apply Qle_shift_div_r; [exact H0|]. rewrite Qmult_1_l. rewrite <- Zle_Qle. lia.
  Qed.

Lemma qmax_left (a b : Qc) : (b <= a)%Qc -> qmax a b = a.
  Proof.
    intros H. unfold qmax. destruct (a ?= b)%Qc eqn:E; try reflexivity.
    apply Qclt_alt in E. apply Qcle_not_lt in H. contradiction.
  Qed.

Lemma qmax_floor (a b : Qc) : (b <= qmax a b)%Qc.
  Proof.
    unfold qmax. destruct (a ?= b)%Qc eqn:E.
    - apply BeamPf.qc_not_lt. congruence.
    - apply Qcle_refl.
    - apply BeamPf.qc_not_lt. congruence.
  Qed.

Lemma gum_t_linear (r : Qc) :
    (0 <= r)%Qc -> (r <= 1)%Qc ->
    (Q2Qc (5 # 1000) <= Q2Qc (27 # 100) * (1 - r * Q2Qc (95 # 100)))%Qc
    /\ (Q2Qc (27 # 2000) <= Q2Qc (27 # 100) * (1 - r * Q2Qc (95 # 100)))%Qc
    /\ (Q2Qc (27 # 100) * (1 - r * Q2Qc (95 # 100)) <= Q2Qc (27 # 100))%Qc.
  Proof.
    intros H0 H1. unfold Qcle in *.
    cbn [this Q2Qc Qcmult Qcminus Qcplus Qcopp] in *.
    rewrite !Qred_correct. rewrite Qred_correct in H0, H1.
    repeat split; lra.
  Qed.

  (** X19.  The temperature of the Gumbel-softmax smoothing,
      [gum_t = max(0.27 * (1 - ratio * 0.95), 0.005)], is never below
      0.005, whatever the ratio.  Within a schedule of at least two
      scales the ratio [si / (S-1)] lies between 0 and 1, so the floor
      never applies: the temperature is [0.27 * (1 - 0.95 * ratio)],
      between 0.0135 at the last scale and 0.27 at the first. *)
Theorem gumbel_temperature_in_schedule (m : Ops) (si : nat)
          (Hscales : (2 <= stages m)%nat) (Hsi : (si < stages m)%nat) :
    (forall r : Qc, (Q2Qc (5 # 1000) <= gum_t r)%Qc)
    /\ exists ratio,
         ratio_of m si = Ok ratio
         /\ (0 <= ratio)%Qc /\ (ratio <= 1)%Qc
         /\ gum_t ratio = (Q2Qc (27 # 100) * (1 - ratio * Q2Qc (95 # 100)))%Qc
         /\ (Q2Qc (27 # 2000) <= gum_t ratio)%Qc
         /\ (gum_t ratio <= Q2Qc (27 # 100))%Qc.
  Proof.
    split; [intros r; apply qmax_floor|].
    assert (Hn : nsm1 m = Z.of_nat (stages m) - 1) by reflexivity.
    exists (of_Z (Z.of_nat si) / of_Z (nsm1 m))%Qc.
    destruct (@ratio_bounds (Z.of_nat si) (nsm1 m)) as [H0 H1]; [lia|lia|].
    destruct (gum_t_linear H0 H1) as (Hfloor & Hlow & Hhigh).
    assert (Hg : gum_t (of_Z (Z.of_nat si) / of_Z (nsm1 m))
                 = (Q2Qc (27 # 100)
                    * (1 - of_Z (Z.of_nat si) / of_Z (nsm1 m) * Q2Qc (95 # 100)))%Qc)
      by (unfold gum_t; now apply qmax_left).
    split.
    { unfold ratio_of. destruct (Z.eqb_spec (nsm1 m) 0) as [E|_]; [lia|reflexivity]. }
    split; [exact H0|]. split; [exact H1|]. split; [exact Hg|].
    rewrite Hg. split; assumption.
  Qed.

Lemma gumbel_temperature_in_schedule_witness :
    gum_t 1%Qc = Q2Qc (27 # 2000) /\ (Q2Qc (5 # 1000) <= gum_t 1%Qc)%Qc.
  Proof.
    split; [vm_compute; reflexivity|].
    assert (H2 : (2 <= stages Toy.m3)%nat) by (vm_compute; lia).
    assert (Hs : (2 < stages Toy.m3)%nat) by (vm_compute; lia).
    exact (proj1 (@gumbel_temperature_in_schedule Toy.m3 2 H2 Hs) 1%Qc).
  Defined.

End SmoothPf.

(** ** The sign of the negative log-likelihood *)

Module NllSignPf.

Import Py Tensor Var Gen Props RunPf.
Local Open Scope var_scope.

Lemma index_in {A} (l : list A) (i : Z) (x : A) : index l i = Some x -> In x l.
  Proof.
    unfold index.
    destruct ((0 <=? i) && (i <? len l)); [apply nth_error_In|].
    destruct ((- len l <=? i) && (i <? 0)); [apply nth_error_In|discriminate].
  Qed.

Lemma map_res_forall {A B} (P : B -> Prop) (f : A -> Res B) (l : list A) (r : list B) :
    (forall a b, f a = Ok b -> P b) -> map_res f l = Ok r -> Forall P r.
  Proof.
    intros Hf. revert r. induction l as [|a l IH]; intros r H; cbn [map_res] in H.
    - injection H as <-. constructor.
    - destruct (f a) as [b|e] eqn:Ea; [|discriminate H].
      destruct (map_res f l) as [bs|e]; [|discriminate H].
      injection H as <-. constructor; [eapply Hf; eauto|now apply IH].
  Qed.

Lemma gather_picks (B : nat) (target_len : Z) (log_probs : Logits)
        (target_tokens : list (list Z)) (chosen : list (list Qc)) :
    gather B target_len log_probs target_tokens = Ok chosen ->
    Forall (Forall (fun x => exists row v, In row log_probs /\ In v row /\ In x v)) chosen.
  Proof.
    unfold gather. destruct (zip_bc _ _ target_tokens) as [l|e]; [|discriminate].
    apply map_res_forall. intros [i t] xs. cbn [fst snd]. unfold gather_row.
    destruct (zip_bc _ _ t) as [jt|e]; [|discriminate].
    apply map_res_forall. intros [j tok] x. cbn [fst snd].
    destruct (index log_probs i) as [row|] eqn:Er; [|discriminate].
    destruct (index row j) as [v|] eqn:Ev; [|discriminate].
    destruct (index v tok) as [y|] eqn:Ey; [|discriminate].
    intros [= <-]. exists row, v. repeat split; eapply index_in; eauto.
  Qed.

Lemma fold_nonpos (l : list Qc) :
    Forall (fun x => (x <= 0)%Qc) l ->
    forall acc : Qc, (acc <= 0)%Qc -> (fold_left Qcplus l acc <= 0)%Qc.
  Proof.
    induction 1 as [|x l Hx _ IH]; intros acc Hacc; cbn [fold_left]; [exact Hacc|].
    apply IH. replace 0%Qc with (0 + 0)%Qc by ring. now apply Qcplus_le_compat.
  Qed.

Lemma qsum_nonpos (l : list Qc) : Forall (fun x => (x <= 0)%Qc) l -> (qsum l <= 0)%Qc.
  Proof. intros H. unfold qsum. apply fold_nonpos; [exact H|apply Qcle_refl]. Qed.

Lemma inv_count_nonneg (n : Z) : 0 <= n -> (0 <= / of_Z n)%Qc.
  Proof.
    intros H. unfold of_Z, Qcle, Qcinv. cbn [this Q2Qc]. rewrite !Qred_correct.
    apply Qinv_le_0_compat. change (inject_Z 0 <= inject_Z n)%Q. rewrite <- Zle_Qle. exact H.
  Qed.

Lemma mean_nonpos (l : list Qc) : Forall (fun x => (x <= 0)%Qc) l -> (mean l <= 0)%Qc.
  Proof.
    intros H. unfold mean, Qcdiv.
    apply Qcle_trans with (0 * / of_Z (len l))%Qc;
      [|replace (0 * / of_Z (len l))%Qc with 0%Qc by ring; apply Qcle_refl].
    apply Qcmult_le_compat_r; [now apply qsum_nonpos|].
    apply inv_count_nonneg. unfold len. lia.
  Qed.

Section WithModel.

Variable m : Ops.


End WithModel.


End NllSignPf.
